(** * bimshady: the stroke-to-graph vectorization engine

    A shallow embedding of the geometry code of the sketch component
    ([areColinear], [removeColinearPoints], [createWallGraph], [findDoors],
    [findBoundingBox], [scaleToRealWorld] and the data path of [send]), of
    the graph builder of the earlier sketch pad, and of the control flow of
    the sketch parser ([svgParser.js]), with the properties of this code that
    the specification states and further ones read off the code.

    Numbers.  The coordinates the canvas hands over are finite JavaScript
    numbers; they are modelled as real numbers, so rounding is not part of
    the model.  The places where the code can leave the finite numbers (the
    [Infinity] literals of [findBoundingBox] and [snapToNearestEdge], and the
    unguarded quotient of [scaleToRealWorld]) are modelled with [JsNum], the
    finite reals extended with the two infinities and NaN. *)

From Stdlib Require Import String Ascii DecimalString DecimalNat.
From Stdlib Require Import Reals Lra Lia Psatz Bool Arith ZArith List.
Import ListNotations.

Open Scope R_scope.

(** ** Numbers *)

Definition Rltb (a b : R) : bool := if Rlt_dec a b then true else false.
Definition Rleb (a b : R) : bool := if Rle_dec a b then true else false.
Definition Reqb (a b : R) : bool := if Req_dec_T a b then true else false.

(** [Math.trunc] and the remainder operator [%] on finite numbers with a
    non-zero divisor: the result takes the sign of the dividend. *)
Definition Rtrunc (a : R) : R :=
  if Rleb 0 a then IZR (Int_part a) else - IZR (Int_part (- a)).

Definition jsRem (a n : R) : R := a - n * Rtrunc (a / n).

(** [Math.atan2] on finite arguments. *)
Definition atan2 (dy dx : R) : R :=
  if Rltb 0 dx then atan (dy / dx)
  else if Rltb dx 0 then
    (if Rleb 0 dy then atan (dy / dx) + PI else atan (dy / dx) - PI)
  else if Rltb 0 dy then PI / 2
  else if Rltb dy 0 then - (PI / 2)
  else 0.

(** ** Data model *)

(** A point object [{x, y}] over a number type [N]. *)
Record Pt (N : Type) : Type := mkPt { x : N; y : N }.
Arguments mkPt {N} _ _.
Arguments x {N} _.
Arguments y {N} _.

(** Points with finite coordinates: everything up to the scaling step. *)
Abbreviation Point := (Pt R).

(** A paper.js path as the engine reads it: [path.segments] may be missing,
    and each segment contributes [segment.point]. *)
Record Path : Type := mkPath { segments : option (list Point) }.

(** [{nodes, edges}]; an edge is the two-element array [[idx1, idx2]]. *)
Record Graph (N : Type) : Type := mkGraph {
  nodes : list (Pt N);
  edges : list (nat * nat)
}.
Arguments mkGraph {N} _ _.
Arguments nodes {N} _.
Arguments edges {N} _.

Abbreviation WallGraph := (Graph R).

Definition origin : Point := {| x := 0; y := 0 |}.

(** ** StrokeSimplifier *)

Definition areColinear (p1 p2 p3 : Point) (angleTolerance : R) : bool :=
  let v1 := {| x := x p1 - x p2; y := y p1 - y p2 |} in
  let v2 := {| x := x p3 - x p2; y := y p3 - y p2 |} in
  let mag1 := sqrt (x v1 * x v1 + y v1 * y v1) in
  let mag2 := sqrt (x v2 * x v2 + y v2 * y v2) in
  if Reqb mag1 0 || Reqb mag2 0 then true
  else
    let dotProduct := x v1 * x v2 + y v1 * y v2 in
    let cosAngle := dotProduct / (mag1 * mag2) in
    let angleInDegrees :=
      acos (Rmax (-1) (Rmin 1 cosAngle)) * (180 / PI) in
    Rleb (Rabs (180 - angleInDegrees)) angleTolerance.

(** One iteration of the [for] loop of [removeColinearPoints]: [cleaned] is
    the array built so far, [i] the loop index. *)
Definition simplifyStep (points : list Point) (angleTolerance : R)
    (cleaned : list Point) (i : nat) : list Point :=
  let prev := last cleaned origin in
  let current := nth i points origin in
  let next := nth (i + 1) points origin in
  if negb (areColinear prev current next angleTolerance)
  then cleaned ++ [current]
  else cleaned.

(** The array [cleaned] when the loop index has run over [1 .. k]. *)
Definition cleanedAfter (points : list Point) (angleTolerance : R)
    (k : nat) : list Point :=
  fold_left (simplifyStep points angleTolerance) (seq 1 k)
            [nth 0 points origin].

Definition removeColinearPoints (points : list Point) (angleTolerance : R)
    : list Point :=
  if (length points <=? 2)%nat then points
  else
    cleanedAfter points angleTolerance (length points - 2)
      ++ [nth (length points - 1) points origin].

(** The default value of the parameter [angleTolerance]. *)
Definition defaultAngleTolerance : R := 10.

(** ** GraphBuilder: the first loop of [createWallGraph] *)

Definition mergeDistance : R := 40.

Definition distance (p1 p2 : Point) : R :=
  sqrt ((x p1 - x p2) ^ 2 + (y p1 - y p2) ^ 2).

(** [Array.prototype.findIndex]; [None] stands for the result [-1]. *)
Fixpoint findIndex {A : Type} (f : A -> bool) (l : list A) : option nat :=
  match l with
  | [] => None
  | a :: l' => if f a then Some 0%nat else option_map S (findIndex f l')
  end.

(** Find or add the node of a point: the index, and the node array after. *)
Definition resolveNode (ns : list Point) (p : Point) : nat * list Point :=
  match findIndex (fun n => Rltb (distance n p) mergeDistance) ns with
  | Some idx => (idx, ns)
  | None => (length ns, ns ++ [p])
  end.

(** The body of the loop over consecutive pairs of [cleanedPoints]. *)
Definition addSegment (cleanedPoints : list Point) (graph : WallGraph)
    (i : nat) : WallGraph :=
  let p1 := nth i cleanedPoints origin in
  let p2 := nth (i + 1) cleanedPoints origin in
  let '(idx1, ns1) := resolveNode (nodes graph) p1 in
  let '(idx2, ns2) := resolveNode ns1 p2 in
  {| nodes := ns2;
     edges := if (idx1 =? idx2)%nat then edges graph
              else edges graph ++ [(idx1, idx2)] |}.

(** The body of [wallPaths.forEach]. *)
Definition addPath (graph : WallGraph) (path : Path) : WallGraph :=
  match segments path with
  | None => graph
  | Some points =>
      let cleanedPoints := removeColinearPoints points defaultAngleTolerance in
      fold_left (addSegment cleanedPoints)
                (seq 0 (length cleanedPoints - 1)) graph
  end.

Definition buildGraph (wallPaths : list Path) : WallGraph :=
  fold_left addPath wallPaths {| nodes := []; edges := [] |}.

(** ** AxisRectifier: the second loop of [createWallGraph] *)

Definition snapTolerance : R := 10.

Definition normalizeAngle (angleDeg : R) : R :=
  jsRem (jsRem angleDeg 360 + 360) 360.

Definition isNearHorizontal (normalizedAngle : R) : bool :=
  Rleb normalizedAngle snapTolerance
  || Rleb (360 - snapTolerance) normalizedAngle
  || Rleb (Rabs (normalizedAngle - 180)) snapTolerance.

Definition isNearVertical (normalizedAngle : R) : bool :=
  Rleb (Rabs (normalizedAngle - 90)) snapTolerance
  || Rleb (Rabs (normalizedAngle - 270)) snapTolerance.

Definition edgeAngle (n1 n2 : Point) : R :=
  let dx := x n2 - x n1 in
  let dy := y n2 - y n1 in
  let angleRad := atan2 dy dx in
  let angleDeg := angleRad * (180 / PI) in
  normalizeAngle angleDeg.

(** In-place update of the object stored at index [i] of an array. *)
Fixpoint modify {A : Type} (i : nat) (f : A -> A) (l : list A) : list A :=
  match l, i with
  | [], _ => []
  | a :: l', O => f a :: l'
  | a :: l', S i' => a :: modify i' f l'
  end.

Definition setX (v : R) (n : Point) : Point := {| x := v; y := y n |}.
Definition setY (v : R) (n : Point) : Point := {| x := x n; y := v |}.

(** The body of the rectification loop on the node store; [None] is the
    exception raised when an index has no node. *)
Definition rectifyEdge (ns : list Point) (e : nat * nat)
    : option (list Point) :=
  let '(idx1, idx2) := e in
  match nth_error ns idx1, nth_error ns idx2 with
  | Some n1, Some n2 =>
      let normalizedAngle := edgeAngle n1 n2 in
      if isNearHorizontal normalizedAngle then
        let avgY := (y n1 + y n2) / 2 in
        Some (modify idx2 (setY avgY) (modify idx1 (setY avgY) ns))
      else if isNearVertical normalizedAngle then
        let avgX := (x n1 + x n2) / 2 in
        Some (modify idx2 (setX avgX) (modify idx1 (setX avgX) ns))
      else Some ns
  | _, _ => None
  end.

Fixpoint rectify (ns : list Point) (es : list (nat * nat))
    : option (list Point) :=
  match es with
  | [] => Some ns
  | e :: es' =>
      match rectifyEdge ns e with
      | Some ns' => rectify ns' es'
      | None => None
      end
  end.

(** ** Edge deduplication: the [Map] keyed by ["min-max"] *)

Definition string_of_nat (n : nat) : string :=
  NilEmpty.string_of_uint (Nat.to_uint n).

Definition edgeKey (idx1 idx2 : nat) : string :=
  (string_of_nat (Nat.min idx1 idx2) ++ "-"
     ++ string_of_nat (Nat.max idx1 idx2))%string.

(** [Map.prototype.set] on a map kept in insertion order: an existing key
    keeps its place and takes the new value, a new key goes last. *)
Fixpoint mapSet {V : Type} (k : string) (v : V) (m : list (string * V))
    : list (string * V) :=
  match m with
  | [] => [(k, v)]
  | (k', v') :: m' =>
      if String.eqb k k' then (k', v) :: m' else (k', v') :: mapSet k v m'
  end.

Definition uniqueEdges (es : list (nat * nat)) : list (string * (nat * nat)) :=
  fold_left (fun m e => mapSet (edgeKey (fst e) (snd e)) e m) es [].

Definition mapValues {V : Type} (m : list (string * V)) : list V :=
  map snd m.

Definition createWallGraph (wallPaths : list Path) : option WallGraph :=
  let graph := buildGraph wallPaths in
  match rectify (nodes graph) (edges graph) with
  | Some ns =>
      Some {| nodes := ns; edges := mapValues (uniqueEdges (edges graph)) |}
  | None => None
  end.

(** ** Numbers that may leave the finite range *)

Inductive JsNum : Type :=
| Fin (r : R)
| PosInf
| NegInf
| NaN.

Definition jsLtb (a b : JsNum) : bool :=
  match a, b with
  | NaN, _ | _, NaN => false
  | Fin r, Fin s => Rltb r s
  | NegInf, (Fin _ | PosInf) => true
  | Fin _, PosInf => true
  | _, _ => false
  end.

Definition jsMin (a b : JsNum) : JsNum :=
  match a, b with
  | NaN, _ | _, NaN => NaN
  | NegInf, _ | _, NegInf => NegInf
  | PosInf, c | c, PosInf => c
  | Fin r, Fin s => Fin (Rmin r s)
  end.

Definition jsMax (a b : JsNum) : JsNum :=
  match a, b with
  | NaN, _ | _, NaN => NaN
  | PosInf, _ | _, PosInf => PosInf
  | NegInf, c | c, NegInf => c
  | Fin r, Fin s => Fin (Rmax r s)
  end.

Definition jsAdd (a b : JsNum) : JsNum :=
  match a, b with
  | NaN, _ | _, NaN => NaN
  | Fin r, Fin s => Fin (r + s)
  | PosInf, NegInf | NegInf, PosInf => NaN
  | PosInf, _ | _, PosInf => PosInf
  | NegInf, _ | _, NegInf => NegInf
  end.

Definition jsSub (a b : JsNum) : JsNum :=
  match a, b with
  | NaN, _ | _, NaN => NaN
  | Fin r, Fin s => Fin (r - s)
  | PosInf, PosInf | NegInf, NegInf => NaN
  | PosInf, _ | _, NegInf => PosInf
  | NegInf, _ | _, PosInf => NegInf
  end.

(** The sign of a finite number decides the infinity it scales to. *)
Definition signedInf (positive : bool) : JsNum :=
  if positive then PosInf else NegInf.

Definition jsMul (a b : JsNum) : JsNum :=
  match a, b with
  | NaN, _ | _, NaN => NaN
  | Fin r, Fin s => Fin (r * s)
  | Fin r, PosInf | PosInf, Fin r =>
      if Reqb r 0 then NaN else signedInf (Rltb 0 r)
  | Fin r, NegInf | NegInf, Fin r =>
      if Reqb r 0 then NaN else signedInf (Rltb r 0)
  | PosInf, PosInf | NegInf, NegInf => PosInf
  | PosInf, NegInf | NegInf, PosInf => NegInf
  end.

(** Division; a zero divisor is the positive zero (the code only divides by
    differences and maxima of coordinates, which are never [-0]). *)
Definition jsDiv (a b : JsNum) : JsNum :=
  match a, b with
  | NaN, _ | _, NaN => NaN
  | Fin r, Fin s =>
      if Reqb s 0 then (if Reqb r 0 then NaN else signedInf (Rltb 0 r))
      else Fin (r / s)
  | Fin _, (PosInf | NegInf) => Fin 0
  | PosInf, Fin s => signedInf (Rleb 0 s)
  | NegInf, Fin s => signedInf (Rltb s 0)
  | (PosInf | NegInf), (PosInf | NegInf) => NaN
  end.

(** ** DoorProjector: [findDoors] *)

(** The [original] field of a door: [{start, end}], always in pixels. *)
Module Original.
Record t : Type := mk { start : Point; end_ : Point }.
End Original.

(** A door [{start, end, original}] over the number type of its snapped
    endpoints. *)
Record Door (N : Type) : Type := mkDoor {
  start : Pt N;
  end_ : Pt N;
  original : Original.t
}.
Arguments mkDoor {N} _ _ _.
Arguments start {N} _.
Arguments end_ {N} _.
Arguments original {N} _.

(** What [distanceToSegment] returns: on a zero-length segment the bare
    number, otherwise the object [{distance, projected}]. *)
Inductive SegmentResult : Type :=
| BareNumber (d : R)
| Projection (distance : R) (projected : Point).

Definition distanceToSegment (point lineStart lineEnd : Point)
    : SegmentResult :=
  let dx := x lineEnd - x lineStart in
  let dy := y lineEnd - y lineStart in
  let lengthSquared := dx * dx + dy * dy in
  if Reqb lengthSquared 0 then
    let distX := x point - x lineStart in
    let distY := y point - y lineStart in
    BareNumber (sqrt (distX * distX + distY * distY))
  else
    let t := ((x point - x lineStart) * dx + (y point - y lineStart) * dy)
             / lengthSquared in
    let t := Rmax 0 (Rmin 1 t) in
    let projectedX := x lineStart + t * dx in
    let projectedY := y lineStart + t * dy in
    let distX := x point - projectedX in
    let distY := y point - projectedY in
    Projection (sqrt (distX * distX + distY * distY))
               {| x := projectedX; y := projectedY |}.

(** The property reads [result.distance] and [result.projected]: a number
    has neither, so both are [undefined] ([None]) on it. *)
Definition resultDistance (result : SegmentResult) : option R :=
  match result with
  | BareNumber _ => None
  | Projection d _ => Some d
  end.

Definition resultProjected (result : SegmentResult) : option Point :=
  match result with
  | BareNumber _ => None
  | Projection _ p => Some p
  end.

(** The body of the loop of [snapToNearestEdge] on the pair
    [(minDistance, snappedPoint)]; the comparison of [undefined] with a
    number is false. *)
Definition snapStep (graph : WallGraph) (point : Point)
    (acc : JsNum * Point) (e : nat * nat) : option (JsNum * Point) :=
  let '(idx1, idx2) := e in
  match nth_error (nodes graph) idx1, nth_error (nodes graph) idx2 with
  | Some n1, Some n2 =>
      let result := distanceToSegment point n1 n2 in
      match resultDistance result, resultProjected result with
      | Some d, Some projected =>
          if jsLtb (Fin d) (fst acc) then Some (Fin d, projected)
          else Some acc
      | _, _ => Some acc
      end
  | _, _ => None
  end.

Fixpoint snapLoop (graph : WallGraph) (point : Point)
    (acc : JsNum * Point) (es : list (nat * nat))
    : option (JsNum * Point) :=
  match es with
  | [] => Some acc
  | e :: es' =>
      match snapStep graph point acc e with
      | Some acc' => snapLoop graph point acc' es'
      | None => None
      end
  end.

Definition snapToNearestEdge (graph : WallGraph) (point : Point)
    : option Point :=
  option_map snd (snapLoop graph point (PosInf, point) (edges graph)).

(** The body of [doorPaths.forEach] on the array [doors]. *)
Definition addDoor (graph : WallGraph) (doors : list (Door R)) (path : Path)
    : option (list (Door R)) :=
  match segments path with
  | None => Some doors
  | Some segs =>
      if (length segs <? 2)%nat then Some doors
      else
        let startPoint := nth 0 segs origin in
        let endPoint := nth (length segs - 1) segs origin in
        match snapToNearestEdge graph startPoint,
              snapToNearestEdge graph endPoint with
        | Some snappedStart, Some snappedEnd =>
            Some (doors ++
                  [{| start := snappedStart;
                      end_ := snappedEnd;
                      original := {| Original.start := startPoint;
                                     Original.end_ := endPoint |} |}])
        | _, _ => None
        end
  end.

Fixpoint findDoorsFrom (graph : WallGraph) (doors : list (Door R))
    (doorPaths : list Path) : option (list (Door R)) :=
  match doorPaths with
  | [] => Some doors
  | path :: rest =>
      match addDoor graph doors path with
      | Some doors' => findDoorsFrom graph doors' rest
      | None => None
      end
  end.

Definition findDoors (doorPaths : list Path) (graph : WallGraph)
    : option (list (Door R)) :=
  findDoorsFrom graph [] doorPaths.

(** ** ScaleNormalizer: [findBoundingBox] and [scaleToRealWorld] *)

(** The object [findBoundingBox] returns; the default object for an empty
    path list has no [centerX] and [centerY] properties ([None]). *)
Record BoundingBox : Type := mkBox {
  minX : JsNum;
  minY : JsNum;
  maxX : JsNum;
  maxY : JsNum;
  width : JsNum;
  height : JsNum;
  centerX : option JsNum;
  centerY : option JsNum
}.

(** The four running extrema [(minX, minY, maxX, maxY)]. *)
Definition Extent : Type := (JsNum * JsNum * JsNum * JsNum)%type.

Definition extendBySegment (acc : Extent) (segment : Point) : Extent :=
  let '(mnX, mnY, mxX, mxY) := acc in
  (jsMin mnX (Fin (x segment)), jsMin mnY (Fin (y segment)),
   jsMax mxX (Fin (x segment)), jsMax mxY (Fin (y segment))).

Definition extendByPath (acc : Extent) (path : Path) : Extent :=
  match segments path with
  | None => acc
  | Some segs => fold_left extendBySegment segs acc
  end.

Definition findBoundingBox (paths : list Path) : BoundingBox :=
  match paths with
  | [] =>
      {| minX := Fin 0; minY := Fin 0; maxX := Fin 0; maxY := Fin 0;
         width := Fin 0; height := Fin 0;
         centerX := None; centerY := None |}
  | _ =>
      let '(mnX, mnY, mxX, mxY) :=
        fold_left extendByPath paths (PosInf, PosInf, NegInf, NegInf) in
      {| minX := mnX; minY := mnY; maxX := mxX; maxY := mxY;
         width := jsSub mxX mnX;
         height := jsSub mxY mnY;
         centerX := Some (jsDiv (jsAdd mnX mxX) (Fin 2));
         centerY := Some (jsDiv (jsAdd mnY mxY) (Fin 2)) |}
  end.

(** The object [scaleToRealWorld] returns. *)
Module Scaled.
Record t : Type := mk {
  wallGraph : Graph JsNum;
  doors : list (Door JsNum);
  scaleFactor : JsNum
}.
End Scaled.

Definition scalePoint (scaleFactor : JsNum) (p : Point) : Pt JsNum :=
  {| x := jsMul (Fin (x p)) scaleFactor;
     y := jsMul (Fin (y p)) scaleFactor |}.

Definition scaleToRealWorld (wallGraph : WallGraph) (doors : list (Door R))
    (dimensionValue : R) (boundingBoxLength : JsNum) : Scaled.t :=
  let scaleFactor := jsDiv (Fin 12) boundingBoxLength in
  let scaledWallGraph :=
    {| nodes := map (scalePoint scaleFactor) (nodes wallGraph);
       edges := edges wallGraph |} in
  let scaledDoors :=
    map (fun door =>
           {| start := scalePoint scaleFactor (start door);
              end_ := scalePoint scaleFactor (end_ door);
              original := original door |}) doors in
  {| Scaled.wallGraph := scaledWallGraph;
     Scaled.doors := scaledDoors;
     Scaled.scaleFactor := scaleFactor |}.

(** ** The data path of [send] *)

(** The object the external recognizer answers with; [dimension_value] is
    optional in its schema. *)
Record DimensionData : Type := mkDimension {
  dimension_text : string;
  dimension_value : option R
}.

(** [pathsData]: the points of every path that has segments. *)
Fixpoint pathsData (dimPaths : list Path) : list (list Point) :=
  match dimPaths with
  | [] => []
  | path :: rest =>
      match segments path with
      | None | Some [] => pathsData rest
      | Some segs => segs :: pathsData rest
      end
  end.

(** What the promise of [extractDimensionNumber] settles to.  It rejects
    when [new Anthropic(...)] or [client.beta.messages.create(...)] raises:
    both stand outside any [try].  Otherwise it resolves: to [null] ([None])
    when the answer has no content or its text is no JSON, and to the parsed
    object otherwise. *)
Inductive Recognition : Type :=
| Rejected
| Resolved (parsedData : option DimensionData).

(** [extractDimensionNumber]: the SDK, the reading of the answer and
    [JSON.parse] are the parameter [recognize], which is given the key and
    the points that go into the prompt. *)
Definition extractDimensionNumber
    (recognize : string -> list (list Point) -> Recognition)
    (dimPaths : list Path) (apiKey : string) : Recognition :=
  match dimPaths with
  | [] => Resolved None
  | _ => recognize apiKey (pathsData dimPaths)
  end.

(** The test [dimensionData && dimensionData.dimension_value]: the value
    when the test passes (a missing value and the number 0 are falsy). *)
Definition testedDimensionValue (dimensionData : option DimensionData)
    : option R :=
  match dimensionData with
  | None => None
  | Some d =>
      match dimension_value d with
      | None => None
      | Some v => if Reqb v 0 then None else Some v
      end
  end.

Definition finPoint (p : Point) : Pt JsNum :=
  {| x := Fin (x p); y := Fin (y p) |}.

(** A graph and doors that were not scaled, seen at the number type of the
    output. *)
Definition unscaledGraph (g : WallGraph) : Graph JsNum :=
  {| nodes := map finPoint (nodes g); edges := edges g |}.

Definition unscaledDoor (d : Door R) : Door JsNum :=
  {| start := finPoint (start d);
     end_ := finPoint (end_ d);
     original := original d |}.

Record Wall : Type := mkWall {
  wall_id : string;
  start_point : Pt JsNum;
  end_point : Pt JsNum
}.

(** [wallGraph.edges.map((edge, idx) => ...)], from index [idx] on. *)
Fixpoint wallsFrom (ns : list (Pt JsNum)) (idx : nat)
    (es : list (nat * nat)) : option (list Wall) :=
  match es with
  | [] => Some []
  | (idx1, idx2) :: es' =>
      match nth_error ns idx1, nth_error ns idx2, wallsFrom ns (S idx) es' with
      | Some n1, Some n2, Some ws =>
          Some ({| wall_id := ("wall_" ++ string_of_nat idx)%string;
                   start_point := {| x := x n1; y := y n1 |};
                   end_point := {| x := x n2; y := y n2 |} |} :: ws)
      | _, _, _ => None
      end
  end.

(** [finalJSON], the body of the request to the server. *)
Record FinalJSON : Type := mkFinal {
  walls : list Wall;
  doors : list (Door JsNum)
}.

(** The reference length [send] computes from the dimension paths. *)
Definition referenceLength (dimsPath : list Path) : JsNum :=
  let dimsBoundingBox := findBoundingBox dimsPath in
  jsMax (height dimsBoundingBox) (width dimsBoundingBox).

(** The graph and doors [send] goes on with after the scaling step. *)
Definition scaleStep (dimensionData : option DimensionData)
    (length : JsNum) (g : WallGraph) (doorsData : list (Door R))
    : Graph JsNum * list (Door JsNum) :=
  match testedDimensionValue dimensionData with
  | Some v =>
      let scaled := scaleToRealWorld g doorsData v length in
      (Scaled.wallGraph scaled, Scaled.doors scaled)
  | None => (unscaledGraph g, map unscaledDoor doorsData)
  end.

(** How a run of [send] ends. *)
Inductive Submission : Type :=
| NoApiKey                        (* the early return: nothing is computed *)
| Caught                          (* an exception reached the [catch] *)
| Built (finalJSON : FinalJSON).  (* [finalJSON] is built and posted *)

(** [send] from the key and the three filtered path lists to [finalJSON].
    [apiKey] is [None] for an undefined environment variable; the empty
    string is falsy as well.  A rejected dimension request, like any other
    exception, ends in the [catch] of [send], and no [finalJSON] is built. *)
Definition send (recognize : string -> list (list Point) -> Recognition)
    (apiKey : option string) (wallPaths doorPaths dimsPath : list Path)
    : Submission :=
  match apiKey with
  | None => NoApiKey
  | Some key =>
      if String.eqb key "" then NoApiKey
      else
        let length := referenceLength dimsPath in
        match extractDimensionNumber recognize dimsPath key with
        | Rejected => Caught
        | Resolved dimensionData =>
            match createWallGraph wallPaths with
            | None => Caught
            | Some g =>
                match findDoors doorPaths g with
                | None => Caught
                | Some doorsData =>
                    let '(g', doorsData') :=
                      scaleStep dimensionData length g doorsData in
                    match wallsFrom (nodes g') 0 (edges g') with
                    | Some ws => Built {| walls := ws; doors := doorsData' |}
                    | None => Caught
                    end
                end
            end
        end
  end.

(** ** Vocabulary of the statements *)

(** The dot product of the two vectors [areColinear] forms at [p2], and the
    squared length of the vector from [q] to [p]. *)
Definition dotAt (p1 p2 p3 : Point) : R :=
  (x p1 - x p2) * (x p3 - x p2) + (y p1 - y p2) * (y p3 - y p2).

Definition normSq (p q : Point) : R :=
  (x p - x q) * (x p - x q) + (y p - y q) * (y p - y q).

(** No interior point of [l] is colinear, within the tolerance, with its two
    neighbours in [l]. *)
Definition noColinearInterior (l : list Point) (tol : R) : Prop :=
  forall i : nat,
    (1 <= i <= length l - 2)%nat ->
    areColinear (nth (i - 1) l origin) (nth i l origin)
                (nth (i + 1) l origin) tol = false.

(** A stroke that turns by about 14 degrees and then bends back by about 7:
    the simplifier keeps its second point on the first pass only. *)
Definition bentStroke : list Point :=
  [ {| x := -1; y := 0 |}; {| x := 0; y := 0 |};
    {| x := 4; y := 1 |}; {| x := 84; y := 11 |} ].

(** Every edge names two nodes that exist. *)
Definition validEdges {N : Type} (g : Graph N) : Prop :=
  Forall (fun e => (fst e < length (nodes g))%nat
                   /\ (snd e < length (nodes g))%nat) (edges g).

(** The first and last raw point of every door stroke that has at least two
    points, in stroke order. *)
Fixpoint rawEndpoints (doorPaths : list Path) : list Original.t :=
  match doorPaths with
  | [] => []
  | path :: rest =>
      match segments path with
      | Some (p :: q :: segs) =>
          {| Original.start := p; Original.end_ := last (q :: segs) origin |}
            :: rawEndpoints rest
      | _ => rawEndpoints rest
      end
  end.

(** A door whose snapped endpoints are its original ones. *)
Definition unsnapped (d : Door R) : Prop :=
  start d = Original.start (original d)
  /\ end_ d = Original.end_ (original d).








Definition doorStroke : Path :=
  {| segments := Some [ {| x := 50; y := 50 |}; {| x := 60; y := 50 |} ] |}.

(** Two edges that join the same unordered pair of node indices. *)
Definition sameUnorderedPair (e1 e2 : nat * nat) : Prop :=
  (fst e1 = fst e2 /\ snd e1 = snd e2)
  \/ (fst e1 = snd e2 /\ snd e1 = fst e2).

Definition noSelfLoop (e : nat * nat) : Prop := fst e <> snd e.

(** The entries of the [Map] are filed under the key of their edge. *)
Definition keyedByEdge (entry : string * (nat * nat)) : Prop :=
  fst entry = edgeKey (fst (snd entry)) (snd (snd entry)).

(** The invariant of the first loop: edges name existing nodes and join two
    different indices. *)
Definition builderInvariant (g : WallGraph) : Prop :=
  validEdges g /\ Forall noSelfLoop (edges g).

(** *** The node index each raw point is given

    The first loop of [createWallGraph] resolves the two points of every
    segment to node indices.  The functions below list these points with the
    index each one is given, in processing order; they follow the loop step
    by step and change nothing in it. *)

Definition segmentAssignments (cleanedPoints : list Point)
    (graph : WallGraph) (i : nat) : list (Point * nat) :=
  let p1 := nth i cleanedPoints origin in
  let p2 := nth (i + 1) cleanedPoints origin in
  let '(idx1, ns1) := resolveNode (nodes graph) p1 in
  let '(idx2, _) := resolveNode ns1 p2 in
  [(p1, idx1); (p2, idx2)].

Fixpoint assignmentsOver (cleanedPoints : list Point) (graph : WallGraph)
    (indices : list nat) : list (Point * nat) :=
  match indices with
  | [] => []
  | i :: rest =>
      segmentAssignments cleanedPoints graph i
        ++ assignmentsOver cleanedPoints
             (addSegment cleanedPoints graph i) rest
  end.

Definition pathAssignments (graph : WallGraph) (path : Path)
    : list (Point * nat) :=
  match segments path with
  | None => []
  | Some points =>
      let cleanedPoints := removeColinearPoints points defaultAngleTolerance in
      assignmentsOver cleanedPoints graph (seq 0 (length cleanedPoints - 1))
  end.

Fixpoint assignmentsFrom (graph : WallGraph) (wallPaths : list Path)
    : list (Point * nat) :=
  match wallPaths with
  | [] => []
  | path :: rest =>
      pathAssignments graph path ++ assignmentsFrom (addPath graph path) rest
  end.

Definition assignments (wallPaths : list Path) : list (Point * nat) :=
  assignmentsFrom {| nodes := []; edges := [] |} wallPaths.

(** [idx] is the first node of [ns], in insertion order, that lies strictly
    within the merge distance of [p]. *)
Definition firstNodeWithin (ns : list Point) (p : Point) (idx : nat) : Prop :=
  (idx < length ns)%nat
  /\ distance (nth idx ns origin) p < mergeDistance
  /\ forall j : nat, (j < idx)%nat ->
       mergeDistance <= distance (nth j ns origin) p.

(** Two strokes: the second starts 20 pixels from the end of the first and
    30 pixels from its start. *)
Definition forkStrokes : list Path :=
  [ {| segments := Some [ {| x := 0; y := 0 |}; {| x := 50; y := 0 |} ] |};
    {| segments :=
         Some [ {| x := 30; y := 0 |}; {| x := 100; y := 100 |} ] |} ].

(** *** What the rectification loop does with an edge *)

Inductive Snap : Type :=
| SnapY    (* near-horizontal: both endpoints take the average y *)
| SnapX    (* near-vertical: both endpoints take the average x *)
| NoSnap.  (* neither: the nodes are left alone *)

(** The branch the loop body takes for edge [e] on the node store [ns]. *)
Definition snapOf (ns : list Point) (e : nat * nat) : Snap :=
  match nth_error ns (fst e), nth_error ns (snd e) with
  | Some n1, Some n2 =>
      if isNearHorizontal (edgeAngle n1 n2) then SnapY
      else if isNearVertical (edgeAngle n1 n2) then SnapX
      else NoSnap
  | _, _ => NoSnap
  end.

Definition sharesNode (e e' : nat * nat) : Prop :=
  fst e' = fst e \/ fst e' = snd e \/ snd e' = fst e \/ snd e' = snd e.

(** Processing the edges [es] in order from the node store [ns], no edge
    that shares a node with [e] takes the branch [s]. *)
Fixpoint undisturbed (s : Snap) (e : nat * nat) (ns : list Point)
    (es : list (nat * nat)) : Prop :=
  match es with
  | [] => True
  | e' :: es' =>
      (sharesNode e e' -> snapOf ns e' <> s)
      /\ match rectifyEdge ns e' with
         | Some ns' => undisturbed s e ns' es'
         | None => True
         end
  end.

(** Two wall strokes drawn end to end, the second one rising by 2 pixels
    over 100. *)
Definition skewStrokes : list Path :=
  [ {| segments := Some [ {| x := 0; y := 0 |}; {| x := 100; y := 0 |} ] |};
    {| segments := Some [ {| x := 100; y := 0 |}; {| x := 200; y := 2 |} ] |} ].

(** A corner: a wall that rises by 2 pixels over 100, then a vertical one. *)
Definition cornerNodes : list Point :=
  [ {| x := 0; y := 0 |}; {| x := 100; y := 2 |}; {| x := 100; y := 100 |} ].

(** The coordinate a branch of the loop averages. *)
Definition coordOf (s : Snap) (n : Point) : R :=
  match s with
  | SnapY => y n
  | SnapX => x n
  | NoSnap => 0
  end.

(** Both endpoints of [e] exist in [ns] and agree on the coordinate of [s]. *)
Definition alignedAt (s : Snap) (ns : list Point) (e : nat * nat) : Prop :=
  exists m1 m2 : Point,
    nth_error ns (fst e) = Some m1 /\ nth_error ns (snd e) = Some m2
    /\ coordOf s m1 = coordOf s m2.

(** The candidate edges the listed points stand for: the loop resolves the
    points two by two, and each pair is one candidate edge. *)
Fixpoint candidateEdges (resolved : list (Point * nat)) : list (nat * nat) :=
  match resolved with
  | a :: b :: rest => (snd a, snd b) :: candidateEdges rest
  | _ => []
  end.

Definition isLoop (e : nat * nat) : bool := (fst e =? snd e)%nat.

(** *** Segments and nearest points *)

(** The point of the segment from [a] to [b] at parameter [s]. *)
Definition pointAt (a b : Point) (s : R) : Point :=
  {| x := x a + s * (x b - x a); y := y a + s * (y b - y a) |}.

(** Two points at the same coordinates. *)
Definition coincide (a b : Point) : Prop := x a = x b /\ y a = y b.

(** The two nodes the edge [e] names in [g]. *)
Definition edgeEnds (g : WallGraph) (e : nat * nat) (n1 n2 : Point) : Prop :=
  nth_error (nodes g) (fst e) = Some n1
  /\ nth_error (nodes g) (snd e) = Some n2.

(** [q] is a point of the edge [e], which has two different ends. *)
Definition onEdge (g : WallGraph) (e : nat * nat) (q : Point) : Prop :=
  exists (n1 n2 : Point) (s : R),
    edgeEnds g e n1 n2 /\ ~ coincide n1 n2 /\ 0 <= s <= 1
    /\ q = pointAt n1 n2 s.

(** [q] is a point of one of the edges [es], and no point of these edges is
    nearer to [point]. *)
Definition nearestOn (g : WallGraph) (es : list (nat * nat))
    (point q : Point) : Prop :=
  (exists e, In e es /\ onEdge g e q)
  /\ forall (e : nat * nat) (q' : Point),
       In e es -> onEdge g e q' -> distance point q <= distance point q'.

(** Every edge of [es] joins two nodes at the same coordinates. *)
Definition allZeroLength (g : WallGraph) (es : list (nat * nat)) : Prop :=
  forall (e : nat * nat) (n1 n2 : Point),
    In e es -> edgeEnds g e n1 n2 -> coincide n1 n2.

(** The state of the loop of [snapToNearestEdge] after the edges [done]:
    either nothing was selected yet and all of them have zero length, or
    the selected point is the nearest one on them. *)
Definition snapInvariant (g : WallGraph) (point : Point)
    (done : list (nat * nat)) (acc : JsNum * Point) : Prop :=
  (fst acc = PosInf /\ snd acc = point /\ allZeroLength g done)
  \/ (fst acc = Fin (distance point (snd acc))
      /\ nearestOn g done point (snd acc)).

(** *** Directions *)

(** The direction, in degrees from 0 up to 360, of the vector (dx, dy). *)
Definition directionOf (dy dx : R) : R :=
  normalizeAngle (atan2 dy dx * (180 / PI)).

(** The edge [e] names two nodes of [ns] that share their x or their y. *)
Definition axisAligned (ns : list Point) (e : nat * nat) : Prop :=
  exists n1 n2 : Point,
    nth_error ns (fst e) = Some n1 /\ nth_error ns (snd e) = Some n2
    /\ (x n1 = x n2 \/ y n1 = y n2).

(** A rectangular room, 100 by 50. *)
Definition roomNodes : list Point :=
  [ {| x := 0; y := 0 |}; {| x := 100; y := 0 |};
    {| x := 100; y := 50 |}; {| x := 0; y := 50 |} ].

(** ** Vocabulary of the simplifier's ordering *)

(** [l] is [l'] with some elements left out. *)
Inductive Subsequence {A : Type} : list A -> list A -> Prop :=
| sub_nil : Subsequence [] []
| sub_skip (a : A) (l l' : list A) :
    Subsequence l l' -> Subsequence l (a :: l')
| sub_take (a : A) (l l' : list A) :
    Subsequence l l' -> Subsequence (a :: l) (a :: l').

(** No two neighbours among the first [n] elements of [l] coincide. *)
Definition distinctNeighbours (l : list Point) (n : nat) : Prop :=
  forall i : nat, (S i < n)%nat ->
    ~ coincide (nth i l origin) (nth (S i) l origin).

(** ** The graph-building loop with the merge distance as a parameter

    The first component (sketch pad, [send]) and the wall-graph engine
    ([createWallGraph]) run the same loop over the strokes; they differ in the
    constant [mergeDistance] (25 and 40).  The loop is written once more
    below with the constant as the parameter [md]. *)

Section MergeWithin.

Variable md : R.

Definition resolveNodeWithin (ns : list Point) (p : Point)
    : nat * list Point :=
  match findIndex (fun n => Rltb (distance n p) md) ns with
  | Some idx => (idx, ns)
  | None => (length ns, ns ++ [p])
  end.

Definition addSegmentWithin (cleanedPoints : list Point) (graph : WallGraph)
    (i : nat) : WallGraph :=
  let p1 := nth i cleanedPoints origin in
  let p2 := nth (i + 1) cleanedPoints origin in
  let '(idx1, ns1) := resolveNodeWithin (nodes graph) p1 in
  let '(idx2, ns2) := resolveNodeWithin ns1 p2 in
  {| nodes := ns2;
     edges := if (idx1 =? idx2)%nat then edges graph
              else edges graph ++ [(idx1, idx2)] |}.

Definition addPathWithin (graph : WallGraph) (path : Path) : WallGraph :=
  match segments path with
  | None => graph
  | Some points =>
      let cleanedPoints := removeColinearPoints points defaultAngleTolerance in
      fold_left (addSegmentWithin cleanedPoints)
                (seq 0 (length cleanedPoints - 1)) graph
  end.

Definition buildGraphWithin (paths : list Path) : WallGraph :=
  fold_left addPathWithin paths {| nodes := []; edges := [] |}.

End MergeWithin.

(** The sketch pad of the first component: [send] builds the graph of all
    strokes of the active layer and logs it. *)
Module SketchPad.

Definition mergeDistance : R := 25.

Definition sendGraph (paths : list Path) : WallGraph :=
  buildGraphWithin mergeDistance paths.

End SketchPad.

(** Nodes are pairwise at least [md] apart. *)
Definition separated (md : R) (ns : list Point) : Prop :=
  forall i j : nat, (i < j < length ns)%nat ->
    md <= distance (nth i ns origin) (nth j ns origin).

(** Some node lies strictly within [md] of [p]. *)
Definition covers (md : R) (ns : list Point) (p : Point) : Prop :=
  exists idx : nat,
    (idx < length ns)%nat /\ distance (nth idx ns origin) p < md.

(** [n] is a raw point of one of the strokes. *)
Definition strokePoint (paths : list Path) (n : Point) : Prop :=
  exists (path : Path) (points : list Point),
    In path paths /\ segments path = Some points /\ In n points.

(** What one pass of the loop body keeps: valid edges without self-loops,
    separated nodes, and nodes taken from the points [T]. *)
Definition netInvariant (md : R) (T : Point -> Prop) (g : WallGraph) : Prop :=
  builderInvariant g
  /\ separated md (nodes g)
  /\ Forall T (nodes g).

(** ** Vocabulary of the bounding box *)

(** All segment points of the paths, in the order [findBoundingBox] visits
    them. *)
Definition pointsOf (paths : list Path) : list Point :=
  flat_map (fun path => match segments path with
                        | Some segs => segs
                        | None => []
                        end) paths.

(** The box [x0 .. x1] by [y0 .. y1] holds every point of [ps], and each of
    its four sides touches one. *)
Definition tightBox (ps : list Point) (x0 y0 x1 y1 : R) : Prop :=
  (forall p, In p ps -> x0 <= x p <= x1 /\ y0 <= y p <= y1)
  /\ (exists p, In p ps /\ x p = x0)
  /\ (exists p, In p ps /\ y p = y0)
  /\ (exists p, In p ps /\ x p = x1)
  /\ (exists p, In p ps /\ y p = y1).

(** The running extrema after the points [seen]. *)
Definition extentOf (seen : list Point) (acc : Extent) : Prop :=
  match seen with
  | [] => acc = (PosInf, PosInf, NegInf, NegInf)
  | _ => exists x0 y0 x1 y1 : R,
           acc = (Fin x0, Fin y0, Fin x1, Fin y1) /\ tightBox seen x0 y0 x1 y1
  end.

(** Two strokes that hold no point. *)
Definition emptyStrokes : list Path :=
  [ {| segments := Some [] |}; {| segments := None |} ].

(** ** Vocabulary of the simplifier's invariance *)

(** Zoom by the factor [k] about the origin, then shift by [(tx, ty)]. *)
Definition similar (k tx ty : R) (p : Point) : Point :=
  {| x := k * x p + tx; y := k * y p + ty |}.

(** ** Vocabulary of the snap criterion *)

(** The largest slope that still counts as level: the tangent of the snap
    tolerance of ten degrees. *)
Definition snapSlope : R := tan (PI / 18).

(** What the projector does with a raw door endpoint: [q] is the nearest
    point of the walls, or the raw point itself when no edge of the graph
    has two different ends. *)
Definition snappedOnto (g : WallGraph) (raw q : Point) : Prop :=
  (allZeroLength g (edges g) /\ q = raw)
  \/ nearestOn g (edges g) raw q.

(** The four walls of the rectangular room. *)
Definition roomGraph : WallGraph :=
  {| nodes := roomNodes;
     edges := [(0, 1); (1, 2); (2, 3); (3, 0)]%nat |}.

(** Both snapped ends of a door are what the projector makes of its two raw
    ends. *)
Definition doorSnapped (g : WallGraph) (d : Door R) : Prop :=
  snappedOnto g (Original.start (original d)) (start d)
  /\ snappedOnto g (Original.end_ (original d)) (end_ d).

(** ** The sketch parser: [svgParser.js]

    The parser asks a hosted model for the walls, the doors and the room
    labels of a sketch.  What lies outside the file is a parameter of the
    model: the SDK (its constructor and [client.beta.messages.create]),
    [JSON.parse], [canvas.toBlob] and the [FileReader].  What the file itself
    does is embedded: the reading of the answers, the exceptions, the
    [try]/[catch] blocks and the order of the requests.  A computation takes
    the list of requests made so far and gives an outcome (a value or an
    exception) and the list of requests after it. *)

Module SvgParser.

(** JavaScript values, as far as JSON and the [options] argument need
    them. *)
#[local] Set Warnings "-register-all".
Inductive JsVal : Type :=
| JUndefined
| JNull
| JBool (b : bool)
| JNumber (n : JsNum)
| JString (s : string)
| JArray (items : list JsVal)
| JObject (fields : list (string * JsVal)).

(** [ToBoolean]. *)
Definition truthy (v : JsVal) : bool :=
  match v with
  | JUndefined | JNull => false
  | JBool b => b
  | JNumber (Fin r) => negb (Reqb r 0)
  | JNumber NaN => false
  | JNumber _ => true
  | JString s => negb (String.eqb s "")
  | JArray _ | JObject _ => true
  end.

#[local] Set Warnings "register-all".

(** [a || b]. *)
Definition orElse (a b : JsVal) : JsVal := if truthy a then a else b.

Fixpoint lookup (k : string) (fields : list (string * JsVal)) : JsVal :=
  match fields with
  | [] => JUndefined
  | (k', v) :: rest => if String.eqb k k' then v else lookup k rest
  end.

Inductive Exn : Type :=
| TypeError                  (* a property read on null or undefined *)
| SyntaxError                (* JSON.parse *)
| ApiError                   (* raised by the SDK *)
| InvalidJSON (cause : Exn)  (* Error(`Invalid JSON response: ${e}`) *)
| NoContent                  (* Error("No content in API response") *)
| BlobError                  (* Error('Failed to convert canvas to blob') *)
| ReadError.                 (* the error event of the FileReader *)

Inductive Outcome (A : Type) : Type :=
| Returned (a : A)
| Thrown (e : Exn).
Arguments Returned {A} _.
Arguments Thrown {A} _.

(** The three requests of the file, by what varies in them. *)
Inductive Request : Type :=
| WallsRequest (svgContent : string)
| DoorsRequest (svgContent : string)
| RoomsRequest (imageBase64 : option string).

(** A content block of an answer, and the answer. *)
Record Block : Type := mkBlock { text : option string }.

Record Response : Type := mkResponse {
  content : option (list Block);
  stop_reason : string
}.

(** Everything outside the file; [None] and [false] stand for an exception
    (for [toBlob], for the blob [null]). *)
Record Env (Canvas Blob : Type) : Type := mkEnv {
  newAnthropic : string -> bool;
  create : string -> Request -> option Response;
  parseJSON : string -> option JsVal;
  toBlob : Canvas -> option Blob;
  readAsDataURL : Blob -> option string
}.
Arguments newAnthropic {Canvas Blob} _ _.
Arguments create {Canvas Blob} _ _ _.
Arguments parseJSON {Canvas Blob} _ _.
Arguments toBlob {Canvas Blob} _ _.
Arguments readAsDataURL {Canvas Blob} _ _.

Definition M (A : Type) : Type :=
  list Request -> Outcome A * list Request.

Definition ret {A : Type} (a : A) : M A := fun log => (Returned a, log).

Definition throw {A : Type} (e : Exn) : M A := fun log => (Thrown e, log).

Definition bind {A B : Type} (m : M A) (f : A -> M B) : M B :=
  fun log =>
    match m log with
    | (Returned a, log') => f a log'
    | (Thrown e, log') => (Thrown e, log')
    end.

(** [try { m } catch (e) { handler }]. *)
Definition tryCatch {A : Type} (m : M A) (handler : Exn -> M A) : M A :=
  fun log =>
    match m log with
    | (Returned a, log') => (Returned a, log')
    | (Thrown e, log') => handler e log'
    end.

Notation "x <- m ;; f" := (bind m (fun x => f))
  (at level 61, m at next level, right associativity).

(** [v.k], for the property names the file reads ([useGraphData],
    [graphData], [walls], [doors], [text_labels]): they are own properties of
    objects only. *)
Definition getProp (v : JsVal) (k : string) : M JsVal :=
  match v with
  | JUndefined | JNull => throw TypeError
  | JObject fields => ret (lookup k fields)
  | _ => ret JUndefined
  end.

(** [String.prototype.split] with a one-character separator. *)
Fixpoint jsSplit (sep : ascii) (s : string) : list string :=
  match s with
  | EmptyString => [EmptyString]
  | String c s' =>
      if Ascii.eqb c sep then EmptyString :: jsSplit sep s'
      else match jsSplit sep s' with
           | piece :: pieces => String c piece :: pieces
           | [] => [String c EmptyString]
           end
  end.

Section Parser.

Context {Canvas Blob : Type}.
Variable env : Env Canvas Blob.

(** [new Anthropic({apiKey, ...})]. *)
Definition construct (apiKey : string) : M unit :=
  if newAnthropic env apiKey then ret tt else throw ApiError.

(** [await client.beta.messages.create(...)]: the request is recorded. *)
Definition request (apiKey : string) (r : Request) : M Response :=
  fun log =>
    (match create env apiKey r with
     | Some response => Returned response
     | None => Thrown ApiError
     end, log ++ [r]).

(** [JSON.parse(outputText)]; a block without text gives [undefined], which
    is no JSON text. *)
Definition jsonParse (outputText : option string) : M JsVal :=
  match outputText with
  | Some s =>
      match parseJSON env s with
      | Some v => ret v
      | None => throw SyntaxError
      end
  | None => throw SyntaxError
  end.

Definition parseWallsOnly (svgContent apiKey : string) : M JsVal :=
  _ <- construct apiKey ;;
  response <- request apiKey (WallsRequest svgContent) ;;
  match content response with
  | Some (block :: _) =>
      let outputText := text block in
      tryCatch
        (parsedData <- jsonParse outputText ;;
         (* the log line reads [parsedData.walls?.length] *)
         _ <- getProp parsedData "walls" ;;
         ret parsedData)
        (fun e => throw (InvalidJSON e))
  | _ => throw NoContent
  end.

Definition parseDoorsOnly (svgContent apiKey : string) : M JsVal :=
  _ <- construct apiKey ;;
  response <- request apiKey (DoorsRequest svgContent) ;;
  match content response with
  | Some (block :: _) =>
      let outputText := text block in
      tryCatch
        (parsedData <- jsonParse outputText ;;
         doors <- getProp parsedData "doors" ;;
         ret (orElse doors (JArray [])))
        (fun e => throw (InvalidJSON e))
  | _ => throw NoContent
  end.

Definition canvasToPngBlob (canvas : Canvas) : M Blob :=
  match toBlob env canvas with
  | Some blob => ret blob
  | None => throw BlobError
  end.

(** [reader.result.split(',')[1]]; an array has [undefined] at an index past
    its end. *)
Definition blobToBase64 (blob : Blob) : M (option string) :=
  match readAsDataURL env blob with
  | Some result => ret (nth_error (jsSplit "," result) 1)
  | None => throw ReadError
  end.

Definition parseRoomsFromCanvas (canvas : Canvas) (apiKey : string)
    : M JsVal :=
  _ <- construct apiKey ;;
  blob <- canvasToPngBlob canvas ;;
  imageBase64 <- blobToBase64 blob ;;
  response <- request apiKey (RoomsRequest imageBase64) ;;
  match content response with
  | Some (block :: _) =>
      let outputText := text block in
      tryCatch
        (parsedData <- jsonParse outputText ;;
         text_labels <- getProp parsedData "text_labels" ;;
         ret (orElse text_labels (JArray [])))
        (fun e => throw (InvalidJSON e))
  | _ => throw NoContent
  end.

(** The object [parseArchitecturalSketch] returns. *)
Record Sketch : Type := mkSketch {
  walls : JsVal;
  doors : JsVal;
  rooms : JsVal
}.

(** [options.useGraphData && options.graphData]. *)
Definition graphDataOf (options : JsVal) : M JsVal :=
  useGraphData <- getProp options "useGraphData" ;;
  if truthy useGraphData then getProp options "graphData"
  else ret useGraphData.

(** [canvas] is [None] for a missing canvas ([null] or [undefined]). *)
Definition parseArchitecturalSketch (svgContent : string)
    (canvas : option Canvas) (apiKey : string) (options : JsVal)
    : M Sketch :=
  let options := match options with
                 | JUndefined => JObject []   (* the default [{}] *)
                 | _ => options
                 end in
  graphData <- graphDataOf options ;;
  wallsAndDoors <-
    (if truthy graphData then
       walls <- getProp graphData "walls" ;;
       doors <- getProp graphData "doors" ;;
       ret (orElse walls (JArray []), orElse doors (JArray []))
     else
       walls <- tryCatch
                  (wallsData <- parseWallsOnly svgContent apiKey ;;
                   walls <- getProp wallsData "walls" ;;
                   ret (orElse walls (JArray [])))
                  (fun _ => ret (JArray [])) ;;
       doors <- tryCatch (parseDoorsOnly svgContent apiKey)
                         (fun _ => ret (JArray [])) ;;
       ret (walls, doors)) ;;
  rooms <- match canvas with
           | Some c => tryCatch (parseRoomsFromCanvas c apiKey)
                                (fun _ => ret (JArray []))
           | None => ret (JArray [])
           end ;;
  ret {| walls := fst wallsAndDoors;
         doors := snd wallsAndDoors;
         rooms := rooms |}.

End Parser.

End SvgParser.

(** *** Vocabulary of the parser's statements *)

(** The property [k] of a value that is neither null nor undefined. *)
Definition field (v : SvgParser.JsVal) (k : string) : SvgParser.JsVal :=
  match v with
  | SvgParser.JObject fields => SvgParser.lookup k fields
  | _ => SvgParser.JUndefined
  end.

(** The test [options.useGraphData && options.graphData] passes. *)
Definition usesGraphData (options : SvgParser.JsVal) : bool :=
  SvgParser.truthy (field options "useGraphData")
  && SvgParser.truthy (field options "graphData").

(** The rooms request as the browser decides it: it is made when there is
    a canvas, the SDK client can be constructed and the canvas can be read
    as a data URL, and it carries what follows the first comma of that
    URL. *)
Definition roomsAsked {Canvas Blob : Type} (env : SvgParser.Env Canvas Blob)
    (canvas : option Canvas) (apiKey : string) : list SvgParser.Request :=
  match canvas with
  | None => []
  | Some c =>
      if SvgParser.newAnthropic env apiKey then
        match SvgParser.toBlob env c with
        | None => []
        | Some blob =>
            match SvgParser.readAsDataURL env blob with
            | None => []
            | Some result =>
                [SvgParser.RoomsRequest
                   (nth_error (SvgParser.jsSplit "," result) 1)]
            end
        end
      else []
  end.

(** The character [c] occurs in [s]. *)
Fixpoint occurs (c : ascii) (s : string) : bool :=
  match s with
  | EmptyString => false
  | String c' s' => Ascii.eqb c' c || occurs c s'
  end.

(** A browser in which every call outside the file fails. *)
Definition offline : SvgParser.Env unit unit :=
  {| SvgParser.newAnthropic := fun _ => false;
     SvgParser.create := fun _ _ => None;
     SvgParser.parseJSON := fun _ => None;
     SvgParser.toBlob := fun _ => None;
     SvgParser.readAsDataURL := fun _ => None |}.

(** A browser whose [FileReader] answers with a short data URL. *)
Definition reading : SvgParser.Env unit unit :=
  {| SvgParser.newAnthropic := fun _ => true;
     SvgParser.create := fun _ _ => None;
     SvgParser.parseJSON := fun _ => None;
     SvgParser.toBlob := fun _ => Some tt;
     SvgParser.readAsDataURL :=
       fun _ => Some "data:image/png;base64,iVBORw0KGgo="%string |}.

(** Options that hand over the graph of the front end. *)
Definition graphOptions : SvgParser.JsVal :=
  SvgParser.JObject
    [ ("useGraphData"%string, SvgParser.JBool true);
      ("graphData"%string,
       SvgParser.JObject
         [ ("walls"%string,
            SvgParser.JArray [SvgParser.JString "wall_0"]) ]) ].

(** The length of the edge [e] over the nodes [ns]. *)
Definition edgeLength (ns : list Point) (e : nat * nat) : R :=
  distance (nth (fst e) ns origin) (nth (snd e) ns origin).







(** Two nodes joined by a wall that rises 6 pixels over a run of 100. *)
Definition skewNodes : list Point :=
  [ {| x := 0; y := 0 |}; {| x := 100; y := 6 |} ].

(** * Properties *)

(** ** Comparisons *)

Lemma Rltb_true (a b : R) : Rltb a b = true <-> a < b.
Proof. unfold Rltb; destruct (Rlt_dec a b); split; intros; try easy. Qed.

Lemma Rltb_false (a b : R) : Rltb a b = false <-> b <= a.
Proof.
  unfold Rltb; destruct (Rlt_dec a b); split; intros; try easy; lra.
Qed.

Lemma Rleb_true (a b : R) : Rleb a b = true <-> a <= b.
Proof. unfold Rleb; destruct (Rle_dec a b); split; intros; try easy. Qed.

Lemma Rleb_false (a b : R) : Rleb a b = false <-> b < a.
Proof.
  unfold Rleb; destruct (Rle_dec a b); split; intros; try easy; lra.
Qed.

Lemma Reqb_true (a b : R) : Reqb a b = true <-> a = b.
Proof. unfold Reqb; destruct (Req_dec_T a b); split; intros; try easy. Qed.

Lemma Reqb_false (a b : R) : Reqb a b = false <-> a <> b.
Proof. unfold Reqb; destruct (Req_dec_T a b); split; intros; try easy. Qed.

Lemma Reqb_refl (a : R) : Reqb a a = true.
Proof. now apply Reqb_true. Qed.

(** ** Lists *)

Lemma nth_pred_length_last {A : Type} (l : list A) (d : A) :
  nth (length l - 1) l d = last l d.
Proof.
  induction l as [|a [|b l] IH]; try reflexivity.
  change (last (a :: b :: l) d) with (last (b :: l) d).
  rewrite <- IH. simpl. now rewrite Nat.sub_0_r.
Qed.

Lemma firstn_succ_snoc {A : Type} (l : list A) (d : A) (k : nat) :
  (k < length l)%nat -> firstn (S k) l = firstn k l ++ [nth k l d].
Proof.
  revert k; induction l as [|a l IH]; intros k Hk; simpl in Hk; [lia|].
  destruct k as [|k]; [reflexivity|].
  change (firstn (S (S k)) (a :: l)) with (a :: firstn (S k) l).
  rewrite (IH k) by lia. reflexivity.
Qed.

Lemma last_firstn_succ {A : Type} (l : list A) (d : A) (k : nat) :
  (k < length l)%nat -> last (firstn (S k) l) d = nth k l d.
Proof.
  intros Hk. rewrite (firstn_succ_snoc l d k Hk). apply last_last.
Qed.

(** ** StrokeSimplifier *)

Lemma cleanedAfter_succ (points : list Point) (tol : R) (k : nat) :
  cleanedAfter points tol (S k)
  = simplifyStep points tol (cleanedAfter points tol k) (S k).
Proof.
  unfold cleanedAfter. rewrite seq_S, fold_left_app. reflexivity.
Qed.

Lemma simplifyStep_cases (points : list Point) (tol : R)
    (cleaned : list Point) (i : nat) :
  simplifyStep points tol cleaned i = cleaned
  \/ simplifyStep points tol cleaned i = cleaned ++ [nth i points origin].
Proof.
  unfold simplifyStep.
  destruct (areColinear _ _ _ _); simpl; [left | right]; reflexivity.
Qed.

Lemma cleanedAfter_head (points : list Point) (tol : R) (k : nat) :
  exists rest, cleanedAfter points tol k = nth 0 points origin :: rest.
Proof.
  induction k as [|k [rest IH]].
  - exists []. reflexivity.
  - rewrite cleanedAfter_succ.
    destruct (simplifyStep_cases points tol (cleanedAfter points tol k) (S k))
      as [E | E]; rewrite E, IH.
    + now exists rest.
    + now exists (rest ++ [nth (S k) points origin]).
Qed.

Lemma cleanedAfter_length (points : list Point) (tol : R) (k : nat) :
  (length (cleanedAfter points tol k) <= S k)%nat.
Proof.
  induction k as [|k IH]; [simpl; lia|].
  rewrite cleanedAfter_succ.
  destruct (simplifyStep_cases points tol (cleanedAfter points tol k) (S k))
    as [E | E]; rewrite E; [lia|].
  rewrite length_app; simpl; lia.
Qed.

(** A vector of zero length makes the three points colinear, whatever the
    tolerance. *)
Lemma areColinear_zero_length (p1 p2 p3 : Point) (tol : R) :
  distance p1 p2 = 0 \/ distance p3 p2 = 0 ->
  areColinear p1 p2 p3 tol = true.
Proof.
  unfold distance, areColinear; cbn [x y]; intros H.
  replace ((x p1 - x p2) * (x p1 - x p2) + (y p1 - y p2) * (y p1 - y p2))
    with ((x p1 - x p2) ^ 2 + (y p1 - y p2) ^ 2) by ring.
  replace ((x p3 - x p2) * (x p3 - x p2) + (y p3 - y p2) * (y p3 - y p2))
    with ((x p3 - x p2) ^ 2 + (y p3 - y p2) ^ 2) by ring.
  destruct H as [H | H]; rewrite H, Reqb_refl; [reflexivity|].
  now rewrite orb_true_r.
Qed.

Lemma cleanedAfter_step_length (points : list Point) (tol : R) (k : nat) :
  (length (cleanedAfter points tol (S k))
   <= S (length (cleanedAfter points tol k)))%nat.
Proof.
  rewrite cleanedAfter_succ.
  destruct (simplifyStep_cases points tol (cleanedAfter points tol k) (S k))
    as [E | E]; rewrite E; [lia|].
  rewrite length_app; simpl; lia.
Qed.

(** Once an iteration has pushed nothing, the array [cleaned] stays short of
    the number of points read. *)
Lemma cleanedAfter_short (points : list Point) (tol : R) (i k : nat) :
  (1 <= i <= k)%nat ->
  cleanedAfter points tol i = cleanedAfter points tol (i - 1) ->
  (length (cleanedAfter points tol k) <= k)%nat.
Proof.
  intros [Hi Hk] E. induction k as [|k IH]; [lia|].
  destruct (Nat.eq_dec i (S k)) as [-> | Hne].
  - rewrite E. replace (S k - 1)%nat with k by lia.
    apply cleanedAfter_length.
  - pose proof (cleanedAfter_step_length points tol k).
    assert (length (cleanedAfter points tol k) <= k)%nat by (apply IH; lia).
    lia.
Qed.

(** C7: the simplifier returns a list of at most two points unchanged; on a
    longer list the output starts with the first input point, ends with the
    last one and is no longer than the input.  The output is the array
    [cleaned] of the loop followed by the last input point, and an interior
    point [i] whose vector to the previously retained point or to the next
    raw point has zero length is found colinear and is not pushed: [cleaned]
    is the same before and after iteration [i].  So whenever the input has
    such a point, the output is strictly shorter than the input. *)
Theorem C7_simplifier_contract (points : list Point) (tol : R) :
  ((length points <= 2)%nat -> removeColinearPoints points tol = points)
  /\ ((2 < length points)%nat ->
      let out := removeColinearPoints points tol in
      hd_error out = hd_error points
      /\ last out origin = last points origin
      /\ (length out <= length points)%nat
      /\ out = cleanedAfter points tol (length points - 2)
               ++ [nth (length points - 1) points origin]
      /\ forall i : nat,
          (1 <= i <= length points - 2)%nat ->
          let cleaned := cleanedAfter points tol (i - 1) in
          let prev := last cleaned origin in
          let current := nth i points origin in
          let next := nth (i + 1) points origin in
          distance prev current = 0 \/ distance next current = 0 ->
          areColinear prev current next tol = true
          /\ cleanedAfter points tol i = cleaned
          /\ (length out < length points)%nat).
Proof.
  unfold removeColinearPoints. split.
  - intros H. apply Nat.leb_le in H. now rewrite H.
  - intros H. cbv zeta.
    assert (E : (length points <=? 2)%nat = false) by (apply Nat.leb_gt; lia).
    rewrite E. split; [|split; [|split; [|split]]].
    + destruct (cleanedAfter_head points tol (length points - 2)) as [r Hr].
      rewrite Hr. destruct points; [simpl in H; lia | reflexivity].
    + rewrite last_last. apply nth_pred_length_last.
    + rewrite length_app. simpl.
      pose proof (cleanedAfter_length points tol (length points - 2)). lia.
    + reflexivity.
    + intros i Hi Hz.
      pose proof (areColinear_zero_length _ _ _ tol Hz) as Hc.
      split; [exact Hc|].
      assert (Hsame : cleanedAfter points tol i
                      = cleanedAfter points tol (i - 1)).
      { destruct i as [|i]; [lia|].
        rewrite cleanedAfter_succ. unfold simplifyStep.
        replace (S i - 1)%nat with i in * by lia.
        rewrite Hc. reflexivity. }
      split; [exact Hsame|].
      rewrite length_app. cbn [length].
      pose proof (cleanedAfter_short points tol i (length points - 2)
                    Hi Hsame).
      lia.
Qed.

(** *** The angle test, without the inverse cosine *)

Lemma cos_lower (a : R) : - PI / 2 <= a <= PI / 2 -> 1 - a * a / 2 <= cos a.
Proof.
  intros [H1 H2]. destruct (cos_bound a 0 H1 H2) as [L _].
  unfold cos_approx, cos_term in L. simpl in L. lra.
Qed.

Lemma cos_upper (a : R) : - PI / 2 <= a <= PI / 2 ->
  cos a <= 1 - a * a / 2 + a * a * a * a / 24.
Proof.
  intros [H1 H2]. destruct (cos_bound a 0 H1 H2) as [_ U].
  unfold cos_approx, cos_term in U. simpl in U. lra.
Qed.

(** The cosine of ten degrees, to two decimals. *)
Lemma cos_PI18_bounds : 79 / 81 <= cos (PI / 18) <= 30673 / 31104.
Proof.
  pose proof PI_4. pose proof PI2_3_2.
  split.
  - apply Rle_trans with (cos (2 / 9)).
    + pose proof (cos_lower (2 / 9)). lra.
    + apply cos_decr_1; lra.
  - apply Rle_trans with (cos (1 / 6)).
    + apply cos_decr_1; lra.
    + pose proof (cos_upper (1 / 6)). lra.
Qed.

Lemma cos_PI_minus (t : R) : cos (PI - t) = - cos t.
Proof.
  replace (PI - t) with (- t + PI) by ring.
  now rewrite neg_cos, cos_neg.
Qed.

Lemma clamp_range (c : R) : -1 <= Rmax (-1) (Rmin 1 c) <= 1.
Proof.
  unfold Rmax, Rmin.
  destruct (Rle_dec 1 c); destruct (Rle_dec (-1) _); lra.
Qed.

Lemma clamp_le (c k : R) : -1 <= k < 1 ->
  (Rmax (-1) (Rmin 1 c) <= k <-> c <= k).
Proof.
  intros Hk. unfold Rmax, Rmin.
  destruct (Rle_dec 1 c); destruct (Rle_dec (-1) _); lra.
Qed.

Lemma degrees_as_fraction (tol : R) : tol * (PI / 180) = PI * (tol / 180).
Proof. field. Qed.

Lemma angle_test (c tol : R) : -1 <= c <= 1 -> 0 <= tol <= 180 ->
  (Rabs (180 - acos c * (180 / PI)) <= tol
   <-> c <= - cos (tol * (PI / 180))).
Proof.
  intros Hc Ht.
  pose proof PI_RGT_0 as Hpi.
  pose proof (acos_bound c) as Hb.
  pose proof (cos_acos c Hc) as Hcos.
  pose proof (degrees_as_fraction tol) as Htol.
  set (th := acos c) in *.
  assert (Hdeg : th * (180 / PI) = 180 * (th / PI)) by (field; lra).
  assert (Hr : 0 <= th / PI <= 1).
  { split.
    - apply Rmult_le_pos; [lra|]. left. now apply Rinv_0_lt_compat.
    - apply Rmult_le_reg_r with PI; [lra|]. unfold Rdiv.
      rewrite Rmult_assoc, Rinv_l by lra. lra. }
  rewrite Hdeg, Rabs_right by lra.
  rewrite <- cos_PI_minus, <- Hcos.
  assert (Heq : th = PI * (th / PI)) by (field; lra).
  split; intros H.
  - apply cos_decr_1; try lra; nra.
  - apply cos_decr_0 in H; try lra; nra.
Qed.

(** [areColinear] on two vectors of positive length: the angle at [p2] is
    within [tol] degrees of the straight angle exactly when the dot product
    is at most [- cos tol] times the product of the lengths. *)
Lemma areColinear_iff (p1 p2 p3 : Point) (tol : R) :
  0 <= tol < 180 -> 0 < normSq p1 p2 -> 0 < normSq p3 p2 ->
  (areColinear p1 p2 p3 tol = true
   <-> dotAt p1 p2 p3
       <= - cos (tol * (PI / 180)) * sqrt (normSq p1 p2 * normSq p3 p2)).
Proof.
  intros Ht Ha Hb. unfold areColinear, dotAt; cbn [x y].
  fold (normSq p1 p2). fold (normSq p3 p2).
  pose proof (sqrt_lt_R0 _ Ha) as Hm1.
  pose proof (sqrt_lt_R0 _ Hb) as Hm2.
  assert (E1 : Reqb (sqrt (normSq p1 p2)) 0 = false)
    by (apply Reqb_false; lra).
  assert (E2 : Reqb (sqrt (normSq p3 p2)) 0 = false)
    by (apply Reqb_false; lra).
  rewrite E1, E2. cbn [orb].
  rewrite Rleb_true, angle_test by (try apply clamp_range; lra).
  pose proof PI_RGT_0 as Hpi.
  pose proof (degrees_as_fraction tol) as Htol.
  assert (Hk : -1 < cos (tol * (PI / 180)) <= 1).
  { split; [|apply COS_bound].
    rewrite <- cos_PI. apply cos_decreasing_1; try lra; nra. }
  rewrite clamp_le by lra.
  rewrite sqrt_mult by lra.
  set (m := sqrt (normSq p1 p2) * sqrt (normSq p3 p2)).
  assert (Hm : 0 < m) by (apply Rmult_lt_0_compat; assumption).
  set (d := (x p1 - x p2) * (x p3 - x p2) + (y p1 - y p2) * (y p3 - y p2)).
  set (k := - cos (tol * (PI / 180))).
  split; intros H.
  - apply Rmult_le_compat_r with (r := m) in H; [|lra].
    unfold Rdiv in H. rewrite Rmult_assoc, Rinv_l in H by lra. lra.
  - apply Rmult_le_reg_r with m; [lra|].
    unfold Rdiv. rewrite Rmult_assoc, Rinv_l by lra. lra.
Qed.

Lemma sqrt_between (a lo hi : R) :
  0 <= lo -> 0 <= hi -> lo * lo <= a <= hi * hi -> lo <= sqrt a <= hi.
Proof.
  intros Hlo Hhi [H1 H2]. split.
  - rewrite <- (sqrt_square lo) by lra. apply sqrt_le_1; nra.
  - rewrite <- (sqrt_square hi) by lra. apply sqrt_le_1; nra.
Qed.

Lemma default_tolerance_radians :
  defaultAngleTolerance * (PI / 180) = PI / 18.
Proof. unfold defaultAngleTolerance. field. Qed.

(** Brackets the square root in the goal between [lo] and [hi]. *)
Ltac bracket_sqrt lo hi :=
  match goal with
  | |- context [sqrt ?a] =>
      let Hs := fresh "Hs" in
      assert (Hs : lo <= sqrt a <= hi) by (apply sqrt_between; lra)
  end.

(** Decides [areColinear] at the default tolerance on concrete points, given
    brackets for the product of the two lengths. *)
Ltac colinear_by lo hi :=
  rewrite areColinear_iff;
  [ rewrite default_tolerance_radians; unfold normSq, dotAt; cbn [x y];
    pose proof cos_PI18_bounds; bracket_sqrt lo hi; nra
  | unfold defaultAngleTolerance; lra
  | unfold normSq; cbn [x y]; lra
  | unfold normSq; cbn [x y]; lra ].

(** *** When a pass removes nothing *)

Lemma cleanedAfter_all_kept (l : list Point) (tol : R) (k : nat) :
  (S k <= length l)%nat ->
  (forall i : nat, (1 <= i <= k)%nat ->
     areColinear (nth (i - 1) l origin) (nth i l origin)
                 (nth (i + 1) l origin) tol = false) ->
  cleanedAfter l tol k = firstn (S k) l.
Proof.
  induction k as [|k IH]; intros Hlen Hall.
  - destruct l; [simpl in Hlen; lia | reflexivity].
  - rewrite cleanedAfter_succ, IH by (try lia; intros; apply Hall; lia).
    unfold simplifyStep.
    rewrite (last_firstn_succ l origin k) by lia.
    specialize (Hall (S k) ltac:(lia)).
    replace (S k - 1)%nat with k in Hall by lia.
    rewrite Hall. cbn [negb].
    symmetry. apply firstn_succ_snoc. lia.
Qed.

Lemma cleanedAfter_full_length (l : list Point) (tol : R) (k : nat) :
  (S k <= length l)%nat ->
  length (cleanedAfter l tol k) = S k ->
  cleanedAfter l tol k = firstn (S k) l
  /\ forall i : nat, (1 <= i <= k)%nat ->
       areColinear (nth (i - 1) l origin) (nth i l origin)
                   (nth (i + 1) l origin) tol = false.
Proof.
  induction k as [|k IH]; intros Hlen Hfull.
  - split; [|intros; lia].
    destruct l; [simpl in Hlen; lia | reflexivity].
  - rewrite cleanedAfter_succ in Hfull |- *.
    pose proof (cleanedAfter_length l tol k) as Hle.
    unfold simplifyStep in Hfull |- *.
    destruct (areColinear (last (cleanedAfter l tol k) origin)
                (nth (S k) l origin) (nth (S k + 1) l origin) tol) eqn:Hc;
      cbn [negb] in Hfull |- *; [lia|].
    rewrite length_app in Hfull. simpl in Hfull.
    destruct IH as [Hk Hall]; [lia | lia |].
    rewrite Hk in Hc |- *.
    rewrite (last_firstn_succ l origin k) in Hc by lia.
    split.
    + symmetry. apply firstn_succ_snoc. lia.
    + intros i Hi. destruct (Nat.eq_dec i (S k)) as [-> | Hne].
      * replace (S k - 1)%nat with k by lia. exact Hc.
      * apply Hall. lia.
Qed.

(** A pass returns its input unchanged exactly when the input has no
    interior point that is colinear with its two neighbours. *)
Lemma removeColinearPoints_fixed_iff (l : list Point) (tol : R) :
  removeColinearPoints l tol = l <-> noColinearInterior l tol.
Proof.
  unfold removeColinearPoints, noColinearInterior.
  destruct (length l <=? 2)%nat eqn:E.
  - apply Nat.leb_le in E. split; [intros _ i Hi; lia | reflexivity].
  - apply Nat.leb_gt in E. split.
    + intros H.
      assert (Hlen : length (cleanedAfter l tol (length l - 2))
                     = S (length l - 2)).
      { apply (f_equal (@length _)) in H.
        rewrite length_app in H. simpl in H. lia. }
      apply cleanedAfter_full_length in Hlen; [|lia].
      exact (proj2 Hlen).
    + intros H.
      rewrite cleanedAfter_all_kept by (try lia; exact H).
      replace (S (length l - 2)) with (length l - 1)%nat by lia.
      rewrite <- (firstn_succ_snoc l origin (length l - 1)) by lia.
      replace (S (length l - 1)) with (length l) by lia.
      apply firstn_all.
Qed.

(** *** The bent stroke *)

Lemma bentStroke_first_pass :
  removeColinearPoints bentStroke defaultAngleTolerance
  = [ {| x := -1; y := 0 |}; {| x := 0; y := 0 |}; {| x := 84; y := 11 |} ].
Proof.
  unfold removeColinearPoints, cleanedAfter, bentStroke.
  cbn [length Nat.leb Nat.sub seq fold_left].
  unfold simplifyStep at 2. cbn [last nth Nat.add].
  replace (areColinear _ _ _ _) with false
    by (symmetry; apply not_true_is_false; colinear_by (412 / 100) 5).
  cbn [negb app].
  unfold simplifyStep. cbn [last nth Nat.add].
  replace (areColinear _ _ _ _) with true
    by (symmetry; colinear_by 0 333).
  reflexivity.
Qed.

Lemma bentStroke_second_pass :
  removeColinearPoints
    [ {| x := -1; y := 0 |}; {| x := 0; y := 0 |}; {| x := 84; y := 11 |} ]
    defaultAngleTolerance
  = [ {| x := -1; y := 0 |}; {| x := 84; y := 11 |} ].
Proof.
  unfold removeColinearPoints, cleanedAfter.
  cbn [length Nat.leb Nat.sub seq fold_left].
  unfold simplifyStep. cbn [last nth Nat.add].
  replace (areColinear _ _ _ _) with true
    by (symmetry; colinear_by 0 85).
  reflexivity.
Qed.

(** C5, as stated, fails: at the default tolerance of 10 degrees the first
    pass over the bent stroke keeps three points, and a second pass over
    these three removes the middle one. *)
Lemma C5_second_pass_removes_more :
  removeColinearPoints bentStroke defaultAngleTolerance
  = [ {| x := -1; y := 0 |}; {| x := 0; y := 0 |}; {| x := 84; y := 11 |} ]
  /\ removeColinearPoints
       (removeColinearPoints bentStroke defaultAngleTolerance)
       defaultAngleTolerance
     = [ {| x := -1; y := 0 |}; {| x := 84; y := 11 |} ]
  /\ removeColinearPoints
       (removeColinearPoints bentStroke defaultAngleTolerance)
       defaultAngleTolerance
     <> removeColinearPoints bentStroke defaultAngleTolerance.
Proof.
  rewrite bentStroke_first_pass, bentStroke_second_pass.
  repeat split.
  intros H. apply (f_equal (@length _)) in H. discriminate H.
Qed.

(** C5, amended: a second pass returns the output of the first unchanged
    exactly when no interior point of that output is colinear, within the
    tolerance, with its two neighbours in the output. *)
Theorem C5_second_pass_fixed_iff (points : list Point) (tol : R) :
  let out := removeColinearPoints points tol in
  removeColinearPoints out tol = out <-> noColinearInterior out tol.
Proof.
  intros out. apply removeColinearPoints_fixed_iff.
Qed.

(** ** ScaleNormalizer *)

Lemma Fin_eq (a b : R) : a = b -> Fin a = Fin b.
Proof. now intros ->. Qed.

Lemma mkPt_eq {N : Type} (a b c d : N) : a = c -> b = d -> mkPt a b = mkPt c d.
Proof. now intros -> ->. Qed.

(** C1, at the input of the specification's example 5: with a dimension
    value of 24 and a reference length of 240 pixels the code's factor is
    12 / 240 = 0.05, not 24 / 240 = 0.1, and the node (50, 50) goes to
    (2.5, 2.5), not to (5, 5); the dimension value does not enter the
    computation at all. *)
Theorem C1_scale_factor_uses_constant_twelve :
  let g := {| nodes := [ {| x := 50; y := 50 |} ]; edges := [] |} in
  let scaled := scaleToRealWorld g [] 24 (Fin 240) in
  Scaled.scaleFactor scaled = Fin (5 / 100)
  /\ nodes (Scaled.wallGraph scaled)
     = [ {| x := Fin (25 / 10); y := Fin (25 / 10) |} ]
  /\ Scaled.scaleFactor scaled <> Fin (24 / 240)
  /\ forall dimensionValue : R,
       scaleToRealWorld g [] dimensionValue (Fin 240) = scaled.
Proof.
  cbv zeta. unfold scaleToRealWorld, scalePoint, jsDiv, jsMul. cbn.
  assert (E : Reqb 240 0 = false) by (apply Reqb_false; lra).
  rewrite E.
  split; [apply Fin_eq; lra|].
  split; [f_equal; apply mkPt_eq; apply Fin_eq; lra|].
  split; [|reflexivity].
  intros H. injection H as H. lra.
Qed.

(** ** DoorProjector *)

Lemma snapStep_total (g : WallGraph) (point : Point) (acc : JsNum * Point)
    (e : nat * nat) :
  (fst e < length (nodes g))%nat /\ (snd e < length (nodes g))%nat ->
  exists acc', snapStep g point acc e = Some acc'.
Proof.
  destruct e as [i j]; cbn [fst snd]; intros [Hi Hj]. unfold snapStep.
  destruct (nth_error (nodes g) i) as [n1|] eqn:E1;
    [|apply nth_error_None in E1; lia].
  destruct (nth_error (nodes g) j) as [n2|] eqn:E2;
    [|apply nth_error_None in E2; lia].
  destruct (distanceToSegment point n1 n2) as [d | d proj];
    cbn [resultDistance resultProjected].
  - now eexists.
  - destruct (jsLtb (Fin d) (fst acc)); now eexists.
Qed.

Lemma snapLoop_total (g : WallGraph) (point : Point) (es : list (nat * nat)) :
  Forall (fun e => (fst e < length (nodes g))%nat
                   /\ (snd e < length (nodes g))%nat) es ->
  forall acc, exists acc', snapLoop g point acc es = Some acc'.
Proof.
  induction 1 as [|e es He _ IH]; intros acc; cbn [snapLoop].
  - now eexists.
  - destruct (snapStep_total g point acc e He) as [acc' ->]. apply IH.
Qed.

(** On a graph whose edges name existing nodes the projector never fails. *)
Section ValidGraph.

Variable g : WallGraph.
Hypothesis valid : validEdges g.

Lemma snapToNearestEdge_total (point : Point) :
  exists p, snapToNearestEdge g point = Some p.
Proof.
  unfold snapToNearestEdge.
  destruct (snapLoop_total g point (edges g) valid (PosInf, point))
    as [acc ->].
  now eexists.
Qed.

Lemma addDoor_total (doors : list (Door R)) (path : Path) :
  exists doors', addDoor g doors path = Some doors'.
Proof.
  unfold addDoor.
  destruct (segments path) as [segs|]; [|now eexists].
  destruct (length segs <? 2)%nat; [now eexists|].
  destruct (snapToNearestEdge_total (nth 0 segs origin)) as [s ->].
  destruct (snapToNearestEdge_total (nth (length segs - 1) segs origin))
    as [e ->].
  now eexists.
Qed.

Lemma findDoorsFrom_total (doorPaths : list Path) :
  forall doors, exists ds, findDoorsFrom g doors doorPaths = Some ds.
Proof.
  induction doorPaths as [|path rest IH]; intros doors; cbn [findDoorsFrom].
  - now eexists.
  - destruct (addDoor_total doors path) as [doors' ->]. apply IH.
Qed.

End ValidGraph.

Lemma snapToNearestEdge_no_edges (g : WallGraph) (point : Point) :
  edges g = [] -> snapToNearestEdge g point = Some point.
Proof. intros E. unfold snapToNearestEdge. now rewrite E. Qed.

(** What one door path adds to [doors]: nothing, or one door whose
    [original] holds the first and last raw point. *)
Lemma addDoor_original (g : WallGraph) (doors doors' : list (Door R))
    (path : Path) :
  addDoor g doors path = Some doors' ->
  map original doors' = map original doors ++ rawEndpoints [path].
Proof.
  unfold addDoor. cbn [rawEndpoints].
  destruct (segments path) as [[|p [|q segs]]|];
    try (intros [= <-]; now rewrite app_nil_r).
  cbn [length Nat.ltb Nat.leb].
  destruct (snapToNearestEdge g _) as [s|]; [|discriminate].
  destruct (snapToNearestEdge g _) as [e|]; [|discriminate].
  intros [= <-]. rewrite map_app. cbn [map original].
  rewrite <- (nth_pred_length_last (q :: segs) origin).
  cbn [length]. replace (S (length segs) - 1)%nat with (length segs) by lia.
  destruct (length segs); reflexivity.
Qed.

Lemma rawEndpoints_cons (path : Path) (rest : list Path) :
  rawEndpoints (path :: rest) = rawEndpoints [path] ++ rawEndpoints rest.
Proof.
  cbn [rawEndpoints].
  destruct (segments path) as [[|p [|q segs]]|]; reflexivity.
Qed.

Lemma findDoorsFrom_original (g : WallGraph) (doorPaths : list Path) :
  forall doors ds,
    findDoorsFrom g doors doorPaths = Some ds ->
    map original ds = map original doors ++ rawEndpoints doorPaths.
Proof.
  induction doorPaths as [|path rest IH]; intros doors ds; cbn [findDoorsFrom].
  - intros [= <-]. now rewrite app_nil_r.
  - destruct (addDoor g doors path) as [doors'|] eqn:E; [|discriminate].
    intros H. rewrite (IH _ _ H), (addDoor_original _ _ _ _ E).
    now rewrite <- app_assoc, <- rawEndpoints_cons.
Qed.

Lemma addDoor_unsnapped (g : WallGraph) (doors doors' : list (Door R))
    (path : Path) :
  edges g = [] -> Forall unsnapped doors ->
  addDoor g doors path = Some doors' -> Forall unsnapped doors'.
Proof.
  intros E Hd. unfold addDoor.
  destruct (segments path) as [segs|]; [|now intros [= <-]].
  destruct (length segs <? 2)%nat; [now intros [= <-]|].
  rewrite !snapToNearestEdge_no_edges by assumption.
  intros [= <-]. apply Forall_app. split; [assumption|].
  constructor; [|constructor]. split; reflexivity.
Qed.

Lemma findDoorsFrom_unsnapped (g : WallGraph) (doorPaths : list Path) :
  edges g = [] ->
  forall doors ds, Forall unsnapped doors ->
    findDoorsFrom g doors doorPaths = Some ds -> Forall unsnapped ds.
Proof.
  intros E. induction doorPaths as [|path rest IH]; intros doors ds Hd;
    cbn [findDoorsFrom].
  - now intros [= <-].
  - destruct (addDoor g doors path) as [doors'|] eqn:Ea; [|discriminate].
    apply IH. eapply addDoor_unsnapped; eassumption.
Qed.

Lemma scaleToRealWorld_original (g : WallGraph) (ds : list (Door R))
    (dimensionValue : R) (len : JsNum) :
  map original (Scaled.doors (scaleToRealWorld g ds dimensionValue len))
  = map original ds.
Proof.
  unfold scaleToRealWorld; cbn [Scaled.doors].
  rewrite map_map. apply map_ext. reflexivity.
Qed.

Lemma scaleStep_original (dimensionData : option DimensionData)
    (len : JsNum) (g : WallGraph) (ds : list (Door R)) :
  map original (snd (scaleStep dimensionData len g ds)) = map original ds.
Proof.
  unfold scaleStep. destruct (testedDimensionValue dimensionData); cbn [snd].
  - apply scaleToRealWorld_original.
  - rewrite map_map. apply map_ext. reflexivity.
Qed.

(** C10: against a graph without edges every door comes back with its
    snapped endpoints equal to the original ones; against any graph whose
    edges name existing nodes [findDoors] returns, and whenever it returns
    the [original] fields of its doors are the first and last raw points of
    the door strokes that have at least two points; [scaleToRealWorld]
    copies [original], so the doors [send] hands over still carry these raw
    points. *)
Theorem C10_doors_keep_raw_endpoints :
  (forall (doorPaths : list Path) (ns : list Point),
      exists ds,
        findDoors doorPaths {| nodes := ns; edges := [] |} = Some ds
        /\ Forall unsnapped ds
        /\ map original ds = rawEndpoints doorPaths)
  /\ (forall (doorPaths : list Path) (g : WallGraph),
         validEdges g ->
         exists ds,
           findDoors doorPaths g = Some ds
           /\ map original ds = rawEndpoints doorPaths)
  /\ (forall (doorPaths : list Path) (g : WallGraph) (ds : list (Door R)),
         findDoors doorPaths g = Some ds ->
         map original ds = rawEndpoints doorPaths)
  /\ (forall (g : WallGraph) (ds : list (Door R)) (v : R) (len : JsNum),
         map original (Scaled.doors (scaleToRealWorld g ds v len))
         = map original ds)
  /\ (forall recognize apiKey wallPaths doorPaths dimsPath json,
         send recognize apiKey wallPaths doorPaths dimsPath = Built json ->
         map original (doors json) = rawEndpoints doorPaths).
Proof.
  assert (Hany : forall (doorPaths : list Path) (g : WallGraph),
             validEdges g ->
             exists ds, findDoors doorPaths g = Some ds
                        /\ map original ds = rawEndpoints doorPaths).
  { intros doorPaths g Hv. unfold findDoors.
    destruct (findDoorsFrom_total g Hv doorPaths []) as [ds E].
    exists ds. split; [exact E|].
    exact (findDoorsFrom_original _ _ _ _ E). }
  split; [|split; [exact Hany|split; [|split]]].
  - intros doorPaths ns.
    destruct (Hany doorPaths {| nodes := ns; edges := [] |}) as [ds [E Ho]];
      [constructor|].
    exists ds. repeat split; try assumption.
    eapply findDoorsFrom_unsnapped; [| |exact E]; [reflexivity|constructor].
  - intros doorPaths g ds E. exact (findDoorsFrom_original _ _ _ _ E).
  - apply scaleToRealWorld_original.
  - intros recognize apiKey wallPaths doorPaths dimsPath json. unfold send.
    destruct apiKey as [key|]; [|discriminate].
    destruct (String.eqb key ""); [discriminate|].
    destruct (extractDimensionNumber recognize dimsPath key)
      as [|dimensionData]; [discriminate|].
    destruct (createWallGraph wallPaths) as [g|]; [|discriminate].
    destruct (findDoors doorPaths g) as [ds|] eqn:E; [|discriminate].
    pose proof (scaleStep_original dimensionData
                  (referenceLength dimsPath) g ds) as Ho.
    destruct (scaleStep _ _ g ds) as [g' ds'].
    destruct (wallsFrom _ _ _); [|discriminate].
    intros [= <-]. cbn [doors snd] in *. rewrite Ho.
    exact (findDoorsFrom_original _ _ _ _ E).
Qed.

(** ** The scaling step of [send] *)

Lemma referenceLength_no_paths : referenceLength [] = Fin 0.
Proof.
  unfold referenceLength; cbn. apply Fin_eq. apply Rmax_left. lra.
Qed.







(** ** GraphBuilder *)

Lemma option_map_S_inv (o : option nat) (i : nat) :
  option_map S o = Some i -> exists j, o = Some j /\ i = S j.
Proof. destruct o as [j|]; [intros [= <-]; now exists j | discriminate]. Qed.

Lemma findIndex_Some {A : Type} (f : A -> bool) (l : list A) (d : A) :
  forall i, findIndex f l = Some i ->
    (i < length l)%nat /\ f (nth i l d) = true
    /\ forall j, (j < i)%nat -> f (nth j l d) = false.
Proof.
  induction l as [|a l IH]; intros i; cbn [findIndex]; [discriminate|].
  destruct (f a) eqn:Fa.
  - intros [= <-]. cbn. repeat split; [lia | assumption | intros; lia].
  - intros H. apply option_map_S_inv in H as [j [Hj ->]].
    destruct (IH j Hj) as [Hlt [Hf Hmin]].
    cbn [length nth]. repeat split; [lia | assumption |].
    intros [|k] Hk; [assumption | apply Hmin; lia].
Qed.

Lemma findIndex_None {A : Type} (f : A -> bool) (l : list A) (d : A) :
  findIndex f l = None ->
  forall j, (j < length l)%nat -> f (nth j l d) = false.
Proof.
  induction l as [|a l IH]; cbn [findIndex length]; intros H j Hj; [lia|].
  destruct (f a) eqn:Fa; [discriminate|].
  destruct (findIndex f l); [discriminate|].
  destruct j as [|j]; [assumption|]. apply IH; [reflexivity | lia].
Qed.

(** [resolveNode] answers an index of the node array it leaves, and it only
    ever appends to the array. *)
Lemma resolveNode_spec (ns : list Point) (p : Point) :
  let '(idx, ns') := resolveNode ns p in
  (idx < length ns')%nat /\ exists extra, ns' = ns ++ extra.
Proof.
  unfold resolveNode.
  destruct (findIndex _ ns) as [i|] eqn:E.
  - split; [|exists []; now rewrite app_nil_r].
    now apply (findIndex_Some _ _ origin) in E.
  - split; [|now exists [p]].
    rewrite length_app. simpl. lia.
Qed.

Lemma validEdges_grow (ns extra : list Point) (es : list (nat * nat)) :
  validEdges {| nodes := ns; edges := es |} ->
  validEdges {| nodes := ns ++ extra; edges := es |}.
Proof.
  unfold validEdges; cbn [nodes edges]. intros H.
  eapply Forall_impl; [|exact H].
  intros e [H1 H2]. rewrite length_app. lia.
Qed.

Lemma addSegment_invariant (cleanedPoints : list Point) (g : WallGraph)
    (i : nat) :
  builderInvariant g -> builderInvariant (addSegment cleanedPoints g i).
Proof.
  intros [Hv Hl]. unfold addSegment.
  pose proof (resolveNode_spec (nodes g) (nth i cleanedPoints origin)) as H1.
  destruct (resolveNode (nodes g) _) as [idx1 ns1].
  pose proof (resolveNode_spec ns1 (nth (i + 1) cleanedPoints origin)) as H2.
  destruct (resolveNode ns1 _) as [idx2 ns2].
  destruct H1 as [Hi1 [ex1 ->]], H2 as [Hi2 [ex2 ->]].
  assert (Hv' : validEdges {| nodes := (nodes g ++ ex1) ++ ex2;
                              edges := edges g |}).
  { rewrite <- app_assoc. apply validEdges_grow. now destruct g. }
  destruct (idx1 =? idx2)%nat eqn:E.
  - split; [exact Hv' | exact Hl].
  - apply Nat.eqb_neq in E. split.
    + unfold validEdges in *; cbn [nodes edges] in *.
      apply Forall_app. split; [exact Hv'|].
      constructor; [|constructor]. cbn [fst snd].
      rewrite !length_app in *. lia.
    + cbn [edges]. apply Forall_app. split; [exact Hl|].
      constructor; [exact E | constructor].
Qed.

Lemma fold_left_invariant {A B : Type} (P : A -> Prop) (f : A -> B -> A)
    (l : list B) :
  (forall a b, P a -> P (f a b)) ->
  forall a, P a -> P (fold_left f l a).
Proof.
  intros Hf. induction l as [|b l IH]; intros a Ha; cbn [fold_left];
    [assumption|]. apply IH, Hf, Ha.
Qed.

Lemma addPath_invariant (g : WallGraph) (path : Path) :
  builderInvariant g -> builderInvariant (addPath g path).
Proof.
  intros H. unfold addPath. destruct (segments path) as [points|];
    [|assumption].
  apply fold_left_invariant; [|assumption].
  intros a b. apply addSegment_invariant.
Qed.

Lemma buildGraph_invariant (wallPaths : list Path) :
  builderInvariant (buildGraph wallPaths).
Proof.
  unfold buildGraph. apply fold_left_invariant.
  - apply addPath_invariant.
  - split; constructor.
Qed.

(** ** AxisRectifier: the pass never fails on valid edges *)

Lemma length_modify {A : Type} (i : nat) (f : A -> A) (l : list A) :
  length (modify i f l) = length l.
Proof.
  revert i; induction l as [|a l IH]; intros [|i]; cbn; congruence.
Qed.

Lemma rectifyEdge_length (ns ns' : list Point) (e : nat * nat) :
  rectifyEdge ns e = Some ns' -> length ns' = length ns.
Proof.
  destruct e as [i j]. unfold rectifyEdge.
  destruct (nth_error ns i) as [n1|]; [|discriminate].
  destruct (nth_error ns j) as [n2|]; [|discriminate].
  destruct (isNearHorizontal _); [|destruct (isNearVertical _)];
    intros [= <-]; now rewrite ?length_modify.
Qed.

Lemma rectifyEdge_total (ns : list Point) (e : nat * nat) :
  (fst e < length ns)%nat /\ (snd e < length ns)%nat ->
  exists ns', rectifyEdge ns e = Some ns'.
Proof.
  destruct e as [i j]; cbn [fst snd]; intros [Hi Hj]. unfold rectifyEdge.
  destruct (nth_error ns i) as [n1|] eqn:E1;
    [|apply nth_error_None in E1; lia].
  destruct (nth_error ns j) as [n2|] eqn:E2;
    [|apply nth_error_None in E2; lia].
  destruct (isNearHorizontal _); [|destruct (isNearVertical _)];
    now eexists.
Qed.

Lemma rectify_total (es : list (nat * nat)) :
  forall ns : list Point,
    Forall (fun e => (fst e < length ns)%nat /\ (snd e < length ns)%nat) es ->
    exists ns', rectify ns es = Some ns' /\ length ns' = length ns.
Proof.
  induction es as [|e es IH]; intros ns Hv; cbn [rectify].
  - now exists ns.
  - inversion Hv as [|? ? He Hes]; subst.
    destruct (rectifyEdge_total ns e He) as [ns1 E1]. rewrite E1.
    pose proof (rectifyEdge_length _ _ _ E1) as Hl.
    destruct (IH ns1) as [ns' [E' Hl']]; [now rewrite Hl|].
    exists ns'. split; [assumption | congruence].
Qed.

(** ** Edge deduplication *)

Lemma mapSet_keys {V : Type} (k : string) (v : V) (m : list (string * V)) :
  map fst (mapSet k v m)
  = if in_dec string_dec k (map fst m) then map fst m else map fst m ++ [k].
Proof.
  induction m as [|[k' v'] m IH]; cbn [mapSet map fst]; [reflexivity|].
  destruct (String.eqb_spec k k') as [-> | Hne].
  - cbn [map fst].
    destruct (in_dec string_dec k' (k' :: map fst m)) as [_ | H];
      [reflexivity|].
    exfalso. apply H. now left.
  - cbn [map fst]. rewrite IH.
    destruct (in_dec string_dec k (map fst m)) as [Hin | Hnin];
      destruct (in_dec string_dec k (k' :: map fst m)) as [Hin' | Hnin'];
      try reflexivity.
    + exfalso. apply Hnin'. now right.
    + exfalso. destruct Hin' as [E | Hin']; [now apply Hne | now apply Hnin].
Qed.

Lemma mapSet_NoDup {V : Type} (k : string) (v : V) (m : list (string * V)) :
  NoDup (map fst m) -> NoDup (map fst (mapSet k v m)).
Proof.
  intros H. rewrite mapSet_keys.
  destruct (in_dec string_dec k (map fst m)) as [Hin | Hnin]; [assumption|].
  apply NoDup_app; [assumption | repeat constructor; easy |].
  intros a Ha [<- | []]. contradiction.
Qed.

Lemma mapSet_entries {V : Type} (P : string * V -> Prop) (k : string) (v : V)
    (m : list (string * V)) :
  P (k, v) -> Forall P m -> Forall P (mapSet k v m).
Proof.
  intros Hk. induction 1 as [|[k' v'] m Hx Hm IH]; cbn [mapSet].
  - now repeat constructor.
  - destruct (String.eqb_spec k k') as [<- | Hne]; constructor; assumption.
Qed.

Lemma uniqueEdges_spec (es : list (nat * nat)) (P : nat * nat -> Prop) :
  Forall P es ->
  NoDup (map fst (uniqueEdges es))
  /\ Forall keyedByEdge (uniqueEdges es)
  /\ Forall P (mapValues (uniqueEdges es)).
Proof.
  unfold uniqueEdges, mapValues. intros HP.
  assert (G : forall m : list (string * (nat * nat)),
             NoDup (map fst m) /\ Forall keyedByEdge m
             /\ Forall P (map snd m) ->
             let m' := fold_left
                         (fun m e => mapSet (edgeKey (fst e) (snd e)) e m)
                         es m in
             NoDup (map fst m') /\ Forall keyedByEdge m'
             /\ Forall P (map snd m')).
  { induction HP as [|e es He _ IH]; intros m Hm; cbn [fold_left];
      [exact Hm|].
    apply IH. destruct Hm as [Hn [Hk Hp]]. repeat split.
    - now apply mapSet_NoDup.
    - apply mapSet_entries; [reflexivity | assumption].
    - apply Forall_map.
      apply (mapSet_entries (fun entry => P (snd entry)));
        [exact He | now apply Forall_map]. }
  apply (G []). repeat split; constructor.
Qed.

Lemma edgeKey_unordered (e1 e2 : nat * nat) :
  sameUnorderedPair e1 e2 ->
  edgeKey (fst e1) (snd e1) = edgeKey (fst e2) (snd e2).
Proof.
  unfold edgeKey. intros [[-> ->] | [-> ->]]; [reflexivity|].
  now rewrite Nat.min_comm, Nat.max_comm.
Qed.

Lemma createWallGraph_spec (wallPaths : list Path) :
  exists ns,
    rectify (nodes (buildGraph wallPaths)) (edges (buildGraph wallPaths))
    = Some ns
    /\ length ns = length (nodes (buildGraph wallPaths))
    /\ createWallGraph wallPaths
       = Some {| nodes := ns;
                 edges := mapValues
                            (uniqueEdges (edges (buildGraph wallPaths))) |}.
Proof.
  destruct (buildGraph_invariant wallPaths) as [Hv _].
  destruct (rectify_total _ _ Hv) as [ns [E Hl]].
  exists ns. unfold createWallGraph. rewrite E. now repeat split.
Qed.

(** C8: [createWallGraph] returns a graph, and every edge of it joins two
    different node indices. *)
Theorem C8_no_self_loops (wallPaths : list Path) :
  exists g : WallGraph,
    createWallGraph wallPaths = Some g
    /\ forall e : nat * nat, In e (edges g) -> fst e <> snd e.
Proof.
  destruct (createWallGraph_spec wallPaths) as [ns [_ [_ E]]].
  eexists. split; [exact E|]. cbn [edges].
  destruct (buildGraph_invariant wallPaths) as [_ Hl].
  destruct (uniqueEdges_spec _ _ Hl) as [_ [_ H]].
  intros e He. rewrite Forall_forall in H. exact (H e He).
Qed.

(** C9: [createWallGraph] returns a graph, and no two entries of its edge
    list join the same unordered pair of node indices. *)
Theorem C9_edges_unique (wallPaths : list Path) :
  exists g : WallGraph,
    createWallGraph wallPaths = Some g
    /\ forall (a b : nat) (e1 e2 : nat * nat),
        a <> b ->
        nth_error (edges g) a = Some e1 ->
        nth_error (edges g) b = Some e2 ->
        ~ sameUnorderedPair e1 e2.
Proof.
  destruct (createWallGraph_spec wallPaths) as [ns [_ [_ E]]].
  eexists. split; [exact E|]. cbn [edges].
  set (m := uniqueEdges (edges (buildGraph wallPaths))).
  destruct (uniqueEdges_spec (edges (buildGraph wallPaths)) (fun _ => True))
    as [Hn [Hk _]]; [apply Forall_forall; trivial|]. fold m in Hn, Hk.
  intros a b e1 e2 Hab Ha Hb Hsame.
  apply edgeKey_unordered in Hsame.
  unfold mapValues in Ha, Hb.
  rewrite nth_error_map in Ha, Hb.
  destruct (nth_error m a) as [[k1 v1]|] eqn:Ea; [|discriminate].
  destruct (nth_error m b) as [[k2 v2]|] eqn:Eb; [|discriminate].
  cbn in Ha, Hb. injection Ha as ->. injection Hb as ->.
  rewrite Forall_forall in Hk.
  pose proof (Hk _ (nth_error_In _ _ Ea)) as K1.
  pose proof (Hk _ (nth_error_In _ _ Eb)) as K2.
  unfold keyedByEdge in K1, K2. cbn [fst snd] in K1, K2.
  apply Hab.
  apply (proj1 (NoDup_nth_error (map fst m)) Hn).
  - rewrite length_map. apply nth_error_Some. now rewrite Ea.
  - rewrite !nth_error_map, Ea, Eb. cbn. congruence.
Qed.

(** ** The merge of nearby points *)

Lemma distance_self (p : Point) : distance p p = 0.
Proof.
  unfold distance.
  replace ((x p - x p) ^ 2 + (y p - y p) ^ 2) with 0 by ring.
  apply sqrt_0.
Qed.

Lemma firstNodeWithin_grow (ns extra : list Point) (p : Point) (idx : nat) :
  firstNodeWithin ns p idx -> firstNodeWithin (ns ++ extra) p idx.
Proof.
  intros [Hlt [Hd Hmin]]. repeat split.
  - rewrite length_app. lia.
  - now rewrite app_nth1.
  - intros j Hj. rewrite app_nth1 by lia. now apply Hmin.
Qed.

Lemma firstNodeWithin_unique (ns : list Point) (p : Point) (i j : nat) :
  firstNodeWithin ns p i -> firstNodeWithin ns p j -> i = j.
Proof.
  intros [_ [Hi Hmi]] [_ [Hj Hmj]].
  destruct (Nat.lt_trichotomy i j) as [H | [H | H]]; [|assumption|].
  - specialize (Hmj i H). lra.
  - specialize (Hmi j H). lra.
Qed.

Lemma resolveNode_first (ns : list Point) (p : Point) :
  firstNodeWithin (snd (resolveNode ns p)) p (fst (resolveNode ns p)).
Proof.
  unfold resolveNode.
  destruct (findIndex _ ns) as [i|] eqn:E; cbn [fst snd].
  - apply (findIndex_Some _ _ origin) in E as [Hlt [Hf Hmin]].
    repeat split; [assumption | now apply Rltb_true |].
    intros j Hj. apply Rltb_false. now apply Hmin.
  - repeat split.
    + rewrite length_app. simpl. lia.
    + rewrite nth_middle, distance_self. unfold mergeDistance. lra.
    + intros j Hj. rewrite app_nth1 by assumption.
      apply Rltb_false.
      exact (findIndex_None _ _ origin E j Hj).
Qed.

Lemma addSegment_nodes (cleanedPoints : list Point) (g : WallGraph) (i : nat) :
  exists extra, nodes (addSegment cleanedPoints g i) = nodes g ++ extra.
Proof.
  unfold addSegment.
  pose proof (resolveNode_spec (nodes g) (nth i cleanedPoints origin)) as H1.
  destruct (resolveNode (nodes g) _) as [idx1 ns1].
  pose proof (resolveNode_spec ns1 (nth (i + 1) cleanedPoints origin)) as H2.
  destruct (resolveNode ns1 _) as [idx2 ns2].
  destruct H1 as [_ [ex1 ->]], H2 as [_ [ex2 ->]].
  exists (ex1 ++ ex2). cbn [nodes]. now rewrite app_assoc.
Qed.

Lemma fold_addSegment_nodes (cleanedPoints : list Point) (indices : list nat) :
  forall g : WallGraph,
    exists extra,
      nodes (fold_left (addSegment cleanedPoints) indices g)
      = nodes g ++ extra.
Proof.
  induction indices as [|i rest IH]; intros g; cbn [fold_left].
  - exists []. now rewrite app_nil_r.
  - destruct (IH (addSegment cleanedPoints g i)) as [ex2 ->].
    destruct (addSegment_nodes cleanedPoints g i) as [ex1 ->].
    exists (ex1 ++ ex2). now rewrite app_assoc.
Qed.

Lemma addPath_nodes (g : WallGraph) (path : Path) :
  exists extra, nodes (addPath g path) = nodes g ++ extra.
Proof.
  unfold addPath. destruct (segments path) as [points|].
  - apply fold_addSegment_nodes.
  - exists []. now rewrite app_nil_r.
Qed.

Lemma fold_addPath_nodes (wallPaths : list Path) :
  forall g : WallGraph,
    exists extra, nodes (fold_left addPath wallPaths g) = nodes g ++ extra.
Proof.
  induction wallPaths as [|path rest IH]; intros g; cbn [fold_left].
  - exists []. now rewrite app_nil_r.
  - destruct (IH (addPath g path)) as [ex2 ->].
    destruct (addPath_nodes g path) as [ex1 ->].
    exists (ex1 ++ ex2). now rewrite app_assoc.
Qed.

Lemma segmentAssignments_first (cleanedPoints : list Point) (g : WallGraph)
    (i : nat) (p : Point) (idx : nat) :
  In (p, idx) (segmentAssignments cleanedPoints g i) ->
  firstNodeWithin (nodes (addSegment cleanedPoints g i)) p idx.
Proof.
  unfold segmentAssignments, addSegment.
  pose proof (resolveNode_first (nodes g) (nth i cleanedPoints origin)) as F1.
  destruct (resolveNode (nodes g) _) as [idx1 ns1].
  pose proof (resolveNode_first ns1 (nth (i + 1) cleanedPoints origin)) as F2.
  pose proof (resolveNode_spec ns1 (nth (i + 1) cleanedPoints origin)) as S2.
  destruct (resolveNode ns1 _) as [idx2 ns2].
  cbn [fst snd nodes] in *. destruct S2 as [_ [ex2 ->]].
  intros [[= <- <-] | [[= <- <-] | []]].
  - now apply firstNodeWithin_grow.
  - assumption.
Qed.

Lemma assignmentsOver_first (cleanedPoints : list Point)
    (indices : list nat) (p : Point) (idx : nat) :
  forall g : WallGraph,
    In (p, idx) (assignmentsOver cleanedPoints g indices) ->
    firstNodeWithin
      (nodes (fold_left (addSegment cleanedPoints) indices g)) p idx.
Proof.
  induction indices as [|i rest IH]; intros g; cbn [assignmentsOver fold_left];
    [intros []|].
  intros H. apply in_app_or in H as [H | H].
  - apply segmentAssignments_first in H.
    destruct (fold_addSegment_nodes cleanedPoints rest
                (addSegment cleanedPoints g i)) as [extra ->].
    now apply firstNodeWithin_grow.
  - now apply IH.
Qed.

Lemma pathAssignments_first (g : WallGraph) (path : Path) (p : Point)
    (idx : nat) :
  In (p, idx) (pathAssignments g path) ->
  firstNodeWithin (nodes (addPath g path)) p idx.
Proof.
  unfold pathAssignments, addPath.
  destruct (segments path) as [points|]; [|intros []].
  apply assignmentsOver_first.
Qed.

Lemma assignmentsFrom_first (wallPaths : list Path) (p : Point) (idx : nat) :
  forall g : WallGraph,
    In (p, idx) (assignmentsFrom g wallPaths) ->
    firstNodeWithin (nodes (fold_left addPath wallPaths g)) p idx.
Proof.
  induction wallPaths as [|path rest IH]; intros g;
    cbn [assignmentsFrom fold_left]; [intros []|].
  intros H. apply in_app_or in H as [H | H].
  - apply pathAssignments_first in H.
    destruct (fold_addPath_nodes rest (addPath g path)) as [extra ->].
    now apply firstNodeWithin_grow.
  - now apply IH.
Qed.

(** The indices listed by [assignments] are the ones the builder uses: its
    edge list is the list of candidate edges without the self-loops. *)
Lemma segmentAssignments_edges (cleanedPoints : list Point) (g : WallGraph)
    (i : nat) (rest : list (Point * nat)) :
  edges (addSegment cleanedPoints g i)
  = edges g
    ++ filter (fun e => negb (isLoop e))
         (candidateEdges (segmentAssignments cleanedPoints g i))
  /\ candidateEdges (segmentAssignments cleanedPoints g i ++ rest)
     = candidateEdges (segmentAssignments cleanedPoints g i)
       ++ candidateEdges rest.
Proof.
  unfold segmentAssignments, addSegment.
  destruct (resolveNode (nodes g) _) as [idx1 ns1].
  destruct (resolveNode ns1 _) as [idx2 ns2].
  cbn [edges candidateEdges app snd filter]. unfold isLoop. cbn [fst snd].
  destruct (idx1 =? idx2)%nat; cbn [negb]; split;
    rewrite ?app_nil_r; reflexivity.
Qed.

Lemma assignmentsOver_edges (cleanedPoints : list Point)
    (indices : list nat) :
  forall (g : WallGraph) (rest : list (Point * nat)),
    edges (fold_left (addSegment cleanedPoints) indices g)
    = edges g
      ++ filter (fun e => negb (isLoop e))
           (candidateEdges (assignmentsOver cleanedPoints g indices))
    /\ candidateEdges (assignmentsOver cleanedPoints g indices ++ rest)
       = candidateEdges (assignmentsOver cleanedPoints g indices)
         ++ candidateEdges rest.
Proof.
  induction indices as [|i more IH]; intros g rest;
    cbn [fold_left assignmentsOver].
  - split; [now rewrite app_nil_r | reflexivity].
  - destruct (IH (addSegment cleanedPoints g i) rest) as [IH1 IH2].
    destruct (segmentAssignments_edges cleanedPoints g i
                (assignmentsOver cleanedPoints
                   (addSegment cleanedPoints g i) more)) as [S1 S2].
    destruct (segmentAssignments_edges cleanedPoints g i
                (assignmentsOver cleanedPoints
                   (addSegment cleanedPoints g i) more ++ rest)) as [_ S3].
    split.
    + rewrite IH1, S1, S2, filter_app. now rewrite app_assoc.
    + rewrite <- app_assoc, S3, IH2, S2. now rewrite app_assoc.
Qed.

Lemma assignmentsFrom_edges (wallPaths : list Path) :
  forall g : WallGraph,
    edges (fold_left addPath wallPaths g)
    = edges g
      ++ filter (fun e => negb (isLoop e))
           (candidateEdges (assignmentsFrom g wallPaths)).
Proof.
  induction wallPaths as [|path rest IH]; intros g;
    cbn [fold_left assignmentsFrom].
  - now rewrite app_nil_r.
  - rewrite IH. unfold addPath, pathAssignments.
    destruct (segments path) as [points|]; [|reflexivity].
    set (cleaned := removeColinearPoints points defaultAngleTolerance).
    destruct (assignmentsOver_edges cleaned (seq 0 (length cleaned - 1)) g
                (assignmentsFrom
                   (fold_left (addSegment cleaned)
                      (seq 0 (length cleaned - 1)) g) rest)) as [E1 E2].
    rewrite E1, E2, filter_app. now rewrite app_assoc.
Qed.

Lemma assignments_edges (wallPaths : list Path) :
  edges (buildGraph wallPaths)
  = filter (fun e => negb (isLoop e)) (candidateEdges (assignments wallPaths)).
Proof. apply assignmentsFrom_edges. Qed.

(** The merge test on the squared distance. *)
Lemma merge_test (n p : Point) :
  Rltb (distance n p) mergeDistance
  = Rltb ((x n - x p) ^ 2 + (y n - y p) ^ 2) 1600.
Proof.
  unfold distance, mergeDistance.
  set (s := (x n - x p) ^ 2 + (y n - y p) ^ 2).
  assert (Hs : 0 <= s).
  { pose proof (pow2_ge_0 (x n - x p)). pose proof (pow2_ge_0 (y n - y p)).
    unfold s. lra. }
  replace 40 with (sqrt 1600)
    by (replace 1600 with (40 * 40) by lra; apply sqrt_square; lra).
  destruct (Rlt_dec s 1600) as [H | H].
  - rewrite (proj2 (Rltb_true s 1600) H).
    apply Rltb_true. apply sqrt_lt_1; lra.
  - rewrite (proj2 (Rltb_false s 1600)) by lra.
    apply Rltb_false. apply sqrt_le_1; lra.
Qed.

(** Settles the comparisons of concrete numbers in the goal. *)
Ltac settle_comparisons :=
  repeat match goal with
    | |- context [Rltb ?a ?b] =>
        first [ rewrite (proj2 (Rltb_true a b)) by lra
              | rewrite (proj2 (Rltb_false a b)) by lra ]
    | |- context [Rleb ?a ?b] =>
        first [ rewrite (proj2 (Rleb_true a b)) by lra
              | rewrite (proj2 (Rleb_false a b)) by lra ]
    | |- context [Reqb ?a ?b] =>
        first [ rewrite (proj2 (Reqb_true a b)) by lra
              | rewrite (proj2 (Reqb_false a b)) by lra ]
    end.

(** Runs [resolveNode] on concrete nodes and a concrete point. *)
Ltac run_resolveNode :=
  unfold resolveNode; cbn [findIndex];
  rewrite ?merge_test; cbn [x y]; settle_comparisons;
  cbn [option_map length app].

Lemma forkStrokes_graph :
  buildGraph forkStrokes
  = {| nodes := [ {| x := 0; y := 0 |}; {| x := 50; y := 0 |};
                  {| x := 100; y := 100 |} ];
       edges := [ (0%nat, 1%nat); (0%nat, 2%nat) ] |}.
Proof.
  unfold buildGraph, forkStrokes. cbn [fold_left].
  unfold addPath at 2. cbn [segments].
  change (removeColinearPoints ?l _) with l.
  cbn [length Nat.sub seq fold_left].
  unfold addSegment. cbn [nth Nat.add nodes edges].
  run_resolveNode. run_resolveNode. cbn [Nat.eqb app].
  unfold addPath. cbn [segments].
  change (removeColinearPoints ?l _) with l.
  cbn [length Nat.sub seq fold_left].
  unfold addSegment. cbn [nth Nat.add nodes edges].
  run_resolveNode. run_resolveNode. reflexivity.
Qed.

Lemma forkStrokes_assignments :
  assignments forkStrokes
  = [ ({| x := 0; y := 0 |}, 0%nat); ({| x := 50; y := 0 |}, 1%nat);
      ({| x := 30; y := 0 |}, 0%nat); ({| x := 100; y := 100 |}, 2%nat) ].
Proof.
  unfold assignments, forkStrokes. cbn [assignmentsFrom].
  unfold pathAssignments at 1. cbn [segments].
  change (removeColinearPoints ?l _) with l.
  cbn [length Nat.sub seq assignmentsOver].
  unfold segmentAssignments. cbn [nth Nat.add nodes edges].
  run_resolveNode. run_resolveNode. cbn [app].
  unfold addPath. cbn [segments].
  change (removeColinearPoints ?l _) with l.
  cbn [length Nat.sub seq fold_left].
  unfold addSegment. cbn [nth Nat.add nodes edges].
  run_resolveNode. run_resolveNode. cbn [Nat.eqb app].
  unfold pathAssignments. cbn [segments].
  change (removeColinearPoints ?l _) with l.
  cbn [length Nat.sub seq assignmentsOver].
  unfold segmentAssignments. cbn [nth Nat.add nodes edges].
  run_resolveNode. run_resolveNode. reflexivity.
Qed.

(** C2, as stated, fails: the end (50, 0) of the first stroke and the start
    (30, 0) of the second are 20 pixels apart, less than the merge distance
    of 40, yet the first is node 1 and the second is merged into node 0,
    the first node within reach; the second wall leaves from node 0. *)
Lemma C2_close_points_get_different_nodes :
  assignments forkStrokes
  = [ ({| x := 0; y := 0 |}, 0%nat); ({| x := 50; y := 0 |}, 1%nat);
      ({| x := 30; y := 0 |}, 0%nat); ({| x := 100; y := 100 |}, 2%nat) ]
  /\ distance {| x := 50; y := 0 |} {| x := 30; y := 0 |} < mergeDistance
  /\ edges (buildGraph forkStrokes) = [ (0%nat, 1%nat); (0%nat, 2%nat) ].
Proof.
  split; [exact forkStrokes_assignments|]. split.
  - apply Rltb_true. rewrite merge_test. cbn [x y]. apply Rltb_true. lra.
  - now rewrite forkStrokes_graph.
Qed.

(** C2, amended: every raw point is given the index of the first node, in
    insertion order, that lies strictly within the merge distance of it (the
    nodes taken where the builder placed them); so two raw points are given
    the same index whenever each of them lies within the merge distance of
    the node given to the other.  The indices are the ones the edges are
    built from. *)
Theorem C2_first_node_within_merge_distance (wallPaths : list Path)
    (p q : Point) (i j : nat) :
  In (p, i) (assignments wallPaths) ->
  In (q, j) (assignments wallPaths) ->
  let ns := nodes (buildGraph wallPaths) in
  firstNodeWithin ns p i
  /\ firstNodeWithin ns q j
  /\ (distance (nth i ns origin) q < mergeDistance ->
      distance (nth j ns origin) p < mergeDistance -> i = j)
  /\ edges (buildGraph wallPaths)
     = filter (fun e => negb (isLoop e))
         (candidateEdges (assignments wallPaths)).
Proof.
  intros Hp Hq ns.
  apply assignmentsFrom_first in Hp, Hq. fold (buildGraph wallPaths) in Hp, Hq.
  fold ns in Hp, Hq. split; [assumption|]. split; [assumption|].
  split; [|apply assignments_edges].
  intros Hiq Hjp.
  destruct Hp as [_ [_ Hmi]], Hq as [_ [_ Hmj]].
  destruct (Nat.lt_trichotomy i j) as [H | [H | H]]; [|assumption|].
  - specialize (Hmj i H). lra.
  - specialize (Hmi j H). lra.
Qed.

(** In the two strokes above, (0, 0) and (30, 0) are both given node 0. *)
Lemma C2_fork_witness :
  let ns := nodes (buildGraph forkStrokes) in
  firstNodeWithin ns {| x := 0; y := 0 |} 0
  /\ firstNodeWithin ns {| x := 30; y := 0 |} 0
  /\ (distance (nth 0 ns origin) {| x := 30; y := 0 |} < mergeDistance ->
      distance (nth 0 ns origin) {| x := 0; y := 0 |} < mergeDistance ->
      0%nat = 0%nat)
  /\ edges (buildGraph forkStrokes)
     = filter (fun e => negb (isLoop e))
         (candidateEdges (assignments forkStrokes)).
Proof.
  apply (C2_first_node_within_merge_distance forkStrokes
           {| x := 0; y := 0 |} {| x := 30; y := 0 |} 0 0).
  - rewrite forkStrokes_assignments. left. reflexivity.
  - rewrite forkStrokes_assignments. right. right. left. reflexivity.
Defined.

(** ** AxisRectifier *)

(** *** Angles *)

Lemma sin_lower (a : R) : 0 <= a <= PI -> a - a * a * a / 6 <= sin a.
Proof.
  intros [H1 H2]. destruct (sin_bound a 0 H1 H2) as [L _].
  unfold sin_approx, sin_term in L. simpl in L. lra.
Qed.

Lemma tan_PI18_lower : 4 / 25 < tan (PI / 18).
Proof.
  pose proof PI_4. pose proof PI2_3_2.
  pose proof cos_PI18_bounds as [Hc1 Hc2].
  pose proof (COS_bound (PI / 18)) as [_ Hc3].
  assert (Hs : 4 / 25 < sin (PI / 18)).
  { apply Rlt_le_trans with (sin (1 / 6)).
    - pose proof (sin_lower (1 / 6)). lra.
    - apply sin_incr_1; lra. }
  unfold tan.
  apply Rlt_le_trans with (sin (PI / 18)); [assumption|].
  apply Rmult_le_reg_r with (cos (PI / 18)); [lra|].
  unfold Rdiv. rewrite Rmult_assoc, Rinv_l by lra. nra.
Qed.

(** A slope of at most 0.16 is an angle of at most ten degrees. *)
Lemma small_slope_angle (t : R) :
  0 <= t <= 4 / 25 -> 0 <= atan t * (180 / PI) <= 10.
Proof.
  intros [H0 H1]. pose proof PI_RGT_0 as Hpi. pose proof PI_4.
  assert (Ha0 : 0 <= atan t).
  { destruct H0 as [H0 | <-]; [|rewrite atan_0; lra].
    left. rewrite <- atan_0. now apply atan_increasing. }
  assert (Ha1 : atan t < PI / 18).
  { rewrite <- (atan_tan (PI / 18)) by lra.
    apply atan_increasing. pose proof tan_PI18_lower. lra. }
  assert (E : atan t * (180 / PI) = 180 * (atan t / PI)) by (field; lra).
  assert (Hr : 0 <= atan t / PI < / 18).
  { split.
    - apply Rmult_le_pos; [lra|]. left. now apply Rinv_0_lt_compat.
    - apply Rmult_lt_reg_r with PI; [lra|]. unfold Rdiv.
      rewrite Rmult_assoc, Rinv_l by lra. lra. }
  lra.
Qed.

Lemma Int_part_unit (r : R) (z : Z) :
  IZR z <= r < IZR z + 1 -> Int_part r = z.
Proof. intros H. symmetry. apply Int_part_spec. lra. Qed.

Lemma Rtrunc_unit (r : R) (z : Z) :
  0 <= IZR z <= r -> r < IZR z + 1 -> Rtrunc r = IZR z.
Proof.
  intros H1 H2. unfold Rtrunc.
  rewrite (proj2 (Rleb_true 0 r)) by lra.
  now rewrite (Int_part_unit r z) by lra.
Qed.

Lemma normalizeAngle_nonneg (a : R) : 0 <= a < 360 -> normalizeAngle a = a.
Proof.
  intros H. unfold normalizeAngle, jsRem.
  rewrite (Rtrunc_unit (a / 360) 0) by lra.
  replace (a - 360 * 0 + 360) with (a + 360) by lra.
  rewrite (Rtrunc_unit ((a + 360) / 360) 1) by lra.
  lra.
Qed.

Lemma normalizeAngle_neg (a : R) :
  -360 < a < 0 -> normalizeAngle a = a + 360.
Proof.
  intros H. unfold normalizeAngle, jsRem.
  assert (E : Rtrunc (a / 360) = 0).
  { unfold Rtrunc. rewrite (proj2 (Rleb_false 0 (a / 360))) by lra.
    rewrite (Int_part_unit (- (a / 360)) 0) by lra. lra. }
  rewrite E.
  replace (a - 360 * 0 + 360) with (a + 360) by lra.
  rewrite (Rtrunc_unit ((a + 360) / 360) 0) by lra.
  lra.
Qed.

Lemma Rabs_le_iff (a b : R) : Rabs a <= b <-> - b <= a <= b.
Proof. unfold Rabs. destruct (Rcase_abs a); lra. Qed.

Lemma isNearHorizontal_iff (a : R) :
  isNearHorizontal a = true <-> a <= 10 \/ 350 <= a \/ 170 <= a <= 190.
Proof.
  unfold isNearHorizontal, snapTolerance.
  rewrite !orb_true_iff, !Rleb_true, Rabs_le_iff. lra.
Qed.

Lemma isNearVertical_iff (a : R) :
  isNearVertical a = true <-> 80 <= a <= 100 \/ 260 <= a <= 280.
Proof.
  unfold isNearVertical, snapTolerance.
  rewrite !orb_true_iff, !Rleb_true, !Rabs_le_iff. lra.
Qed.

(** At a tolerance of ten degrees no angle is both. *)
Lemma near_vertical_not_horizontal (a : R) :
  isNearVertical a = true -> isNearHorizontal a = false.
Proof.
  intros H. apply isNearVertical_iff in H.
  apply not_true_is_false. rewrite isNearHorizontal_iff. lra.
Qed.

(** An edge that runs to the right and rises by at most 0.16 per pixel is
    near-horizontal. *)
Lemma isNearHorizontal_small_slope (n1 n2 : Point) :
  0 < x n2 - x n1 ->
  0 <= y n2 - y n1 <= 4 / 25 * (x n2 - x n1) ->
  isNearHorizontal (edgeAngle n1 n2) = true.
Proof.
  intros Hx Hy. unfold edgeAngle, atan2.
  rewrite (proj2 (Rltb_true 0 (x n2 - x n1))) by assumption.
  set (t := (y n2 - y n1) / (x n2 - x n1)).
  assert (Ht : 0 <= t <= 4 / 25).
  { unfold t. split.
    - apply Rmult_le_pos; [lra|]. left. now apply Rinv_0_lt_compat.
    - apply Rmult_le_reg_r with (x n2 - x n1); [lra|]. unfold Rdiv.
      rewrite Rmult_assoc, Rinv_l by lra. lra. }
  pose proof (small_slope_angle t Ht) as Ha.
  rewrite normalizeAngle_nonneg by lra.
  apply isNearHorizontal_iff. lra.
Qed.

(** An edge that runs straight up is near-vertical and not near-horizontal. *)
Lemma edgeAngle_up (n1 n2 : Point) :
  x n2 - x n1 = 0 -> 0 < y n2 - y n1 -> edgeAngle n1 n2 = 90.
Proof.
  intros Hx Hy. unfold edgeAngle, atan2. rewrite Hx.
  rewrite (proj2 (Rltb_false 0 0)) by lra.
  rewrite (proj2 (Rltb_true 0 (y n2 - y n1))) by assumption.
  replace (PI / 2 * (180 / PI)) with 90 by (field; apply PI_neq0).
  apply normalizeAngle_nonneg. lra.
Qed.

(** *** One edge of the pass *)

Lemma nth_error_modify {A : Type} (i : nat) (f : A -> A) (l : list A)
    (k : nat) :
  nth_error (modify i f l) k
  = if (i =? k)%nat then option_map f (nth_error l k) else nth_error l k.
Proof.
  revert i k; induction l as [|a l IH]; intros [|i] [|k]; cbn;
    try reflexivity.
  - now destruct (i =? k)%nat.
  - apply IH.
Qed.

Lemma rectifyEdge_snapOf (ns ns' : list Point) (e : nat * nat) :
  rectifyEdge ns e = Some ns' ->
  exists n1 n2 : Point,
    nth_error ns (fst e) = Some n1 /\ nth_error ns (snd e) = Some n2
    /\ ns' = match snapOf ns e with
             | SnapY =>
                 let avgY := (y n1 + y n2) / 2 in
                 modify (snd e) (setY avgY) (modify (fst e) (setY avgY) ns)
             | SnapX =>
                 let avgX := (x n1 + x n2) / 2 in
                 modify (snd e) (setX avgX) (modify (fst e) (setX avgX) ns)
             | NoSnap => ns
             end.
Proof.
  destruct e as [i j]. unfold rectifyEdge, snapOf. cbn [fst snd].
  destruct (nth_error ns i) as [n1|]; [|discriminate].
  destruct (nth_error ns j) as [n2|]; [|discriminate].
  intros H. exists n1, n2. repeat split.
  destruct (isNearHorizontal _); [|destruct (isNearVertical _)];
    now injection H as <-.
Qed.

(** What an edge of the pass does to the node at index [k]. *)
Lemma rectifyEdge_nth (ns ns' : list Point) (e : nat * nat) (k : nat)
    (n : Point) :
  rectifyEdge ns e = Some ns' ->
  nth_error ns k = Some n ->
  exists n' : Point,
    nth_error ns' k = Some n'
    /\ (snapOf ns e <> SnapY \/ (k <> fst e /\ k <> snd e) -> y n' = y n)
    /\ (snapOf ns e <> SnapX \/ (k <> fst e /\ k <> snd e) -> x n' = x n).
Proof.
  intros H Hk. apply rectifyEdge_snapOf in H as [n1 [n2 [_ [_ ->]]]].
  destruct (snapOf ns e); cbv zeta.
  - rewrite !nth_error_modify, Hk.
    destruct (Nat.eqb_spec (snd e) k) as [E2 | E2];
      destruct (Nat.eqb_spec (fst e) k) as [E1 | E1]; cbn;
      eexists; (split; [reflexivity|]); cbn;
      split; try reflexivity; intros [F | [F1 F2]]; congruence.
  - rewrite !nth_error_modify, Hk.
    destruct (Nat.eqb_spec (snd e) k) as [E2 | E2];
      destruct (Nat.eqb_spec (fst e) k) as [E1 | E1]; cbn;
      eexists; (split; [reflexivity|]); cbn;
      split; try reflexivity; intros [F | [F1 F2]]; congruence.
  - exists n. repeat split; assumption.
Qed.

(** Right after its own step the edge is aligned. *)
Lemma rectifyEdge_aligns (ns ns' : list Point) (e : nat * nat) :
  rectifyEdge ns e = Some ns' -> alignedAt (snapOf ns e) ns' e.
Proof.
  intros H. apply rectifyEdge_snapOf in H as [n1 [n2 [H1 [H2 ->]]]].
  unfold alignedAt. destruct (snapOf ns e); cbv zeta.
  - rewrite !nth_error_modify, H1, H2.
    destruct (snd e =? fst e)%nat, (fst e =? snd e)%nat;
      rewrite ?Nat.eqb_refl; cbn; eexists; eexists; repeat split.
  - rewrite !nth_error_modify, H1, H2.
    destruct (snd e =? fst e)%nat, (fst e =? snd e)%nat;
      rewrite ?Nat.eqb_refl; cbn; eexists; eexists; repeat split.
  - exists n1, n2. repeat split; assumption.
Qed.

Lemma sharesNode_dec (e e' : nat * nat) :
  sharesNode e e'
  \/ (fst e <> fst e' /\ fst e <> snd e' /\ snd e <> fst e' /\ snd e <> snd e').
Proof. unfold sharesNode. lia. Qed.

(** A later edge keeps the alignment unless it shares a node and takes the
    same branch. *)
Lemma rectifyEdge_keeps_alignment (s : Snap) (ns ns' : list Point)
    (e e' : nat * nat) :
  rectifyEdge ns e' = Some ns' ->
  (sharesNode e e' -> snapOf ns e' <> s) ->
  alignedAt s ns e -> alignedAt s ns' e.
Proof.
  intros H Hs [m1 [m2 [H1 [H2 Hc]]]].
  destruct (rectifyEdge_nth _ _ _ _ _ H H1) as [m1' [H1' [Hy1 Hx1]]].
  destruct (rectifyEdge_nth _ _ _ _ _ H H2) as [m2' [H2' [Hy2 Hx2]]].
  exists m1', m2'. split; [assumption|]. split; [assumption|].
  destruct (sharesNode_dec e e') as [Hsh | [F1 [F2 [F3 F4]]]].
  - specialize (Hs Hsh).
    destruct s; cbn [coordOf] in *; [| |reflexivity].
    + rewrite Hy1, Hy2 by (left; assumption). assumption.
    + rewrite Hx1, Hx2 by (left; assumption). assumption.
  - destruct s; cbn [coordOf] in *; [| |reflexivity].
    + rewrite Hy1, Hy2 by (right; split; assumption). assumption.
    + rewrite Hx1, Hx2 by (right; split; assumption). assumption.
Qed.

(** *** The whole pass *)

Lemma rectify_app (pre post : list (nat * nat)) :
  forall ns mid : list Point,
    rectify ns pre = Some mid ->
    rectify ns (pre ++ post) = rectify mid post.
Proof.
  induction pre as [|e pre IH]; intros ns mid; cbn [rectify app].
  - now intros [= ->].
  - destruct (rectifyEdge ns e) as [ns1|]; [apply IH | discriminate].
Qed.

Lemma rectify_keeps_alignment (s : Snap) (e : nat * nat)
    (post : list (nat * nat)) :
  forall cur final : list Point,
    rectify cur post = Some final ->
    undisturbed s e cur post ->
    alignedAt s cur e -> alignedAt s final e.
Proof.
  induction post as [|e' post IH]; intros cur final; cbn [rectify undisturbed].
  - now intros [= ->].
  - destruct (rectifyEdge cur e') as [cur'|] eqn:E; [|discriminate].
    intros Hr [Hs Hu] Ha. apply (IH cur'); try assumption.
    now apply (rectifyEdge_keeps_alignment s cur cur' e e').
Qed.

(** C3, amended: an edge that is classified near-horizontal when the pass
    reaches it has identical y on both endpoints at the end of the pass,
    provided no edge processed after it that shares a node with it is
    itself classified near-horizontal; the same for near-vertical and x.
    ([mid] is the node store when the pass reaches [e], [mid'] the store
    right after the step of [e], [final] the store at the end.) *)
Theorem C3_snapped_edge_stays_aligned (ns : list Point)
    (pre post : list (nat * nat)) (e : nat * nat)
    (mid mid' final : list Point) :
  rectify ns pre = Some mid ->
  rectifyEdge mid e = Some mid' ->
  rectify mid' post = Some final ->
  undisturbed (snapOf mid e) e mid' post ->
  rectify ns (pre ++ e :: post) = Some final
  /\ exists n1 n2 m1 m2 : Point,
      nth_error mid (fst e) = Some n1 /\ nth_error mid (snd e) = Some n2
      /\ nth_error final (fst e) = Some m1
      /\ nth_error final (snd e) = Some m2
      /\ (isNearHorizontal (edgeAngle n1 n2) = true -> y m1 = y m2)
      /\ (isNearVertical (edgeAngle n1 n2) = true -> x m1 = x m2).
Proof.
  intros Hpre He Hpost Hu. split.
  - rewrite (rectify_app pre (e :: post) ns mid Hpre).
    cbn [rectify]. now rewrite He.
  - pose proof (rectifyEdge_aligns _ _ _ He) as Ha.
    apply (rectify_keeps_alignment _ _ _ _ _ Hpost Hu) in Ha.
    destruct Ha as [m1 [m2 [H1 [H2 Hc]]]].
    destruct (rectifyEdge_snapOf _ _ _ He) as [n1 [n2 [N1 [N2 _]]]].
    exists n1, n2, m1, m2. repeat split; try assumption.
    + intros Hh. unfold snapOf in Hc. rewrite N1, N2, Hh in Hc. exact Hc.
    + intros Hv. unfold snapOf in Hc.
      rewrite N1, N2, (near_vertical_not_horizontal _ Hv), Hv in Hc.
      exact Hc.
Qed.

(** *** The corner and the two skew strokes *)

Lemma list3_eq {A : Type} (a b c a' b' c' : A) :
  a = a' -> b = b' -> c = c' -> [a; b; c] = [a'; b'; c'].
Proof. now intros -> -> ->. Qed.

Lemma corner_first_step :
  rectifyEdge cornerNodes (0%nat, 1%nat)
  = Some [ {| x := 0; y := 1 |}; {| x := 100; y := 1 |};
           {| x := 100; y := 100 |} ].
Proof.
  unfold rectifyEdge, cornerNodes. cbn [nth_error].
  rewrite isNearHorizontal_small_slope by (cbn [x y]; lra).
  cbn [modify]; unfold setY; cbn [x y]. f_equal.
  apply list3_eq; try reflexivity; apply mkPt_eq; lra.
Qed.

Lemma corner_second_edge_snap :
  snapOf [ {| x := 0; y := 1 |}; {| x := 100; y := 1 |};
           {| x := 100; y := 100 |} ] (1%nat, 2%nat) = SnapX.
Proof.
  unfold snapOf. cbn [fst snd nth_error].
  rewrite edgeAngle_up by (cbn [x y]; lra).
  rewrite near_vertical_not_horizontal by (apply isNearVertical_iff; lra).
  now rewrite (proj2 (isNearVertical_iff 90)) by lra.
Qed.

Lemma corner_second_step :
  rectifyEdge [ {| x := 0; y := 1 |}; {| x := 100; y := 1 |};
                {| x := 100; y := 100 |} ] (1%nat, 2%nat)
  = Some [ {| x := 0; y := 1 |}; {| x := 100; y := 1 |};
           {| x := 100; y := 100 |} ].
Proof.
  unfold rectifyEdge. cbn [nth_error].
  rewrite edgeAngle_up by (cbn [x y]; lra).
  rewrite near_vertical_not_horizontal by (apply isNearVertical_iff; lra).
  rewrite (proj2 (isNearVertical_iff 90)) by lra.
  cbn [modify]; unfold setX; cbn [x y]. f_equal.
  apply list3_eq; try reflexivity; apply mkPt_eq; lra.
Qed.

(** The corner: the first edge is snapped to y = 1; the second edge shares
    node 1 with it but is near-vertical, and leaves the y alone. *)
Lemma C3_corner_witness :
  rectify cornerNodes ([] ++ (0%nat, 1%nat) :: [ (1%nat, 2%nat) ])
  = Some [ {| x := 0; y := 1 |}; {| x := 100; y := 1 |};
           {| x := 100; y := 100 |} ]
  /\ exists n1 n2 m1 m2 : Point,
      nth_error cornerNodes 0 = Some n1 /\ nth_error cornerNodes 1 = Some n2
      /\ nth_error [ {| x := 0; y := 1 |}; {| x := 100; y := 1 |};
                     {| x := 100; y := 100 |} ] 0 = Some m1
      /\ nth_error [ {| x := 0; y := 1 |}; {| x := 100; y := 1 |};
                     {| x := 100; y := 100 |} ] 1 = Some m2
      /\ (isNearHorizontal (edgeAngle n1 n2) = true -> y m1 = y m2)
      /\ (isNearVertical (edgeAngle n1 n2) = true -> x m1 = x m2).
Proof.
  apply (C3_snapped_edge_stays_aligned cornerNodes [] [ (1%nat, 2%nat) ]
           (0%nat, 1%nat) cornerNodes
           [ {| x := 0; y := 1 |}; {| x := 100; y := 1 |};
             {| x := 100; y := 100 |} ]).
  - reflexivity.
  - exact corner_first_step.
  - cbn [rectify]. now rewrite corner_second_step.
  - cbn [undisturbed]. split; [|now rewrite corner_second_step].
    intros _. rewrite corner_second_edge_snap.
    unfold snapOf, cornerNodes. cbn [fst snd nth_error].
    rewrite isNearHorizontal_small_slope by (cbn [x y]; lra).
    discriminate.
Defined.

Lemma skewStrokes_graph :
  buildGraph skewStrokes
  = {| nodes := [ {| x := 0; y := 0 |}; {| x := 100; y := 0 |};
                  {| x := 200; y := 2 |} ];
       edges := [ (0%nat, 1%nat); (1%nat, 2%nat) ] |}.
Proof.
  unfold buildGraph, skewStrokes. cbn [fold_left].
  unfold addPath at 2. cbn [segments].
  change (removeColinearPoints ?l _) with l.
  cbn [length Nat.sub seq fold_left].
  unfold addSegment. cbn [nth Nat.add nodes edges].
  run_resolveNode. run_resolveNode. cbn [Nat.eqb app].
  unfold addPath. cbn [segments].
  change (removeColinearPoints ?l _) with l.
  cbn [length Nat.sub seq fold_left].
  unfold addSegment. cbn [nth Nat.add nodes edges].
  run_resolveNode. run_resolveNode. reflexivity.
Qed.

Lemma skewStrokes_rectified :
  rectify [ {| x := 0; y := 0 |}; {| x := 100; y := 0 |};
            {| x := 200; y := 2 |} ] [ (0%nat, 1%nat); (1%nat, 2%nat) ]
  = Some [ {| x := 0; y := 0 |}; {| x := 100; y := 1 |};
           {| x := 200; y := 1 |} ].
Proof.
  cbn [rectify]. unfold rectifyEdge at 1. cbn [nth_error].
  rewrite isNearHorizontal_small_slope by (cbn [x y]; lra).
  cbn [modify]; unfold setY; cbn [x y].
  unfold rectifyEdge. cbn [nth_error].
  rewrite isNearHorizontal_small_slope by (cbn [x y]; lra).
  cbn [modify]; unfold setY; cbn [x y]. f_equal.
  apply list3_eq; apply mkPt_eq; lra.
Qed.

(** C3, as stated, fails: the first wall is classified near-horizontal and
    snapped; the second wall shares node 1 with it, is near-horizontal too,
    and moves node 1 to y = 1.  At the end the first edge, still
    near-horizontal, joins a node at y = 0 and a node at y = 1. *)
Lemma C3_later_edge_breaks_alignment :
  buildGraph skewStrokes
  = {| nodes := [ {| x := 0; y := 0 |}; {| x := 100; y := 0 |};
                  {| x := 200; y := 2 |} ];
       edges := [ (0%nat, 1%nat); (1%nat, 2%nat) ] |}
  /\ isNearHorizontal
       (edgeAngle {| x := 0; y := 0 |} {| x := 100; y := 0 |}) = true
  /\ createWallGraph skewStrokes
     = Some {| nodes := [ {| x := 0; y := 0 |}; {| x := 100; y := 1 |};
                          {| x := 200; y := 1 |} ];
               edges := [ (0%nat, 1%nat); (1%nat, 2%nat) ] |}
  /\ isNearHorizontal
       (edgeAngle {| x := 0; y := 0 |} {| x := 100; y := 1 |}) = true
  /\ y {| x := 0; y := 0 |} <> y {| x := 100; y := 1 |}.
Proof.
  split; [exact skewStrokes_graph|].
  split; [apply isNearHorizontal_small_slope; cbn [x y]; lra|].
  split.
  - unfold createWallGraph. rewrite skewStrokes_graph. cbn [nodes edges].
    rewrite skewStrokes_rectified. reflexivity.
  - split; [apply isNearHorizontal_small_slope; cbn [x y]; lra|].
    cbn [y]. lra.
Qed.

(** *** Zero-length edges *)





(** ** Further properties *)

Lemma createWallGraph_valid (wallPaths : list Path) :
  exists g : WallGraph,
    createWallGraph wallPaths = Some g /\ validEdges g.
Proof.
  destruct (createWallGraph_spec wallPaths) as [ns [_ [Hl E]]].
  eexists. split; [exact E|].
  destruct (buildGraph_invariant wallPaths) as [Hv _].
  unfold validEdges in *. cbn [nodes edges]. rewrite Hl.
  exact (proj2 (proj2 (uniqueEdges_spec _ _ Hv))).
Qed.

Lemma wallsFrom_total {ns : list (Pt JsNum)} (es : list (nat * nat)) :
  Forall (fun e => (fst e < length ns)%nat /\ (snd e < length ns)%nat) es ->
  forall idx : nat,
    exists ws, wallsFrom ns idx es = Some ws /\ length ws = length es.
Proof.
  induction 1 as [|[i j] es [Hi Hj] _ IH]; intros idx; cbn [wallsFrom].
  - now exists [].
  - cbn [fst snd] in Hi, Hj.
    destruct (nth_error ns i) as [n1|] eqn:E1;
      [|apply nth_error_None in E1; lia].
    destruct (nth_error ns j) as [n2|] eqn:E2;
      [|apply nth_error_None in E2; lia].
    destruct (IH (S idx)) as [ws [-> Hl]].
    eexists. split; [reflexivity|]. cbn [length]. now rewrite Hl.
Qed.

Lemma scaleStep_shape (dimensionData : option DimensionData) (len : JsNum)
    (g : WallGraph) (ds : list (Door R)) :
  length (nodes (fst (scaleStep dimensionData len g ds))) = length (nodes g)
  /\ edges (fst (scaleStep dimensionData len g ds)) = edges g.
Proof.
  unfold scaleStep, scaleToRealWorld, unscaledGraph.
  destruct (testedDimensionValue dimensionData);
    cbn [fst Scaled.wallGraph nodes edges]; now rewrite length_map.
Qed.

(** [send] builds [finalJSON] exactly when it has a key and the dimension
    request does not reject.  Without a key (undefined or empty) it returns
    before anything is computed; a rejected request ends in its [catch]; and
    whenever the request resolves, to whatever answer, none of the geometry
    steps raises: [finalJSON] is built, with one wall for every edge of the
    wall graph and one door, carrying its raw endpoints, for every door
    stroke of at least two points. *)
Theorem send_builds_unless_the_request_fails
    (recognize : string -> list (list Point) -> Recognition)
    (apiKey : option string) (wallPaths doorPaths dimsPath : list Path) :
  (apiKey = None \/ apiKey = Some ""%string ->
   send recognize apiKey wallPaths doorPaths dimsPath = NoApiKey)
  /\ (forall key : string,
        apiKey = Some key -> key <> ""%string ->
        extractDimensionNumber recognize dimsPath key = Rejected ->
        send recognize apiKey wallPaths doorPaths dimsPath = Caught)
  /\ (forall (key : string) (dimensionData : option DimensionData),
        apiKey = Some key -> key <> ""%string ->
        extractDimensionNumber recognize dimsPath key
        = Resolved dimensionData ->
        exists (g : WallGraph) (json : FinalJSON),
          createWallGraph wallPaths = Some g
          /\ send recognize apiKey wallPaths doorPaths dimsPath = Built json
          /\ length (walls json) = length (edges g)
          /\ map original (doors json) = rawEndpoints doorPaths).
Proof.
  split; [|split].
  - intros [-> | ->]; reflexivity.
  - intros key -> Hkey E. unfold send.
    now rewrite (proj2 (String.eqb_neq key "") Hkey), E.
  - intros key dimensionData -> Hkey E.
    destruct (createWallGraph_valid wallPaths) as [g [Eg Hv]].
    destruct (findDoorsFrom_total g Hv doorPaths []) as [ds Ed].
    pose proof (scaleStep_shape dimensionData
                  (referenceLength dimsPath) g ds) as [Hn He].
    pose proof (scaleStep_original dimensionData
                  (referenceLength dimsPath) g ds) as Ho.
    unfold send. rewrite (proj2 (String.eqb_neq key "") Hkey), E, Eg.
    unfold findDoors. rewrite Ed.
    destruct (scaleStep _ _ g ds) as [g' ds']. cbn [fst snd] in *.
    destruct (@wallsFrom_total (nodes g') (edges g')) with (idx := 0%nat)
      as [ws [Ew Hl]].
    { rewrite He, Hn. exact Hv. }
    rewrite Ew. exists g. eexists. split; [reflexivity|].
    split; [reflexivity|]. cbn [walls doors]. split; [congruence|].
    rewrite Ho. exact (findDoorsFrom_original _ _ _ _ Ed).
Qed.

(** A wall stroke without segments, or with fewer than two points, adds
    nothing to the graph. *)
Theorem short_stroke_is_skipped (g : WallGraph) (p : Point) :
  addPath g {| segments := None |} = g
  /\ addPath g {| segments := Some [] |} = g
  /\ addPath g {| segments := Some [p] |} = g.
Proof. repeat split. Qed.

(** Example 1 of the specification: the stroke (0,0), (5,1), (10,0) bends
    by more than ten degrees at its middle point and keeps all three. *)
Theorem example_bend_is_kept :
  removeColinearPoints
    [ {| x := 0; y := 0 |}; {| x := 5; y := 1 |}; {| x := 10; y := 0 |} ]
    defaultAngleTolerance
  = [ {| x := 0; y := 0 |}; {| x := 5; y := 1 |}; {| x := 10; y := 0 |} ].
Proof.
  unfold removeColinearPoints, cleanedAfter.
  cbn [length Nat.leb Nat.sub seq fold_left].
  unfold simplifyStep. cbn [last nth Nat.add].
  replace (areColinear _ _ _ _) with false
    by (symmetry; apply not_true_is_false; colinear_by 26 26).
  reflexivity.
Qed.

(** Example 2 of the specification: the middle point of the straight stroke
    (0,0), (5,0), (10,0) is removed. *)
Theorem example_straight_is_simplified :
  removeColinearPoints
    [ {| x := 0; y := 0 |}; {| x := 5; y := 0 |}; {| x := 10; y := 0 |} ]
    defaultAngleTolerance
  = [ {| x := 0; y := 0 |}; {| x := 10; y := 0 |} ].
Proof.
  unfold removeColinearPoints, cleanedAfter.
  cbn [length Nat.leb Nat.sub seq fold_left].
  unfold simplifyStep. cbn [last nth Nat.add].
  replace (areColinear _ _ _ _) with true
    by (symmetry; colinear_by 25 25).
  reflexivity.
Qed.

(** Example 4 of the specification: the edge from (0,0) to (100,3) is
    near-horizontal, and both its endpoints move to y = 1.5. *)
Theorem example_edge_is_levelled :
  rectifyEdge [ {| x := 0; y := 0 |}; {| x := 100; y := 3 |} ] (0%nat, 1%nat)
  = Some [ {| x := 0; y := 15 / 10 |}; {| x := 100; y := 15 / 10 |} ].
Proof.
  unfold rectifyEdge. cbn [nth_error].
  rewrite isNearHorizontal_small_slope by (cbn [x y]; lra).
  cbn [modify]; unfold setY; cbn [x y]. f_equal.
  f_equal; [|f_equal]; apply mkPt_eq; lra.
Qed.

(** Example 3 of the specification: the end (100,100) of one stroke and the
    start (110,105) of the next are given the same node. *)
Theorem example_endpoints_merge :
  assignments
    [ {| segments :=
           Some [ {| x := 0; y := 0 |}; {| x := 100; y := 100 |} ] |};
      {| segments :=
           Some [ {| x := 110; y := 105 |}; {| x := 200; y := 105 |} ] |} ]
  = [ ({| x := 0; y := 0 |}, 0%nat); ({| x := 100; y := 100 |}, 1%nat);
      ({| x := 110; y := 105 |}, 1%nat); ({| x := 200; y := 105 |}, 2%nat) ].
Proof.
  unfold assignments. cbn [assignmentsFrom].
  unfold pathAssignments at 1. cbn [segments].
  change (removeColinearPoints ?l _) with l.
  cbn [length Nat.sub seq assignmentsOver].
  unfold segmentAssignments. cbn [nth Nat.add nodes edges].
  run_resolveNode. run_resolveNode. cbn [app].
  unfold addPath. cbn [segments].
  change (removeColinearPoints ?l _) with l.
  cbn [length Nat.sub seq fold_left].
  unfold addSegment. cbn [nth Nat.add nodes edges].
  run_resolveNode. run_resolveNode. cbn [Nat.eqb app].
  unfold pathAssignments. cbn [segments].
  change (removeColinearPoints ?l _) with l.
  cbn [length Nat.sub seq assignmentsOver].
  unfold segmentAssignments. cbn [nth Nat.add nodes edges].
  run_resolveNode. run_resolveNode. reflexivity.
Qed.

(** ** DoorProjector: the nearest point of the walls *)

Lemma distance_sq (p q : Point) :
  distance p q = sqrt ((x p - x q) * (x p - x q) + (y p - y q) * (y p - y q)).
Proof. unfold distance. f_equal. ring. Qed.

Lemma clamp01_range (t : R) : 0 <= Rmax 0 (Rmin 1 t) <= 1.
Proof.
  unfold Rmax, Rmin.
  destruct (Rle_dec 1 t); destruct (Rle_dec 0 _); lra.
Qed.

Lemma clamp01_cases (t : R) :
  (t <= 0 /\ Rmax 0 (Rmin 1 t) = 0)
  \/ (0 <= t <= 1 /\ Rmax 0 (Rmin 1 t) = t)
  \/ (1 <= t /\ Rmax 0 (Rmin 1 t) = 1).
Proof.
  unfold Rmax, Rmin.
  destruct (Rle_dec 1 t); destruct (Rle_dec 0 _); lra.
Qed.

Lemma not_coincide_length (a b : Point) :
  ~ coincide a b ->
  0 < (x b - x a) * (x b - x a) + (y b - y a) * (y b - y a).
Proof.
  unfold coincide. intros H.
  destruct (Req_dec_T (x a) (x b)) as [Ex | Ex];
    destruct (Req_dec_T (y a) (y b)) as [Ey | Ey]; try tauto; nra.
Qed.

Lemma projection_is_closest (px py ax ay dx dy s : R) :
  0 < dx * dx + dy * dy -> 0 <= s <= 1 ->
  let t := Rmax 0 (Rmin 1 (((px - ax) * dx + (py - ay) * dy)
                           / (dx * dx + dy * dy))) in
  (px - (ax + t * dx)) * (px - (ax + t * dx))
  + (py - (ay + t * dy)) * (py - (ay + t * dy))
  <= (px - (ax + s * dx)) * (px - (ax + s * dx))
     + (py - (ay + s * dy)) * (py - (ay + s * dy)).
Proof.
  intros HL Hs. cbv zeta.
  set (L := dx * dx + dy * dy) in *.
  set (N := (px - ax) * dx + (py - ay) * dy).
  set (t0 := N / L).
  assert (HN : N = t0 * L) by (unfold t0; field; lra).
  assert (Hdiff : forall t,
    (px - (ax + s * dx)) * (px - (ax + s * dx))
    + (py - (ay + s * dy)) * (py - (ay + s * dy))
    - ((px - (ax + t * dx)) * (px - (ax + t * dx))
       + (py - (ay + t * dy)) * (py - (ay + t * dy)))
    = (s - t) * ((s + t) - 2 * t0) * L).
  { intros t. replace ((s - t) * (s + t - 2 * t0) * L)
      with ((s - t) * ((s + t) * L - 2 * (t0 * L))) by ring.
    rewrite <- HN. unfold L, N. ring. }
  clearbody t0 N L.
  destruct (clamp01_cases t0) as [[H0 E] | [[H0 E] | [H0 E]]]; rewrite E;
    specialize (Hdiff (Rmax 0 (Rmin 1 t0))); rewrite E in Hdiff.
  - assert (0 <= (s - 0) * (s + 0 - 2 * t0) * L).
    { apply Rmult_le_pos; [apply Rmult_le_pos|]; lra. }
    lra.
  - assert (0 <= (s - t0) * (s + t0 - 2 * t0) * L).
    { replace ((s - t0) * (s + t0 - 2 * t0)) with ((s - t0) * (s - t0)) by ring.
      apply Rmult_le_pos; [exact (Rle_0_sqr (s - t0)) | lra]. }
    lra.
  - assert (0 <= (s - 1) * (s + 1 - 2 * t0) * L).
    { apply Rmult_le_pos; [|lra].
      replace ((s - 1) * (s + 1 - 2 * t0)) with ((1 - s) * (2 * t0 - s - 1))
        by ring.
      apply Rmult_le_pos; lra. }
    lra.
Qed.

(** On a segment with two different ends [distanceToSegment] answers the
    point of the segment nearest to [point], with its distance. *)
Lemma distanceToSegment_projects (point a b : Point) :
  ~ coincide a b ->
  exists t : R,
    0 <= t <= 1
    /\ distanceToSegment point a b
       = Projection (distance point (pointAt a b t)) (pointAt a b t)
    /\ forall s : R, 0 <= s <= 1 ->
         distance point (pointAt a b t) <= distance point (pointAt a b s).
Proof.
  intros Hab. pose proof (not_coincide_length a b Hab) as HL.
  set (t := Rmax 0 (Rmin 1 (((x point - x a) * (x b - x a)
                             + (y point - y a) * (y b - y a))
                            / ((x b - x a) * (x b - x a)
                               + (y b - y a) * (y b - y a))))).
  exists t. split; [apply clamp01_range|]. split.
  - unfold distanceToSegment.
    rewrite (proj2 (Reqb_false _ 0)) by lra.
    fold t. rewrite distance_sq. reflexivity.
  - intros s Hs. rewrite !distance_sq. unfold pointAt; cbn [x y].
    apply sqrt_le_1;
      [ apply Rplus_le_le_0_compat; apply Rle_0_sqr
      | apply Rplus_le_le_0_compat; apply Rle_0_sqr | ].
    apply (projection_is_closest (x point) (y point) (x a) (y a)
             (x b - x a) (y b - y a) s HL Hs).
Qed.

Lemma coincide_dec (a b : Point) : coincide a b \/ ~ coincide a b.
Proof.
  unfold coincide.
  destruct (Req_dec_T (x a) (x b)); destruct (Req_dec_T (y a) (y b)); tauto.
Qed.

Lemma onEdge_zero_length (g : WallGraph) (e : nat * nat) (n1 n2 q : Point) :
  edgeEnds g e n1 n2 -> coincide n1 n2 -> ~ onEdge g e q.
Proof.
  intros [E1 E2] Hc [m1 [m2 [s [[F1 F2] [Hn _]]]]].
  rewrite E1 in F1. rewrite E2 in F2.
  injection F1 as <-. injection F2 as <-. contradiction.
Qed.

Lemma snapStep_invariant (g : WallGraph) (point : Point)
    (done : list (nat * nat)) (acc acc' : JsNum * Point) (e : nat * nat) :
  snapInvariant g point done acc ->
  snapStep g point acc e = Some acc' ->
  snapInvariant g point (done ++ [e]) acc'.
Proof.
  intros Hinv. unfold snapStep. destruct e as [i j].
  destruct (nth_error (nodes g) i) as [n1|] eqn:E1; [|discriminate].
  destruct (nth_error (nodes g) j) as [n2|] eqn:E2; [|discriminate].
  assert (Hends : edgeEnds g (i, j) n1 n2) by (split; assumption).
  destruct (coincide_dec n1 n2) as [Hc | Hc].
  - (* a zero-length edge is passed over *)
    destruct Hc as [Hx Hy].
    assert (Hz : distanceToSegment point n1 n2
                 = BareNumber (sqrt ((x point - x n1) * (x point - x n1)
                                     + (y point - y n1) * (y point - y n1)))).
    { unfold distanceToSegment. rewrite <- Hx, <- Hy.
      replace ((x n1 - x n1) * (x n1 - x n1) + (y n1 - y n1) * (y n1 - y n1))
        with 0 by ring.
      now rewrite Reqb_refl. }
    rewrite Hz. cbn [resultDistance]. intros [= <-].
    destruct Hinv as [[Hf [Hs Hall]] | [Hf [[e0 [Hin0 Hon0]] Hmin]]].
    + left. split; [assumption|]. split; [assumption|].
      intros e m1 m2 Hin He. apply in_app_or in Hin as [Hin | [<- | []]].
      * now apply (Hall e).
      * destruct He as [F1 F2]. cbn [fst snd] in F1, F2.
        rewrite E1 in F1. rewrite E2 in F2.
        injection F1 as <-. injection F2 as <-. now split.
    + right. split; [assumption|]. split.
      * exists e0. split; [apply in_or_app; now left | assumption].
      * intros e q' Hin Hq. apply in_app_or in Hin as [Hin | [<- | []]].
        -- now apply (Hmin e).
        -- exfalso. apply (onEdge_zero_length g (i, j) n1 n2 q' Hends);
             [now split | assumption].
  - (* an edge with two different ends *)
    destruct (distanceToSegment_projects point n1 n2 Hc)
      as [t [Ht [Hd Hclosest]]].
    rewrite Hd. cbn [resultDistance resultProjected].
    assert (Hon : onEdge g (i, j) (pointAt n1 n2 t)).
    { exists n1, n2, t. repeat split; try assumption; apply Ht. }
    assert (Hthis : forall q', onEdge g (i, j) q' ->
              distance point (pointAt n1 n2 t) <= distance point q').
    { intros q' [m1 [m2 [s [[F1 F2] [_ [Hs ->]]]]]].
      cbn [fst snd] in F1, F2. rewrite E1 in F1. rewrite E2 in F2.
      injection F1 as <-. injection F2 as <-. now apply Hclosest. }
    destruct Hinv as [[Hf [Hs Hall]] | [Hf [[e0 [Hin0 Hon0]] Hmin]]].
    + rewrite Hf. cbn [jsLtb]. intros [= <-]. right. cbn [fst snd].
      split; [reflexivity|]. split.
      * exists (i, j). split; [apply in_or_app; right; now left | assumption].
      * intros e q' Hin Hq. apply in_app_or in Hin as [Hin | [<- | []]].
        -- exfalso. destruct Hq as [m1 [m2 [s [Hm [Hn _]]]]].
           apply Hn. now apply (Hall e).
        -- now apply Hthis.
    + rewrite Hf. cbn [jsLtb].
      destruct (Rltb _ _) eqn:Hlt; intros [= <-]; right; cbn [fst snd].
      * apply Rltb_true in Hlt. split; [reflexivity|]. split.
        -- exists (i, j). split; [apply in_or_app; right; now left|assumption].
        -- intros e q' Hin Hq. apply in_app_or in Hin as [Hin | [<- | []]].
           ++ specialize (Hmin e q' Hin Hq). lra.
           ++ now apply Hthis.
      * apply Rltb_false in Hlt. split; [assumption|]. split.
        -- exists e0. split; [apply in_or_app; now left | assumption].
        -- intros e q' Hin Hq. apply in_app_or in Hin as [Hin | [<- | []]].
           ++ now apply (Hmin e).
           ++ specialize (Hthis q' Hq). lra.
Qed.

Lemma snapLoop_invariant (g : WallGraph) (point : Point)
    (es : list (nat * nat)) :
  forall (done : list (nat * nat)) (acc acc' : JsNum * Point),
    snapInvariant g point done acc ->
    snapLoop g point acc es = Some acc' ->
    snapInvariant g point (done ++ es) acc'.
Proof.
  induction es as [|e es IH]; intros done acc acc' Hinv; cbn [snapLoop].
  - intros [= <-]. now rewrite app_nil_r.
  - destruct (snapStep g point acc e) as [acc1|] eqn:E; [|discriminate].
    intros H. replace (done ++ e :: es) with ((done ++ [e]) ++ es)
      by (now rewrite <- app_assoc).
    apply (IH _ acc1); [|assumption].
    now apply (snapStep_invariant g point done acc).
Qed.

(** What [distanceToSegment] answers: on a segment whose ends coincide the
    bare distance to that point; otherwise the point of the segment nearest
    to [point] (the foot of the perpendicular, clamped to the segment) and
    its distance, which no point of the segment undercuts. *)
Theorem distanceToSegment_closest_point (point a b : Point) :
  (coincide a b ->
   distanceToSegment point a b = BareNumber (distance point a))
  /\ (~ coincide a b ->
      exists t : R,
        0 <= t <= 1
        /\ distanceToSegment point a b
           = Projection (distance point (pointAt a b t)) (pointAt a b t)
        /\ forall s : R, 0 <= s <= 1 ->
             distance point (pointAt a b t)
             <= distance point (pointAt a b s)).
Proof.
  split.
  - intros [Hx Hy]. unfold distanceToSegment. rewrite <- Hx, <- Hy.
    replace ((x a - x a) * (x a - x a) + (y a - y a) * (y a - y a))
      with 0 by ring.
    now rewrite Reqb_refl, distance_sq.
  - apply distanceToSegment_projects.
Qed.

(** On a graph whose edges name existing nodes, snapToNearestEdge returns
    the nearest point of the edges that have two different ends; when every
    edge has zero length, or there is no edge, it returns the point itself. *)
Lemma snapToNearestEdge_nearest (g : WallGraph) (point : Point) :
  validEdges g ->
  exists q : Point,
    snapToNearestEdge g point = Some q
    /\ snappedOnto g point q.
Proof.
  intros Hv. unfold snapToNearestEdge, snappedOnto.
  destruct (snapLoop_total g point (edges g) Hv (PosInf, point)) as [acc E].
  rewrite E. exists (snd acc). split; [reflexivity|].
  assert (H0 : snapInvariant g point [] (PosInf, point)).
  { left. split; [reflexivity|]. split; [reflexivity|].
    intros e n1 n2 []. }
  pose proof (snapLoop_invariant g point (edges g) [] _ _ H0 E) as H.
  cbn [app] in H. destruct H as [[_ [Hs Hall]] | [_ Hn]]; [left | right];
    tauto.
Qed.

(** ** AxisRectifier: directions *)

Lemma Rtrunc_spec (r : R) :
  (exists z : Z, Rtrunc r = IZR z)
  /\ (0 <= r -> 0 <= r - Rtrunc r < 1)
  /\ (r < 0 -> -1 < r - Rtrunc r <= 0).
Proof.
  unfold Rtrunc. destruct (Rle_dec 0 r) as [H | H].
  - rewrite (proj2 (Rleb_true 0 r) H).
    pose proof (base_Int_part r) as [B1 B2].
    split; [now eexists|]. split; intros; lra.
  - rewrite (proj2 (Rleb_false 0 r)) by lra.
    pose proof (base_Int_part (- r)) as [B1 B2].
    split; [exists (- Int_part (- r))%Z; now rewrite opp_IZR|].
    split; intros; lra.
Qed.

Lemma jsRem_spec (a n : R) :
  0 < n ->
  (exists z : Z, jsRem a n = a - n * IZR z)
  /\ (0 <= a -> 0 <= jsRem a n < n)
  /\ (a < 0 -> - n < jsRem a n <= 0).
Proof.
  intros Hn. unfold jsRem.
  destruct (Rtrunc_spec (a / n)) as [[z Hz] [Hpos Hneg]].
  assert (Ha : a = n * (a / n)) by (field; lra).
  split; [exists z; now rewrite Hz|].
  assert (Hq : a - n * Rtrunc (a / n) = n * (a / n - Rtrunc (a / n))).
  { rewrite Ha at 1. ring. }
  rewrite Hq. split; intros H.
  - assert (H1 : 0 <= a / n).
    { apply Rmult_le_pos; [lra|]. left. now apply Rinv_0_lt_compat. }
    specialize (Hpos H1). nra.
  - assert (H1 : a / n < 0).
    { apply Rmult_lt_reg_r with n; [lra|]. unfold Rdiv.
      rewrite Rmult_assoc, Rinv_l by lra. lra. }
    specialize (Hneg H1). nra.
Qed.

(** Whatever the angle, its normal form lies from 0 up to 360 and differs
    from it by whole turns. *)
Lemma normalizeAngle_range (a : R) :
  0 <= normalizeAngle a < 360
  /\ exists k : Z, normalizeAngle a = a + 360 * IZR k.
Proof.
  unfold normalizeAngle.
  destruct (jsRem_spec a 360 ltac:(lra)) as [[z1 E1] [P1 N1]].
  set (r := jsRem a 360) in *.
  assert (Hr : -360 < r < 360).
  { destruct (Rle_dec 0 a); [specialize (P1 ltac:(lra))
                            | specialize (N1 ltac:(lra))]; lra. }
  destruct (jsRem_spec (r + 360) 360 ltac:(lra)) as [[z2 E2] [P2 _]].
  split; [apply P2; lra|].
  exists (1 - z1 - z2)%Z. rewrite E2, E1, !minus_IZR. ring.
Qed.

Lemma half_turn_degrees : PI * (180 / PI) = 180.
Proof. field. apply PI_neq0. Qed.

Lemma quarter_turn_degrees : PI / 2 * (180 / PI) = 90.
Proof. field. apply PI_neq0. Qed.

Lemma atan_degrees (t : R) :
  -90 < atan t * (180 / PI) < 90
  /\ (0 <= t -> 0 <= atan t * (180 / PI))
  /\ (t <= 0 -> atan t * (180 / PI) <= 0)
  /\ (0 < t -> 0 < atan t * (180 / PI))
  /\ (t < 0 -> atan t * (180 / PI) < 0).
Proof.
  pose proof PI_RGT_0 as Hpi. pose proof (atan_bound t) as [B1 B2].
  pose proof quarter_turn_degrees as Hq.
  assert (HD : 0 < 180 / PI).
  { apply Rmult_lt_0_compat; [lra | now apply Rinv_0_lt_compat]. }
  assert (Hs : forall u v, u < v -> atan u * (180 / PI) < atan v * (180 / PI)).
  { intros u v Huv. apply Rmult_lt_compat_r; [assumption|].
    now apply atan_increasing. }
  assert (H0 : atan 0 * (180 / PI) = 0) by (rewrite atan_0; ring).
  split.
  - split.
    + replace (-90) with (- (PI / 2) * (180 / PI))
        by (field; try apply PI_neq0).
      apply Rmult_lt_compat_r; lra.
    + rewrite <- Hq. apply Rmult_lt_compat_r; lra.
  - repeat split; intros H.
    + destruct H as [H | <-]; [|lra]. specialize (Hs 0 t H). lra.
    + destruct H as [H | ->]; [|lra]. specialize (Hs t 0 H). lra.
    + specialize (Hs 0 t H). lra.
    + specialize (Hs t 0 H). lra.
Qed.

Lemma directionOf_reverse (dy dx : R) :
  dx <> 0 \/ dy <> 0 ->
  (directionOf dy dx < 180
   /\ directionOf (- dy) (- dx) = directionOf dy dx + 180)
  \/ (180 <= directionOf dy dx
      /\ directionOf (- dy) (- dx) = directionOf dy dx - 180).
Proof.
  intros Hnz. unfold directionOf, atan2.
  pose proof half_turn_degrees as Hh. pose proof quarter_turn_degrees as Hq.
  destruct (Rtotal_order dx 0) as [Hneg | [Hzero | Hpos]].
  - (* dx < 0 *)
    rewrite (proj2 (Rltb_false 0 dx)), (proj2 (Rltb_true dx 0)) by lra.
    rewrite (proj2 (Rltb_true 0 (- dx))) by lra.
    replace (- dy / - dx) with (dy / dx) by (field; lra).
    destruct (atan_degrees (dy / dx)) as [Hb [Hge [Hle [Hgt Hlt]]]].
    set (a := atan (dy / dx) * (180 / PI)) in *.
    destruct (Rle_dec 0 dy) as [Hy | Hy].
    + rewrite (proj2 (Rleb_true 0 dy) Hy).
      assert (Ht : dy / dx <= 0).
      { apply Rmult_le_reg_r with (- dx); [lra|]. unfold Rdiv.
        replace (dy * / dx * - dx) with (- dy * (/ dx * dx)) by ring.
        rewrite Rinv_l by lra. lra. }
      specialize (Hle Ht).
      replace ((atan (dy / dx) + PI) * (180 / PI)) with (a + 180)
        by (unfold a; now rewrite Rmult_plus_distr_r, Hh).
      rewrite (normalizeAngle_nonneg (a + 180)) by lra.
      destruct Hle as [Hlt0 | Heq0].
      * left. rewrite (normalizeAngle_neg a) by lra. lra.
      * right. rewrite Heq0, normalizeAngle_nonneg by lra. lra.
    + rewrite (proj2 (Rleb_false 0 dy)) by lra.
      assert (Ht : 0 < dy / dx).
      { replace (dy / dx) with ((- dy) * / (- dx)) by (field; lra).
        apply Rmult_lt_0_compat; [lra|]. apply Rinv_0_lt_compat. lra. }
      specialize (Hgt Ht).
      replace ((atan (dy / dx) - PI) * (180 / PI)) with (a - 180)
        by (unfold a; now rewrite Rmult_minus_distr_r, Hh).
      right. rewrite (normalizeAngle_neg (a - 180)) by lra.
      rewrite (normalizeAngle_nonneg a) by lra. lra.
  - (* dx = 0 *)
    subst dx. rewrite Ropp_0.
    rewrite (proj2 (Rltb_false 0 0)) by lra.
    destruct (Rtotal_order dy 0) as [Hy | [Hy | Hy]]; [|lra|].
    + rewrite (proj2 (Rltb_false 0 dy)), (proj2 (Rltb_true dy 0)) by lra.
      rewrite (proj2 (Rltb_true 0 (- dy))) by lra.
      replace (- (PI / 2) * (180 / PI)) with (-90)
        by (field; try apply PI_neq0).
      rewrite Hq. right.
      rewrite (normalizeAngle_neg (-90)), (normalizeAngle_nonneg 90) by lra.
      lra.
    + rewrite (proj2 (Rltb_true 0 dy)) by lra.
      rewrite (proj2 (Rltb_false 0 (- dy))), (proj2 (Rltb_true (- dy) 0))
        by lra.
      replace (- (PI / 2) * (180 / PI)) with (-90)
        by (field; try apply PI_neq0).
      rewrite Hq. left.
      rewrite (normalizeAngle_neg (-90)), (normalizeAngle_nonneg 90) by lra.
      lra.
  - (* 0 < dx *)
    rewrite (proj2 (Rltb_true 0 dx)) by lra.
    rewrite (proj2 (Rltb_false 0 (- dx))), (proj2 (Rltb_true (- dx) 0))
      by lra.
    replace (- dy / - dx) with (dy / dx) by (field; lra).
    destruct (atan_degrees (dy / dx)) as [Hb [Hge [Hle [Hgt Hlt]]]].
    set (a := atan (dy / dx) * (180 / PI)) in *.
    destruct (Rle_dec 0 (- dy)) as [Hy | Hy].
    + rewrite (proj2 (Rleb_true 0 (- dy)) Hy).
      assert (Ht : dy / dx <= 0).
      { apply Rmult_le_reg_r with dx; [lra|]. unfold Rdiv.
        rewrite Rmult_assoc, Rinv_l by lra. lra. }
      specialize (Hle Ht).
      replace ((atan (dy / dx) + PI) * (180 / PI)) with (a + 180)
        by (unfold a; now rewrite Rmult_plus_distr_r, Hh).
      rewrite (normalizeAngle_nonneg (a + 180)) by lra.
      destruct Hle as [Hlt0 | Heq0].
      * right. rewrite (normalizeAngle_neg a) by lra. lra.
      * left. rewrite Heq0, normalizeAngle_nonneg by lra. lra.
    + rewrite (proj2 (Rleb_false 0 (- dy))) by lra.
      assert (Ht : 0 < dy / dx).
      { apply Rmult_lt_0_compat; [lra|]. apply Rinv_0_lt_compat. lra. }
      specialize (Hgt Ht).
      replace ((atan (dy / dx) - PI) * (180 / PI)) with (a - 180)
        by (unfold a; now rewrite Rmult_minus_distr_r, Hh).
      left. rewrite (normalizeAngle_neg (a - 180)) by lra.
      rewrite (normalizeAngle_nonneg a) by lra. lra.
Qed.

Lemma edgeAngle_direction (n1 n2 : Point) :
  edgeAngle n1 n2 = directionOf (y n2 - y n1) (x n2 - x n1).
Proof. reflexivity. Qed.

Lemma directionOf_range (dy dx : R) : 0 <= directionOf dy dx < 360.
Proof. apply normalizeAngle_range. Qed.

Lemma bool_eq_iff (a b : bool) : (a = true <-> b = true) -> a = b.
Proof.
  destruct a, b; intros [H1 H2]; try reflexivity.
  - symmetry. now apply H1.
  - now apply H2.
Qed.

(** The classification of an edge does not depend on the order of its two
    ends. *)
Lemma classification_reverse (n1 n2 : Point) :
  isNearHorizontal (edgeAngle n2 n1) = isNearHorizontal (edgeAngle n1 n2)
  /\ isNearVertical (edgeAngle n2 n1) = isNearVertical (edgeAngle n1 n2).
Proof.
  rewrite !edgeAngle_direction.
  set (dx := x n2 - x n1). set (dy := y n2 - y n1).
  replace (x n1 - x n2) with (- dx) by (unfold dx; ring).
  replace (y n1 - y n2) with (- dy) by (unfold dy; ring).
  destruct (Req_dec_T dx 0) as [Hx | Hx];
    [destruct (Req_dec_T dy 0) as [Hy | Hy]|].
  - rewrite Hx, Hy, Ropp_0. split; reflexivity.
  - pose proof (directionOf_range dy dx) as Hr.
    destruct (directionOf_reverse dy dx (or_intror Hy)) as [[H E] | [H E]];
      rewrite E; split; apply bool_eq_iff;
      rewrite ?isNearHorizontal_iff, ?isNearVertical_iff; lra.
  - pose proof (directionOf_range dy dx) as Hr.
    destruct (directionOf_reverse dy dx (or_introl Hx)) as [[H E] | [H E]];
      rewrite E; split; apply bool_eq_iff;
      rewrite ?isNearHorizontal_iff, ?isNearVertical_iff; lra.
Qed.

Lemma modify_twice_comm {A : Type} (i j : nat) (f : A -> A) (l : list A) :
  modify j f (modify i f l) = modify i f (modify j f l).
Proof.
  revert i j; induction l as [|a l IH]; intros [|i] [|j]; cbn [modify];
    try reflexivity.
  now rewrite IH.
Qed.

(** The step of the pass on an edge does not depend on the order of the
    two ends of the edge. *)
Lemma rectifyEdge_swap (ns : list Point) (i j : nat) :
  rectifyEdge ns (j, i) = rectifyEdge ns (i, j).
Proof.
  unfold rectifyEdge.
  destruct (nth_error ns i) as [n1|]; destruct (nth_error ns j) as [n2|];
    try reflexivity.
  destruct (classification_reverse n1 n2) as [-> ->].
  replace ((y n2 + y n1) / 2) with ((y n1 + y n2) / 2) by lra.
  replace ((x n2 + x n1) / 2) with ((x n1 + x n2) / 2) by lra.
  destruct (isNearHorizontal _); [|destruct (isNearVertical _)];
    try reflexivity; f_equal; apply modify_twice_comm.
Qed.

Lemma directionOf_level (dx : R) :
  directionOf 0 dx = 0 \/ directionOf 0 dx = 180.
Proof.
  unfold directionOf, atan2. pose proof half_turn_degrees as Hh.
  destruct (Rtotal_order dx 0) as [H | [H | H]].
  - right. rewrite (proj2 (Rltb_false 0 dx)), (proj2 (Rltb_true dx 0)) by lra.
    rewrite (proj2 (Rleb_true 0 0)) by lra.
    unfold Rdiv. rewrite Rmult_0_l, atan_0, Rplus_0_l. fold (180 / PI).
    rewrite Hh. apply normalizeAngle_nonneg. lra.
  - left. subst dx. rewrite (proj2 (Rltb_false 0 0)) by lra.
    rewrite Rmult_0_l. apply normalizeAngle_nonneg. lra.
  - left. rewrite (proj2 (Rltb_true 0 dx)) by lra.
    unfold Rdiv. rewrite Rmult_0_l, atan_0, Rmult_0_l.
    apply normalizeAngle_nonneg. lra.
Qed.

Lemma directionOf_plumb (dy : R) :
  dy <> 0 -> directionOf dy 0 = 90 \/ directionOf dy 0 = 270.
Proof.
  intros Hy. unfold directionOf, atan2.
  pose proof quarter_turn_degrees as Hq.
  rewrite (proj2 (Rltb_false 0 0)) by lra.
  destruct (Rtotal_order dy 0) as [H | [H | H]]; [|lra|].
  - right. rewrite (proj2 (Rltb_false 0 dy)), (proj2 (Rltb_true dy 0)) by lra.
    replace (- (PI / 2) * (180 / PI)) with (-90)
      by (field; try apply PI_neq0).
    rewrite normalizeAngle_neg; lra.
  - left. rewrite (proj2 (Rltb_true 0 dy)) by lra.
    rewrite Hq. apply normalizeAngle_nonneg. lra.
Qed.

Lemma modify_fixed {A : Type} (i : nat) (f : A -> A) (l : list A) (a : A) :
  nth_error l i = Some a -> f a = a -> modify i f l = l.
Proof.
  revert i; induction l as [|b l IH]; intros [|i]; cbn; try discriminate.
  - intros [= ->] ->. reflexivity.
  - intros H Hf. now rewrite IH.
Qed.

Lemma setY_same (n : Point) (v : R) : v = y n -> setY v n = n.
Proof. intros ->. now destruct n. Qed.

Lemma setX_same (n : Point) (v : R) : v = x n -> setX v n = n.
Proof. intros ->. now destruct n. Qed.

Lemma rectifyEdge_axisAligned (ns : list Point) (e : nat * nat) :
  axisAligned ns e -> rectifyEdge ns e = Some ns.
Proof.
  destruct e as [i j]. intros [n1 [n2 [E1 [E2 Ha]]]]. cbn [fst snd] in *.
  unfold rectifyEdge. rewrite E1, E2.
  destruct (Req_dec_T (y n1) (y n2)) as [Hy | Hy].
  - (* the same y: near-horizontal, and the average is that y *)
    assert (Hh : isNearHorizontal (edgeAngle n1 n2) = true).
    { rewrite edgeAngle_direction.
      replace (y n2 - y n1) with 0 by lra.
      apply isNearHorizontal_iff.
      destruct (directionOf_level (x n2 - x n1)) as [-> | ->]; lra. }
    rewrite Hh. f_equal.
    rewrite (modify_fixed i _ ns n1 E1) by (apply setY_same; lra).
    apply (modify_fixed j _ ns n2 E2). apply setY_same. lra.
  - (* the same x and different y: near-vertical, the average is that x *)
    destruct Ha as [Hx | Hy']; [|contradiction].
    assert (Hv : isNearVertical (edgeAngle n1 n2) = true).
    { rewrite edgeAngle_direction.
      replace (x n2 - x n1) with 0 by lra.
      apply isNearVertical_iff.
      destruct (directionOf_plumb (y n2 - y n1)) as [-> | ->]; lra. }
    rewrite (near_vertical_not_horizontal _ Hv), Hv. f_equal.
    rewrite (modify_fixed i _ ns n1 E1) by (apply setX_same; lra).
    apply (modify_fixed j _ ns n2 E2). apply setX_same. lra.
Qed.


(** The angle the pass classifies is always a direction from 0 up to 360
    degrees, the direction of [Math.atan2] up to whole turns. *)
Theorem edgeAngle_is_a_direction (n1 n2 : Point) :
  0 <= edgeAngle n1 n2 < 360
  /\ exists k : Z,
       edgeAngle n1 n2
       = atan2 (y n2 - y n1) (x n2 - x n1) * (180 / PI) + 360 * IZR k.
Proof. unfold edgeAngle. apply normalizeAngle_range. Qed.

(** An edge is classified, and its two nodes are moved, the same way
    whichever of its ends comes first. *)
Theorem rectifyEdge_ignores_direction (ns : list Point) (i j : nat)
    (n1 n2 : Point) :
  isNearHorizontal (edgeAngle n2 n1) = isNearHorizontal (edgeAngle n1 n2)
  /\ isNearVertical (edgeAngle n2 n1) = isNearVertical (edgeAngle n1 n2)
  /\ rectifyEdge ns (j, i) = rectifyEdge ns (i, j).
Proof.
  destruct (classification_reverse n1 n2) as [Hh Hv].
  split; [exact Hh|]. split; [exact Hv|]. apply rectifyEdge_swap.
Qed.

(** A graph whose edges are all exactly horizontal or exactly vertical
    (their two nodes share the y or the x) comes out of the pass as it
    went in. *)
Theorem rectify_leaves_aligned_graph (ns : list Point)
    (es : list (nat * nat)) :
  Forall (axisAligned ns) es -> rectify ns es = Some ns.
Proof.
  induction 1 as [|e es He _ IH]; cbn [rectify]; [reflexivity|].
  now rewrite (rectifyEdge_axisAligned ns e He).
Qed.

(** The four walls of the rectangular room. *)
Lemma rectify_leaves_aligned_graph_witness :
  rectify roomNodes
    [ (0%nat, 1%nat); (1%nat, 2%nat); (2%nat, 3%nat); (3%nat, 0%nat) ]
  = Some roomNodes.
Proof.
  apply (rectify_leaves_aligned_graph roomNodes).
  repeat constructor;
    (eexists; eexists; split; [reflexivity|]; split; [reflexivity|]);
    cbn [x y]; lra.
Defined.

(** ** StrokeSimplifier: order and repeated points *)

Lemma Subsequence_refl {A : Type} (l : list A) : Subsequence l l.
Proof. induction l; constructor; assumption. Qed.

Lemma Subsequence_app {A : Type} (l1 l1' l2 l2' : list A) :
  Subsequence l1 l1' -> Subsequence l2 l2' ->
  Subsequence (l1 ++ l2) (l1' ++ l2').
Proof.
  intros H1 H2. induction H1; cbn [app]; try constructor; assumption.
Qed.

Lemma cleanedAfter_subsequence (points : list Point) (tol : R) (k : nat) :
  (S k <= length points)%nat ->
  Subsequence (cleanedAfter points tol k) (firstn (S k) points).
Proof.
  induction k as [|k IH]; intros Hk.
  - destruct points; [simpl in Hk; lia|]. apply Subsequence_refl.
  - rewrite cleanedAfter_succ, (firstn_succ_snoc points origin (S k)) by lia.
    destruct (simplifyStep_cases points tol (cleanedAfter points tol k) (S k))
      as [-> | ->].
    + rewrite <- (app_nil_r (cleanedAfter points tol k)).
      apply Subsequence_app; [apply IH; lia | repeat constructor].
    + apply Subsequence_app; [apply IH; lia | apply Subsequence_refl].
Qed.

Lemma coincide_distance (a b : Point) : coincide a b -> distance a b = 0.
Proof.
  intros [Hx Hy]. unfold distance. rewrite Hx, Hy.
  replace ((x b - x b) ^ 2 + (y b - y b) ^ 2) with 0 by ring.
  apply sqrt_0.
Qed.

Lemma distinctNeighbours_snoc (l : list Point) (a : Point) :
  l <> [] ->
  distinctNeighbours l (length l) ->
  ~ coincide (last l origin) a ->
  distinctNeighbours (l ++ [a]) (length (l ++ [a])).
Proof.
  intros Hne Hl Ha i Hi. rewrite length_app in Hi. cbn [length] in Hi.
  destruct (Nat.eq_dec (S i) (length l)) as [E | E].
  - rewrite (app_nth1 l [a] origin) by lia.
    rewrite E, nth_middle.
    replace i with (length l - 1)%nat by lia.
    now rewrite nth_pred_length_last.
  - rewrite !(app_nth1 l [a] origin) by lia. apply Hl. lia.
Qed.

Lemma cleanedAfter_distinct (points : list Point) (tol : R) (k : nat) :
  distinctNeighbours (cleanedAfter points tol k)
    (length (cleanedAfter points tol k)).
Proof.
  induction k as [|k IH].
  - intros i Hi. cbn in Hi. lia.
  - rewrite cleanedAfter_succ. unfold simplifyStep.
    destruct (areColinear _ _ _ _) eqn:E; cbn [negb]; [assumption|].
    apply distinctNeighbours_snoc; [|assumption|].
    + destruct (cleanedAfter_head points tol k) as [r ->]. discriminate.
    + intros Hc. apply coincide_distance in Hc.
      rewrite areColinear_zero_length in E; [discriminate | now left].
Qed.

Lemma removeColinearPoints_subsequence (points : list Point) (tol : R) :
  Subsequence (removeColinearPoints points tol) points.
Proof.
  unfold removeColinearPoints.
  destruct (length points <=? 2)%nat eqn:E; [apply Subsequence_refl|].
  apply Nat.leb_gt in E.
  assert (Hp : points = firstn (length points - 1) points
                      ++ [nth (length points - 1) points origin]).
  { rewrite <- (firstn_succ_snoc points origin (length points - 1)) by lia.
    replace (S (length points - 1)) with (length points) by lia.
    now rewrite firstn_all. }
  assert (Hs : Subsequence
                 (cleanedAfter points tol (length points - 2)
                    ++ [nth (length points - 1) points origin])
                 (firstn (length points - 1) points
                    ++ [nth (length points - 1) points origin])).
  { apply Subsequence_app; [|apply Subsequence_refl].
    replace (length points - 1)%nat with (S (length points - 2)) by lia.
    apply cleanedAfter_subsequence. lia. }
  now rewrite <- Hp in Hs.
Qed.

(** removeColinearPoints only leaves points out: its result is the input
    with some interior points removed, in the input's order, and no new point
    is made.  Among the retained points no two neighbours have the same
    coordinates, the last pair apart (the last point is pushed without a
    test). *)
Theorem simplifier_keeps_order (points : list Point) (tol : R) :
  Subsequence (removeColinearPoints points tol) points
  /\ distinctNeighbours (removeColinearPoints points tol)
       (length (removeColinearPoints points tol) - 1).
Proof.
  split; [apply removeColinearPoints_subsequence|].
  unfold removeColinearPoints.
  destruct (length points <=? 2)%nat eqn:E.
  - apply Nat.leb_le in E. intros i Hi. lia.
  - rewrite length_app. cbn [length].
    intros i Hi.
    pose proof (cleanedAfter_distinct points tol (length points - 2) i)
      as H.
    rewrite !app_nth1 by lia. apply H. lia.
Qed.

(** ** GraphBuilder: the nodes form a net of the stroke points *)

Lemma buildGraph_within (wallPaths : list Path) :
  buildGraph wallPaths = buildGraphWithin mergeDistance wallPaths.
Proof. reflexivity. Qed.

Lemma Subsequence_In {A : Type} (l l' : list A) (a : A) :
  Subsequence l l' -> In a l -> In a l'.
Proof.
  intros H. induction H; cbn [In]; intros Ha; try tauto.
Qed.

Lemma removeColinearPoints_In (points : list Point) (tol : R) (p : Point) :
  In p (removeColinearPoints points tol) -> In p points.
Proof.
  apply Subsequence_In, removeColinearPoints_subsequence.
Qed.

Lemma removeColinearPoints_two (points : list Point) (tol : R) :
  (2 <= length points)%nat ->
  (2 <= length (removeColinearPoints points tol))%nat.
Proof.
  intros H. unfold removeColinearPoints.
  destruct (length points <=? 2)%nat; [assumption|].
  rewrite length_app. cbn [length].
  destruct (cleanedAfter_head points tol (length points - 2)) as [r ->].
  cbn [length]. lia.
Qed.

Lemma fold_left_invariant_In {A B : Type} (P : A -> Prop) (f : A -> B -> A)
    (l : list B) :
  (forall a b, In b l -> P a -> P (f a b)) ->
  forall a, P a -> P (fold_left f l a).
Proof.
  induction l as [|b l IH]; intros Hf a Ha; cbn [fold_left]; [assumption|].
  apply IH.
  - intros a' b' Hb'. apply Hf. now right.
  - apply Hf; [now left | assumption].
Qed.

Lemma covers_grow (md : R) (ns extra : list Point) (p : Point) :
  covers md ns p -> covers md (ns ++ extra) p.
Proof.
  intros [idx [Hi Hd]]. exists idx. rewrite length_app, app_nth1 by lia.
  split; [lia | assumption].
Qed.

Section Net.

Variable md : R.
Hypothesis md_positive : 0 < md.

Lemma resolveNodeWithin_spec (ns : list Point) (p : Point) :
  exists extra : list Point,
    snd (resolveNodeWithin md ns p) = ns ++ extra
    /\ (extra = [] \/ extra = [p])
    /\ (fst (resolveNodeWithin md ns p)
          < length (snd (resolveNodeWithin md ns p)))%nat
    /\ distance (nth (fst (resolveNodeWithin md ns p))
                     (snd (resolveNodeWithin md ns p)) origin) p < md
    /\ (separated md ns -> separated md (snd (resolveNodeWithin md ns p))).
Proof.
  unfold resolveNodeWithin.
  destruct (findIndex _ ns) as [idx|] eqn:E; cbn [fst snd].
  - apply (findIndex_Some _ _ origin) in E as [Hi [Hd _]].
    apply Rltb_true in Hd.
    exists []. rewrite app_nil_r. tauto.
  - exists [p]. split; [reflexivity|]. split; [now right|].
    rewrite length_app. cbn [length]. split; [lia|].
    split.
    + rewrite nth_middle, distance_self. exact md_positive.
    + intros Hs i j Hij. rewrite length_app in Hij. cbn [length] in Hij.
      destruct (Nat.eq_dec j (length ns)) as [-> | Hj].
      * rewrite nth_middle, app_nth1 by lia.
        apply Rltb_false.
        apply (findIndex_None _ _ origin E). lia.
      * rewrite !app_nth1 by lia. apply Hs. lia.
Qed.

Lemma addSegmentWithin_spec (T : Point -> Prop) (cleanedPoints : list Point)
    (g : WallGraph) (i : nat) :
  T (nth i cleanedPoints origin) ->
  T (nth (i + 1) cleanedPoints origin) ->
  netInvariant md T g ->
  netInvariant md T (addSegmentWithin md cleanedPoints g i)
  /\ (exists extra : list Point,
        nodes (addSegmentWithin md cleanedPoints g i) = nodes g ++ extra)
  /\ covers md (nodes (addSegmentWithin md cleanedPoints g i))
       (nth i cleanedPoints origin)
  /\ covers md (nodes (addSegmentWithin md cleanedPoints g i))
       (nth (i + 1) cleanedPoints origin).
Proof.
  intros T1 T2 [[Hv Hl] [Hs Ht]]. unfold addSegmentWithin.
  destruct (resolveNodeWithin_spec (nodes g) (nth i cleanedPoints origin))
    as [ex1 [E1 [X1 [I1 [D1 S1]]]]].
  destruct (resolveNodeWithin md (nodes g) _) as [idx1 ns1].
  cbn [fst snd] in *. subst ns1.
  destruct (resolveNodeWithin_spec (nodes g ++ ex1)
              (nth (i + 1) cleanedPoints origin))
    as [ex2 [E2 [X2 [I2 [D2 S2]]]]].
  destruct (resolveNodeWithin md (nodes g ++ ex1) _) as [idx2 ns2].
  cbn [fst snd] in *. subst ns2.
  assert (Hv' : validEdges {| nodes := (nodes g ++ ex1) ++ ex2;
                              edges := edges g |}).
  { rewrite <- app_assoc. apply validEdges_grow. now destruct g. }
  assert (Ht' : Forall T ((nodes g ++ ex1) ++ ex2)).
  { apply Forall_app; split; [apply Forall_app; split|]; [assumption| |].
    - destruct X1 as [-> | ->]; repeat constructor; assumption.
    - destruct X2 as [-> | ->]; repeat constructor; assumption. }
  assert (Hc1 : covers md ((nodes g ++ ex1) ++ ex2)
                  (nth i cleanedPoints origin)).
  { apply covers_grow. exists idx1. split; assumption. }
  assert (Hc2 : covers md ((nodes g ++ ex1) ++ ex2)
                  (nth (i + 1) cleanedPoints origin)).
  { exists idx2. split; assumption. }
  split; [|split; [|split]]; cbn [nodes edges].
  - split; [|split; [auto | exact Ht']].
    destruct (idx1 =? idx2)%nat eqn:E.
    + split; [exact Hv' | exact Hl].
    + apply Nat.eqb_neq in E. split.
      * unfold validEdges in *; cbn [nodes edges] in *.
        apply Forall_app. split; [exact Hv'|].
        constructor; [|constructor]. cbn [fst snd].
        rewrite !length_app in *. lia.
      * cbn [edges]. apply Forall_app. split; [exact Hl|].
        constructor; [exact E | constructor].
  - exists (ex1 ++ ex2). now rewrite app_assoc.
  - exact Hc1.
  - exact Hc2.
Qed.

Lemma segments_fold_spec (T : Point -> Prop) (cleanedPoints : list Point)
    (indices : list nat) :
  (forall i, In i indices ->
     T (nth i cleanedPoints origin) /\ T (nth (i + 1) cleanedPoints origin)) ->
  forall g : WallGraph,
    netInvariant md T g ->
    netInvariant md T (fold_left (addSegmentWithin md cleanedPoints) indices g)
    /\ (exists extra : list Point,
          nodes (fold_left (addSegmentWithin md cleanedPoints) indices g)
          = nodes g ++ extra)
    /\ forall i, In i indices ->
         covers md
           (nodes (fold_left (addSegmentWithin md cleanedPoints) indices g))
           (nth i cleanedPoints origin)
         /\ covers md
              (nodes (fold_left (addSegmentWithin md cleanedPoints) indices g))
              (nth (i + 1) cleanedPoints origin).
Proof.
  induction indices as [|i0 indices IH]; intros HT g Hg; cbn [fold_left].
  - split; [assumption|]. split; [exists []; now rewrite app_nil_r|].
    intros i [].
  - destruct (HT i0 (or_introl eq_refl)) as [T1 T2].
    destruct (addSegmentWithin_spec T cleanedPoints g i0 T1 T2 Hg)
      as [Hg' [[ex Ex] [C1 C2]]].
    destruct (IH (fun i Hi => HT i (or_intror Hi)) _ Hg')
      as [Hf [[ex' Ex'] Hc]].
    split; [assumption|]. split.
    + exists (ex ++ ex'). now rewrite Ex', Ex, app_assoc.
    + intros i [<- | Hi]; [|now apply Hc].
      rewrite Ex'. split; now apply covers_grow.
Qed.

Lemma addPathWithin_spec (T : Point -> Prop) (g : WallGraph) (path : Path) :
  (forall points p, segments path = Some points -> In p points -> T p) ->
  netInvariant md T g ->
  netInvariant md T (addPathWithin md g path)
  /\ (exists extra : list Point,
        nodes (addPathWithin md g path) = nodes g ++ extra)
  /\ forall points p,
       segments path = Some points ->
       (2 <= length points)%nat ->
       In p (removeColinearPoints points defaultAngleTolerance) ->
       covers md (nodes (addPathWithin md g path)) p.
Proof.
  intros HT Hg. unfold addPathWithin.
  destruct (segments path) as [points|] eqn:Es.
  - cbv zeta.
    set (cleaned := removeColinearPoints points defaultAngleTolerance).
    assert (Hin : forall i, (i < length cleaned)%nat ->
                    T (nth i cleaned origin)).
    { intros i Hi. apply (HT points); [reflexivity|].
      apply (removeColinearPoints_In points defaultAngleTolerance).
      now apply nth_In. }
    destruct (segments_fold_spec T cleaned (seq 0 (length cleaned - 1)))
      with (g := g) as [Hf [Hex Hc]]; [|assumption|].
    { intros i Hi. apply in_seq in Hi. split; apply Hin; lia. }
    split; [assumption|]. split; [assumption|].
    intros points' p [= <-] Hlen Hp.
    pose proof (removeColinearPoints_two points defaultAngleTolerance Hlen)
      as H2. fold cleaned in H2, Hp.
    destruct (In_nth cleaned p origin Hp) as [k [Hk <-]].
    destruct (Nat.eq_dec k (length cleaned - 1)) as [-> | Hne].
    + replace (length cleaned - 1)%nat
        with ((length cleaned - 2) + 1)%nat at 2 by lia.
      apply Hc, in_seq. lia.
    + apply Hc, in_seq. lia.
  - split; [assumption|]. split; [exists []; now rewrite app_nil_r|].
    intros points p [=].
Qed.

Lemma paths_fold_spec (T : Point -> Prop) (paths : list Path) :
  (forall path points p,
     In path paths -> segments path = Some points -> In p points -> T p) ->
  forall g : WallGraph,
    netInvariant md T g ->
    netInvariant md T (fold_left (addPathWithin md) paths g)
    /\ (exists extra : list Point,
          nodes (fold_left (addPathWithin md) paths g) = nodes g ++ extra)
    /\ forall path points p,
         In path paths ->
         segments path = Some points ->
         (2 <= length points)%nat ->
         In p (removeColinearPoints points defaultAngleTolerance) ->
         covers md (nodes (fold_left (addPathWithin md) paths g)) p.
Proof.
  induction paths as [|path0 paths IH]; intros HT g Hg; cbn [fold_left].
  - split; [assumption|]. split; [exists []; now rewrite app_nil_r|].
    intros path points p [].
  - destruct (addPathWithin_spec T g path0) as [Hg' [[ex Ex] Hc0]];
      [intros points p; apply HT; now left | assumption |].
    destruct (IH (fun path points p Hi => HT path points p (or_intror Hi))
                 _ Hg') as [Hf [[ex' Ex'] Hc]].
    split; [assumption|]. split.
    + exists (ex ++ ex'). now rewrite Ex', Ex, app_assoc.
    + intros path points p [<- | Hi] Es Hlen Hp.
      * rewrite Ex'. apply covers_grow. now apply (Hc0 points).
      * now apply (Hc path points).
Qed.

Lemma buildGraphWithin_net (paths : list Path) :
  builderInvariant (buildGraphWithin md paths)
  /\ separated md (nodes (buildGraphWithin md paths))
  /\ Forall (strokePoint paths) (nodes (buildGraphWithin md paths))
  /\ forall path points p,
       In path paths ->
       segments path = Some points ->
       (2 <= length points)%nat ->
       In p (removeColinearPoints points defaultAngleTolerance) ->
       covers md (nodes (buildGraphWithin md paths)) p.
Proof.
  unfold buildGraphWithin.
  destruct (paths_fold_spec (strokePoint paths) paths)
    with (g := {| nodes := @nil Point; edges := [] |})
    as [[Hb [Hs Ht]] [_ Hc]].
  - intros path points p Hi Es Hp. exists path, points. tauto.
  - split; [split; constructor|]. split; [|constructor].
    intros i j Hij. cbn in Hij. lia.
  - tauto.
Qed.

End Net.

(** The first loop of createWallGraph turns the strokes into a net of their
    points: the edges name existing nodes and are no self-loops, the nodes lie
    pairwise at least 40 pixels apart, every node is a raw point of some
    stroke (nothing is averaged or invented at this stage), and every point
    that the simplifier keeps of a stroke with at least two points has a node
    strictly within 40 pixels. *)
Theorem buildGraph_nodes_form_a_net (wallPaths : list Path) :
  validEdges (buildGraph wallPaths)
  /\ Forall noSelfLoop (edges (buildGraph wallPaths))
  /\ separated mergeDistance (nodes (buildGraph wallPaths))
  /\ Forall (strokePoint wallPaths) (nodes (buildGraph wallPaths))
  /\ forall path points p,
       In path wallPaths ->
       segments path = Some points ->
       (2 <= length points)%nat ->
       In p (removeColinearPoints points defaultAngleTolerance) ->
       covers mergeDistance (nodes (buildGraph wallPaths)) p.
Proof.
  rewrite buildGraph_within.
  assert (Hpos : 0 < mergeDistance) by (unfold mergeDistance; lra).
  destruct (buildGraphWithin_net mergeDistance Hpos wallPaths)
    as [[Hv Hl] H].
  tauto.
Qed.

(** The graph that the sketch pad's send logs: edges name existing nodes and
    are no self-loops, the nodes lie pairwise at least 25 pixels apart and
    are raw stroke points, and every point the simplifier keeps of a stroke
    with at least two points has a node strictly within 25 pixels. *)
Theorem sketch_pad_graph_is_a_net (paths : list Path) :
  validEdges (SketchPad.sendGraph paths)
  /\ Forall noSelfLoop (edges (SketchPad.sendGraph paths))
  /\ separated SketchPad.mergeDistance (nodes (SketchPad.sendGraph paths))
  /\ Forall (strokePoint paths) (nodes (SketchPad.sendGraph paths))
  /\ forall path points p,
       In path paths ->
       segments path = Some points ->
       (2 <= length points)%nat ->
       In p (removeColinearPoints points defaultAngleTolerance) ->
       covers SketchPad.mergeDistance (nodes (SketchPad.sendGraph paths)) p.
Proof.
  unfold SketchPad.sendGraph.
  assert (Hpos : 0 < SketchPad.mergeDistance)
    by (unfold SketchPad.mergeDistance; lra).
  destruct (buildGraphWithin_net SketchPad.mergeDistance Hpos paths)
    as [[Hv Hl] H].
  tauto.
Qed.

(** ** Edge keys and wall identifiers name their numbers *)

Lemma string_of_nat_inj (a b : nat) :
  string_of_nat a = string_of_nat b -> a = b.
Proof.
  unfold string_of_nat. intros H.
  apply (f_equal NilEmpty.uint_of_string) in H.
  rewrite !NilEmpty.usu in H. injection H as H.
  now apply Unsigned.to_uint_inj.
Qed.

(** A decimal numeral holds no dash: two numerals followed by a dash and
    more text agree as text only if they are the same numeral. *)
Lemma numeral_dash_split (d1 d2 : Decimal.uint) (t1 t2 : string) :
  (NilEmpty.string_of_uint d1 ++ "-" ++ t1
   = NilEmpty.string_of_uint d2 ++ "-" ++ t2)%string ->
  d1 = d2 /\ t1 = t2.
Proof.
  revert d2. induction d1 as [|d1 IH|d1 IH|d1 IH|d1 IH|d1 IH|d1 IH|d1 IH|d1 IH
                              |d1 IH|d1 IH];
    intros [|d2|d2|d2|d2|d2|d2|d2|d2|d2|d2];
    cbn [NilEmpty.string_of_uint String.append]; intros H;
    try discriminate H;
    try (injection H as H; destruct (IH _ H) as [-> ->]; now split).
  injection H as H. now split.
Qed.

Lemma edgeKey_inj (a b c d : nat) :
  edgeKey a b = edgeKey c d -> sameUnorderedPair (a, b) (c, d).
Proof.
  unfold edgeKey, string_of_nat. intros H.
  apply numeral_dash_split in H as [H1 H2].
  apply Unsigned.to_uint_inj in H1.
  apply (string_of_nat_inj (Nat.max a b) (Nat.max c d)) in H2.
  unfold sameUnorderedPair. cbn [fst snd]. lia.
Qed.

(** ** Deduplication keeps every connection *)

Lemma uniqueEdges_snoc (es : list (nat * nat)) (e : nat * nat) :
  uniqueEdges (es ++ [e])
  = mapSet (edgeKey (fst e) (snd e)) e (uniqueEdges es).
Proof. unfold uniqueEdges. now rewrite fold_left_app. Qed.

Lemma mapSet_In_cases {V : Type} (k k' : string) (v v' : V)
    (m : list (string * V)) :
  NoDup (map fst m) ->
  In (k', v') (mapSet k v m) ->
  (k' = k /\ v' = v) \/ (k' <> k /\ In (k', v') m).
Proof.
  induction m as [|[k0 v0] m IH]; cbn [mapSet map fst]; intros Hn.
  - intros [[= <- <-] | []]. now left.
  - inversion Hn as [|? ? Hnin Hn']; subst.
    destruct (String.eqb_spec k k0) as [<- | Hne].
    + intros [[= <- <-] | Hin]; [now left|].
      right. split; [|now right].
      intros ->. apply Hnin. now apply (in_map fst) in Hin.
    + intros [[= <- <-] | Hin].
      * right. split; [congruence | now left].
      * destruct (IH Hn' Hin) as [H | [H1 H2]]; [now left|].
        right. split; [assumption | now right].
Qed.

Lemma mapSet_fresh {V : Type} (k : string) (v : V) (m : list (string * V)) :
  ~ In k (map fst m) -> mapSet k v m = m ++ [(k, v)].
Proof.
  induction m as [|[k0 v0] m IH]; cbn [mapSet map fst In app]; intros Hn;
    [reflexivity|].
  destruct (String.eqb_spec k k0) as [-> | Hne]; [tauto|].
  rewrite IH; [reflexivity | tauto].
Qed.

Lemma uniqueEdges_keys (es : list (nat * nat)) (e : nat * nat) :
  In e es -> In (edgeKey (fst e) (snd e)) (map fst (uniqueEdges es)).
Proof.
  induction es as [|e0 es IH] using rev_ind; [intros []|].
  rewrite uniqueEdges_snoc, mapSet_keys. intros Hin.
  apply in_app_or in Hin as [Hin | [<- | []]].
  - destruct (in_dec _ _ _); [|apply in_or_app; left]; now apply IH.
  - destruct (in_dec _ _ _) as [Hk | Hk]; [assumption|].
    apply in_or_app. right. now left.
Qed.

(** Each entry holds the last edge filed under its key. *)
Lemma uniqueEdges_last (es : list (nat * nat)) (k : string) (e' : nat * nat) :
  In (k, e') (uniqueEdges es) ->
  k = edgeKey (fst e') (snd e')
  /\ exists pre post,
       es = pre ++ e' :: post
       /\ forall e, In e post -> edgeKey (fst e) (snd e) <> k.
Proof.
  revert k e'. induction es as [|e0 es IH] using rev_ind; intros k e'.
  - intros [].
  - rewrite uniqueEdges_snoc. intros Hin.
    destruct (uniqueEdges_spec es (fun _ => True)) as [Hn _];
      [apply Forall_forall; trivial|].
    apply (mapSet_In_cases _ _ _ _ _ Hn) in Hin as [[-> ->] | [Hne Hin]].
    + split; [reflexivity|]. exists es, []. split; [reflexivity|].
      intros e [].
    + destruct (IH _ _ Hin) as [Hk [pre [post [-> Hpost]]]].
      split; [assumption|].
      exists pre, (post ++ [e0]). split; [now rewrite <- app_assoc|].
      intros e He. apply in_app_or in He as [He | [<- | []]];
        [now apply Hpost | congruence].
Qed.

Lemma uniqueEdges_distinct_keys (es : list (nat * nat)) :
  NoDup (map (fun e => edgeKey (fst e) (snd e)) es) ->
  uniqueEdges es = map (fun e => (edgeKey (fst e) (snd e), e)) es.
Proof.
  induction es as [|e0 es IH] using rev_ind; [reflexivity|].
  rewrite map_app. cbn [map]. intros Hn.
  apply NoDup_remove in Hn as [Hn Hnin]. rewrite app_nil_r in Hn, Hnin.
  rewrite uniqueEdges_snoc, (IH Hn), map_app. cbn [map].
  apply mapSet_fresh. now rewrite map_map.
Qed.

Lemma mapValues_keys (m : list (string * (nat * nat))) :
  Forall keyedByEdge m ->
  map (fun e => edgeKey (fst e) (snd e)) (mapValues m) = map fst m.
Proof.
  unfold mapValues. induction 1 as [|[k v] m Hk _ IH]; [reflexivity|].
  cbn [map fst snd]. unfold keyedByEdge in Hk. cbn [fst snd] in Hk.
  now rewrite IH, Hk.
Qed.

(** The deduplication of createWallGraph, on any edge list.  Every edge it
    returns is the last edge of the input that joins its two nodes, so that
    the orientation of the last duplicate is the one kept; every edge of the
    input is represented by an edge that joins the same two nodes, so no
    connection is lost (the keys of two different pairs never collide); and
    running it again changes nothing. *)
Theorem deduplication_keeps_every_connection (es : list (nat * nat)) :
  (forall e', In e' (mapValues (uniqueEdges es)) ->
     exists pre post,
       es = pre ++ e' :: post
       /\ forall e, In e post -> ~ sameUnorderedPair e e')
  /\ (forall e, In e es ->
        exists e', In e' (mapValues (uniqueEdges es))
                   /\ sameUnorderedPair e e')
  /\ mapValues (uniqueEdges (mapValues (uniqueEdges es)))
     = mapValues (uniqueEdges es).
Proof.
  destruct (uniqueEdges_spec es (fun _ => True)) as [Hn [Hk _]];
    [apply Forall_forall; trivial|].
  split; [|split].
  - intros e' Hin. unfold mapValues in Hin.
    apply in_map_iff in Hin as [[k v] [<- Hin]]. cbn [snd].
    destruct (uniqueEdges_last es k v Hin) as [-> [pre [post [E Hpost]]]].
    exists pre, post. split; [assumption|].
    intros e He Hs. apply (Hpost e He). now apply edgeKey_unordered.
  - intros e He. apply uniqueEdges_keys in He.
    apply in_map_iff in He as [[k v] [Ek Hin]]. cbn [fst] in Ek.
    exists v. split.
    + unfold mapValues. now apply (in_map snd) in Hin.
    + rewrite Forall_forall in Hk. specialize (Hk _ Hin).
      unfold keyedByEdge in Hk. cbn [fst snd] in Hk.
      destruct e as [a b], v as [c d]. cbn [fst snd] in *.
      apply edgeKey_inj. congruence.
  - rewrite uniqueEdges_distinct_keys
      by (rewrite mapValues_keys; assumption).
    unfold mapValues at 1. rewrite map_map. cbn [snd]. apply map_id.
Qed.

(** ** The walls of the request *)

Lemma wallsFrom_spec (ns : list (Pt JsNum)) (es : list (nat * nat)) :
  forall (idx : nat) (ws : list Wall),
    wallsFrom ns idx es = Some ws ->
    length ws = length es
    /\ map wall_id ws
       = map (fun k => ("wall_" ++ string_of_nat k)%string)
             (seq idx (length es))
    /\ forall (k : nat) (e : nat * nat),
         nth_error es k = Some e ->
         exists n1 n2 : Pt JsNum,
           nth_error ns (fst e) = Some n1
           /\ nth_error ns (snd e) = Some n2
           /\ nth_error ws k
              = Some {| wall_id := ("wall_" ++ string_of_nat (idx + k))%string;
                        start_point := n1; end_point := n2 |}.
Proof.
  induction es as [|[i j] es IH]; intros idx ws; cbn [wallsFrom].
  - intros [= <-]. split; [reflexivity|]. split; [reflexivity|].
    intros [|k] e; discriminate.
  - destruct (nth_error ns i) as [n1|] eqn:E1; [|discriminate].
    destruct (nth_error ns j) as [n2|] eqn:E2; [|discriminate].
    destruct (wallsFrom ns (S idx) es) as [ws'|] eqn:Ew; [|discriminate].
    intros [= <-]. destruct (IH _ _ Ew) as [Hl [Hid Hk]].
    cbn [length map seq wall_id]. split; [now rewrite Hl|].
    split; [now rewrite Hid|].
    intros [|k] e; cbn [nth_error].
    + intros [= <-]. exists n1, n2. cbn [fst snd].
      rewrite Nat.add_0_r. destruct n1, n2. tauto.
    + intros He. destruct (Hk k e He) as [m1 [m2 [H1 [H2 H3]]]].
      exists m1, m2. replace (idx + S k)%nat with (S idx + k)%nat by lia.
      tauto.
Qed.

Lemma wall_id_inj (a b : nat) :
  ("wall_" ++ string_of_nat a)%string = ("wall_" ++ string_of_nat b)%string ->
  a = b.
Proof.
  cbn [String.append]. intros [= H]. now apply string_of_nat_inj.
Qed.

Lemma NoDup_map_injective {A B : Type} (f : A -> B) (l : list A) :
  (forall a b, f a = f b -> a = b) -> NoDup l -> NoDup (map f l).
Proof.
  intros Hf. induction 1 as [|a l Hnin _ IH]; cbn [map]; constructor;
    [|assumption].
  intros Hin. apply in_map_iff in Hin as [b [Hb Hin]].
  apply Hf in Hb. now subst.
Qed.

(** The walls of the request follow the edges of the graph: as many walls as
    edges, the k-th wall carries the identifier wall_k and the coordinates of
    the two nodes of the k-th edge, start first, and no two walls share an
    identifier. *)
Theorem walls_follow_edges (ns : list (Pt JsNum)) (es : list (nat * nat))
    (ws : list Wall) :
  wallsFrom ns 0 es = Some ws ->
  length ws = length es
  /\ NoDup (map wall_id ws)
  /\ forall (k : nat) (e : nat * nat),
       nth_error es k = Some e ->
       exists n1 n2 : Pt JsNum,
         nth_error ns (fst e) = Some n1
         /\ nth_error ns (snd e) = Some n2
         /\ nth_error ws k
            = Some {| wall_id := ("wall_" ++ string_of_nat k)%string;
                      start_point := n1; end_point := n2 |}.
Proof.
  intros H. destruct (wallsFrom_spec ns es 0 ws H) as [Hl [Hid Hk]].
  split; [assumption|]. split; [|exact Hk].
  rewrite Hid. apply NoDup_map_injective; [|apply seq_NoDup].
  intros a b. apply wall_id_inj.
Qed.

Lemma walls_follow_edges_witness :
  length [ {| wall_id := "wall_0";
              start_point := {| x := Fin 0; y := Fin 0 |};
              end_point := {| x := Fin 12; y := Fin 0 |} |} ] = 1%nat
  /\ NoDup ["wall_0"%string]
  /\ forall (k : nat) (e : nat * nat),
       nth_error [(0, 1)%nat] k = Some e ->
       exists n1 n2 : Pt JsNum,
         nth_error [ {| x := Fin 0; y := Fin 0 |};
                     {| x := Fin 12; y := Fin 0 |} ] (fst e) = Some n1
         /\ nth_error [ {| x := Fin 0; y := Fin 0 |};
                        {| x := Fin 12; y := Fin 0 |} ] (snd e) = Some n2
         /\ nth_error
              [ {| wall_id := "wall_0";
                   start_point := {| x := Fin 0; y := Fin 0 |};
                   end_point := {| x := Fin 12; y := Fin 0 |} |} ] k
            = Some {| wall_id := ("wall_" ++ string_of_nat k)%string;
                      start_point := n1; end_point := n2 |}.
Proof.
  apply (walls_follow_edges
           [ {| x := Fin 0; y := Fin 0 |}; {| x := Fin 12; y := Fin 0 |} ]
           [(0, 1)%nat]).
  reflexivity.
Defined.

(** ** The bounding box *)

Lemma tightBox_single (p : Point) : tightBox [p] (x p) (y p) (x p) (y p).
Proof.
  unfold tightBox. split; [|repeat split; exists p; split; auto; now left].
  intros q [<- | []]. lra.
Qed.

Lemma tightBox_snoc (seen : list Point) (p : Point) (x0 y0 x1 y1 : R) :
  tightBox seen x0 y0 x1 y1 ->
  tightBox (seen ++ [p]) (Rmin x0 (x p)) (Rmin y0 (y p))
           (Rmax x1 (x p)) (Rmax y1 (y p)).
Proof.
  intros [Hb [[px [Hpx Ex]] [[py [Hpy Ey]] [[qx [Hqx Fx]] [qy [Hqy Fy]]]]]].
  assert (Hl : forall q, In q seen -> In q (seen ++ [p]))
    by (intros q Hq; apply in_or_app; now left).
  assert (Hp : In p (seen ++ [p])) by (apply in_or_app; right; now left).
  unfold tightBox. split; [|split; [|split; [|split]]].
  - intros q Hq.
    pose proof (Rmin_l x0 (x p)). pose proof (Rmin_r x0 (x p)).
    pose proof (Rmin_l y0 (y p)). pose proof (Rmin_r y0 (y p)).
    pose proof (Rmax_l x1 (x p)). pose proof (Rmax_r x1 (x p)).
    pose proof (Rmax_l y1 (y p)). pose proof (Rmax_r y1 (y p)).
    apply in_app_or in Hq as [Hq | [<- | []]]; [|lra].
    specialize (Hb q Hq). lra.
  - destruct (Rmin_case_strong x0 (x p) (fun r => r = x0 \/ r = x p))
      as [-> | ->]; auto; [exists px | exists p]; auto.
  - destruct (Rmin_case_strong y0 (y p) (fun r => r = y0 \/ r = y p))
      as [-> | ->]; auto; [exists py | exists p]; auto.
  - destruct (Rmax_case_strong x1 (x p) (fun r => r = x1 \/ r = x p))
      as [-> | ->]; auto; [exists qx | exists p]; auto.
  - destruct (Rmax_case_strong y1 (y p) (fun r => r = y1 \/ r = y p))
      as [-> | ->]; auto; [exists qy | exists p]; auto.
Qed.

Lemma extendBySegment_extent (seen : list Point) (acc : Extent) (p : Point) :
  extentOf seen acc -> extentOf (seen ++ [p]) (extendBySegment acc p).
Proof.
  unfold extentOf. destruct seen as [|q seen].
  - intros ->. cbn [app extendBySegment jsMin jsMax].
    exists (x p), (y p), (x p), (y p). split; [reflexivity|].
    apply tightBox_single.
  - intros [x0 [y0 [x1 [y1 [-> Ht]]]]].
    cbn [app extendBySegment jsMin jsMax].
    apply (tightBox_snoc _ p) in Ht.
    exists (Rmin x0 (x p)), (Rmin y0 (y p)), (Rmax x1 (x p)), (Rmax y1 (y p)).
    split; [reflexivity | exact Ht].
Qed.

Lemma segments_fold_extent (segs seen : list Point) (acc : Extent) :
  extentOf seen acc ->
  extentOf (seen ++ segs) (fold_left extendBySegment segs acc).
Proof.
  revert seen acc. induction segs as [|p segs IH]; intros seen acc H;
    cbn [fold_left].
  - now rewrite app_nil_r.
  - replace (seen ++ p :: segs) with ((seen ++ [p]) ++ segs)
      by now rewrite <- app_assoc.
    apply IH, extendBySegment_extent, H.
Qed.

Lemma paths_fold_extent (paths : list Path) (seen : list Point)
    (acc : Extent) :
  extentOf seen acc ->
  extentOf (seen ++ pointsOf paths) (fold_left extendByPath paths acc).
Proof.
  revert seen acc. induction paths as [|path paths IH]; intros seen acc H;
    cbn [fold_left pointsOf flat_map].
  - now rewrite app_nil_r.
  - fold (pointsOf paths). rewrite app_assoc. apply IH.
    unfold extendByPath. destruct (segments path) as [segs|].
    + now apply segments_fold_extent.
    + now rewrite app_nil_r.
Qed.

Lemma findBoundingBox_extent (paths : list Path) :
  paths <> [] ->
  exists mnX mnY mxX mxY : JsNum,
    extentOf (pointsOf paths) (mnX, mnY, mxX, mxY)
    /\ findBoundingBox paths
       = {| minX := mnX; minY := mnY; maxX := mxX; maxY := mxY;
            width := jsSub mxX mnX;
            height := jsSub mxY mnY;
            centerX := Some (jsDiv (jsAdd mnX mxX) (Fin 2));
            centerY := Some (jsDiv (jsAdd mnY mxY) (Fin 2)) |}.
Proof.
  intros Hne.
  pose proof (paths_fold_extent paths [] (PosInf, PosInf, NegInf, NegInf)
                eq_refl) as H.
  cbn [app] in H. unfold findBoundingBox.
  destruct paths as [|path paths]; [contradiction|].
  destruct (fold_left extendByPath (path :: paths) _)
    as [[[mnX mnY] mxX] mxY].
  now exists mnX, mnY, mxX, mxY.
Qed.

(** When the paths hold at least one point, findBoundingBox returns the
    smallest axis-parallel box around all their points: the four extrema are
    finite, every point lies between them, each is the coordinate of some
    point, width and height are their differences (so never negative) and
    the centre is their midpoint. *)
Theorem findBoundingBox_is_tight (paths : list Path) :
  pointsOf paths <> [] ->
  exists x0 y0 x1 y1 : R,
    tightBox (pointsOf paths) x0 y0 x1 y1
    /\ 0 <= x1 - x0 /\ 0 <= y1 - y0
    /\ findBoundingBox paths
       = {| minX := Fin x0; minY := Fin y0; maxX := Fin x1; maxY := Fin y1;
            width := Fin (x1 - x0);
            height := Fin (y1 - y0);
            centerX := Some (Fin ((x0 + x1) / 2));
            centerY := Some (Fin ((y0 + y1) / 2)) |}.
Proof.
  intros Hp.
  assert (Hne : paths <> []) by (intros ->; now apply Hp).
  destruct (findBoundingBox_extent paths Hne)
    as [mnX [mnY [mxX [mxY [He ->]]]]].
  unfold extentOf in He.
  destruct (pointsOf paths) as [|p ps] eqn:E; [contradiction|].
  destruct He as [x0 [y0 [x1 [y1 [[= -> -> -> ->] Ht]]]]].
  exists x0, y0, x1, y1. split; [assumption|].
  destruct Ht as [Hb _]. destruct (Hb p (or_introl eq_refl)) as [Hx Hy].
  split; [lra|]. split; [lra|].
  cbn [jsSub jsAdd jsDiv].
  assert (H2 : Reqb 2 0 = false) by (apply Reqb_false; lra).
  now rewrite H2.
Qed.

Lemma findBoundingBox_is_tight_witness :
  exists x0 y0 x1 y1 : R,
    tightBox (pointsOf forkStrokes) x0 y0 x1 y1
    /\ 0 <= x1 - x0 /\ 0 <= y1 - y0
    /\ findBoundingBox forkStrokes
       = {| minX := Fin x0; minY := Fin y0; maxX := Fin x1; maxY := Fin y1;
            width := Fin (x1 - x0);
            height := Fin (y1 - y0);
            centerX := Some (Fin ((x0 + x1) / 2));
            centerY := Some (Fin ((y0 + y1) / 2)) |}.
Proof.
  apply (findBoundingBox_is_tight forkStrokes). discriminate.
Defined.

(** When the list of paths is not empty but holds no point at all (every
    path is without segments), the extrema stay at their initial infinities:
    width and height are -Infinity and the centre is NaN, and the reference
    length that send derives from such a box is -Infinity. *)
Theorem findBoundingBox_without_points (paths : list Path) :
  paths <> [] ->
  pointsOf paths = [] ->
  findBoundingBox paths
  = {| minX := PosInf; minY := PosInf; maxX := NegInf; maxY := NegInf;
       width := NegInf; height := NegInf;
       centerX := Some NaN; centerY := Some NaN |}
  /\ referenceLength paths = NegInf.
Proof.
  intros Hne Hp. unfold referenceLength.
  destruct (findBoundingBox_extent paths Hne)
    as [mnX [mnY [mxX [mxY [He ->]]]]].
  rewrite Hp in He. cbn [extentOf] in He.
  injection He as -> -> -> ->. split; reflexivity.
Qed.

Lemma findBoundingBox_without_points_witness :
  findBoundingBox emptyStrokes
  = {| minX := PosInf; minY := PosInf; maxX := NegInf; maxY := NegInf;
       width := NegInf; height := NegInf;
       centerX := Some NaN; centerY := Some NaN |}
  /\ referenceLength emptyStrokes = NegInf.
Proof.
  apply (findBoundingBox_without_points emptyStrokes);
    [discriminate | reflexivity].
Defined.

(** ** StrokeSimplifier: position and zoom do not matter *)

Lemma sqrt_scale (k a b : R) :
  sqrt (k * a * (k * a) + k * b * (k * b)) = Rabs k * sqrt (a * a + b * b).
Proof.
  replace (k * a * (k * a) + k * b * (k * b))
    with (Rsqr k * (a * a + b * b)) by (unfold Rsqr; ring).
  rewrite sqrt_mult; [|apply Rle_0_sqr|].
  - now rewrite sqrt_Rsqr_abs.
  - apply Rplus_le_le_0_compat; apply Rle_0_sqr.
Qed.

Lemma Reqb_scale (k m : R) : k <> 0 -> Reqb (Rabs k * m) 0 = Reqb m 0.
Proof.
  intros Hk. pose proof (Rabs_pos_lt k Hk) as Hp.
  destruct (Reqb m 0) eqn:E.
  - apply Reqb_true in E. subst. apply Reqb_true. ring.
  - apply Reqb_false in E. apply Reqb_false. nra.
Qed.

Lemma areColinear_similar (k tx ty : R) (p1 p2 p3 : Point) (tol : R) :
  k <> 0 ->
  areColinear (similar k tx ty p1) (similar k tx ty p2) (similar k tx ty p3)
              tol
  = areColinear p1 p2 p3 tol.
Proof.
  intros Hk. unfold areColinear, similar; cbn [x y].
  set (a := x p1 - x p2). set (b := y p1 - y p2).
  set (c := x p3 - x p2). set (d := y p3 - y p2).
  replace (k * x p1 + tx - (k * x p2 + tx)) with (k * a)
    by (unfold a; ring).
  replace (k * y p1 + ty - (k * y p2 + ty)) with (k * b)
    by (unfold b; ring).
  replace (k * x p3 + tx - (k * x p2 + tx)) with (k * c)
    by (unfold c; ring).
  replace (k * y p3 + ty - (k * y p2 + ty)) with (k * d)
    by (unfold d; ring).
  rewrite !sqrt_scale, !Reqb_scale by assumption.
  destruct (Reqb (sqrt (a * a + b * b)) 0) eqn:E1; [reflexivity|].
  destruct (Reqb (sqrt (c * c + d * d)) 0) eqn:E2; [reflexivity|].
  cbn [orb]. apply Reqb_false in E1, E2.
  replace ((k * a * (k * c) + k * b * (k * d))
           / (Rabs k * sqrt (a * a + b * b) * (Rabs k * sqrt (c * c + d * d))))
    with ((a * c + b * d) / (sqrt (a * a + b * b) * sqrt (c * c + d * d)));
    [reflexivity|].
  unfold Rabs. destruct (Rcase_abs k); field; repeat split; lra.
Qed.

Lemma last_map_nonempty {A B : Type} (f : A -> B) (l : list A) (d : B)
    (d' : A) :
  l <> [] -> last (map f l) d = f (last l d').
Proof.
  induction l as [|a [|b l] IH]; intros H; [contradiction | reflexivity |].
  change (last (map f (b :: l)) d = f (last (b :: l) d')).
  apply IH. discriminate.
Qed.

Lemma nth_map_inrange {A B : Type} (f : A -> B) (l : list A) (d : B)
    (d' : A) (i : nat) :
  (i < length l)%nat -> nth i (map f l) d = f (nth i l d').
Proof.
  intros H. rewrite (nth_indep _ d (f d')) by now rewrite length_map.
  apply map_nth.
Qed.

Section Invariance.

Variable f : Point -> Point.
Variable tol : R.
Hypothesis areColinear_f :
  forall p1 p2 p3, areColinear (f p1) (f p2) (f p3) tol
                   = areColinear p1 p2 p3 tol.

Lemma simplifyStep_map (points cleaned : list Point) (i : nat) :
  cleaned <> [] -> (i + 1 < length points)%nat ->
  simplifyStep (map f points) tol (map f cleaned) i
  = map f (simplifyStep points tol cleaned i).
Proof.
  intros Hc Hi. unfold simplifyStep.
  rewrite (last_map_nonempty f cleaned origin origin Hc).
  rewrite !(nth_map_inrange f points origin origin) by lia.
  rewrite areColinear_f.
  destruct (areColinear _ _ _ _); cbn [negb]; [reflexivity|].
  now rewrite map_app.
Qed.

Lemma cleanedAfter_map (points : list Point) (k : nat) :
  (k + 1 < length points)%nat ->
  cleanedAfter (map f points) tol k = map f (cleanedAfter points tol k).
Proof.
  induction k as [|k IH]; intros Hk.
  - unfold cleanedAfter. cbn [seq fold_left map].
    now rewrite (nth_map_inrange f points origin origin) by lia.
  - rewrite !cleanedAfter_succ, IH by lia.
    apply simplifyStep_map; [|lia].
    destruct (cleanedAfter_head points tol k) as [r ->]. discriminate.
Qed.

Lemma removeColinearPoints_map (points : list Point) :
  removeColinearPoints (map f points) tol
  = map f (removeColinearPoints points tol).
Proof.
  unfold removeColinearPoints. rewrite length_map.
  destruct (length points <=? 2)%nat eqn:E; [reflexivity|].
  apply Nat.leb_gt in E.
  rewrite map_app, cleanedAfter_map by lia. cbn [map].
  now rewrite (nth_map_inrange f points origin origin) by lia.
Qed.

End Invariance.

(** The simplifier does not depend on where the stroke lies or on the zoom:
    simplifying a stroke that was scaled by a factor other than zero and
    shifted gives the scaled and shifted result of simplifying the stroke
    itself, for every tolerance. *)
Theorem simplifier_ignores_position_and_zoom (k tx ty : R)
    (points : list Point) (tol : R) :
  k <> 0 ->
  removeColinearPoints (map (similar k tx ty) points) tol
  = map (similar k tx ty) (removeColinearPoints points tol).
Proof.
  intros Hk. apply removeColinearPoints_map.
  intros p1 p2 p3. now apply areColinear_similar.
Qed.

Lemma simplifier_ignores_position_and_zoom_witness :
  removeColinearPoints (map (similar 2 5 (-3)) bentStroke) 10
  = map (similar 2 5 (-3)) (removeColinearPoints bentStroke 10).
Proof.
  apply (simplifier_ignores_position_and_zoom 2 5 (-3) bentStroke 10). lra.
Defined.

(** ** StrokeSimplifier: the angle test as a dot product *)

Lemma coincide_normSq (a b : Point) : coincide a b <-> normSq a b = 0.
Proof.
  unfold coincide, normSq. split.
  - intros [-> ->]. ring.
  - intros H.
    destruct (Rplus_sqr_eq_0 (x a - x b) (y a - y b)) as [Hx Hy];
      [unfold Rsqr; exact H | lra].
Qed.

Lemma normSq_nonneg (a b : Point) : 0 <= normSq a b.
Proof.
  unfold normSq. apply Rplus_le_le_0_compat; apply Rle_0_sqr.
Qed.

Lemma normSq_distance (a b : Point) : distance a b = sqrt (normSq a b).
Proof.
  unfold distance, normSq. f_equal. ring.
Qed.

(** In exact arithmetic, for a tolerance of at least 1 and less than 180
    degrees, areColinear answers true exactly when one of the two outer
    points coincides with the middle one, or the dot product of the two
    vectors from the middle point is at most minus the cosine of the
    tolerance times the product of their lengths; the answer is the same
    when the outer points are exchanged.  (Tolerances near 0 are left out:
    there the rounding of the arc cosine near -1, about a millionth of a
    degree, decides the answer of the code on exactly colinear points.) *)
Theorem areColinear_is_a_dot_product_test (p1 p2 p3 : Point) (tol : R) :
  1 <= tol < 180 ->
  (areColinear p1 p2 p3 tol = true
   <-> coincide p1 p2 \/ coincide p3 p2
       \/ dotAt p1 p2 p3
          <= - cos (tol * (PI / 180)) * sqrt (normSq p1 p2 * normSq p3 p2))
  /\ areColinear p3 p2 p1 tol = areColinear p1 p2 p3 tol.
Proof.
  intros Ht. split.
  - destruct (Req_dec_T (normSq p1 p2) 0) as [Z1 | N1].
    { split; [intros _; left; now apply coincide_normSq|]. intros _.
      apply areColinear_zero_length. left.
      now rewrite normSq_distance, Z1, sqrt_0. }
    destruct (Req_dec_T (normSq p3 p2) 0) as [Z3 | N3].
    { split; [intros _; right; left; now apply coincide_normSq|]. intros _.
      apply areColinear_zero_length. right.
      now rewrite normSq_distance, Z3, sqrt_0. }
    pose proof (normSq_nonneg p1 p2) as Q1.
    pose proof (normSq_nonneg p3 p2) as Q3.
    assert (P1 : 0 < normSq p1 p2) by lra.
    assert (P3 : 0 < normSq p3 p2) by lra.
    assert (Ht' : 0 <= tol < 180) by lra.
    rewrite (areColinear_iff p1 p2 p3 tol Ht' P1 P3).
    split; [tauto|].
    intros [H | [H | H]]; [| |assumption];
      apply coincide_normSq in H; contradiction.
  - unfold areColinear; cbn [x y].
    rewrite orb_comm.
    rewrite (Rmult_comm (sqrt ((x p3 - x p2) * (x p3 - x p2)
                                + (y p3 - y p2) * (y p3 - y p2)))).
    now rewrite (Rmult_comm (x p3 - x p2) (x p1 - x p2)),
                (Rmult_comm (y p3 - y p2) (y p1 - y p2)).
Qed.

Lemma areColinear_is_a_dot_product_test_witness :
  (areColinear origin {| x := 50; y := 0 |} {| x := 100; y := 5 |} 10 = true
   <-> coincide origin {| x := 50; y := 0 |}
       \/ coincide {| x := 100; y := 5 |} {| x := 50; y := 0 |}
       \/ dotAt origin {| x := 50; y := 0 |} {| x := 100; y := 5 |}
          <= - cos (10 * (PI / 180))
             * sqrt (normSq origin {| x := 50; y := 0 |}
                     * normSq {| x := 100; y := 5 |} {| x := 50; y := 0 |}))
  /\ areColinear {| x := 100; y := 5 |} {| x := 50; y := 0 |} origin 10
     = areColinear origin {| x := 50; y := 0 |} {| x := 100; y := 5 |} 10.
Proof.
  apply (areColinear_is_a_dot_product_test
           origin {| x := 50; y := 0 |} {| x := 100; y := 5 |} 10).
  lra.
Defined.

(** ** AxisRectifier: the snap criterion as a slope test *)

Lemma snapSlope_positive : 0 < snapSlope.
Proof.
  unfold snapSlope. pose proof PI_RGT_0. pose proof PI_4.
  apply tan_gt_0; lra.
Qed.

(** An arc tangent is at most ten degrees exactly when its argument is at
    most the snap slope. *)
Lemma atan_degrees_le_10 (t : R) :
  atan t * (180 / PI) <= 10 <-> t <= snapSlope.
Proof.
  pose proof PI_RGT_0 as Hpi. pose proof PI_4.
  assert (E : atan snapSlope = PI / 18)
    by (unfold snapSlope; apply atan_tan; lra).
  assert (Hk : forall a, a * (180 / PI) <= 10 <-> a <= PI / 18).
  { intros a.
    assert (Ea : a * (180 / PI) = a / (PI / 18) * 10) by (field; lra).
    rewrite Ea. split; intros Ha.
    - apply Rmult_le_reg_r with (/ (PI / 18)).
      + apply Rinv_0_lt_compat. lra.
      + rewrite Rinv_r by lra. fold (a / (PI / 18)). lra.
    - assert (a / (PI / 18) <= 1); [|lra].
      apply Rmult_le_reg_r with (PI / 18); [lra|].
      unfold Rdiv at 1. rewrite Rmult_assoc, Rinv_l by lra. lra. }
  rewrite Hk, <- E. split; intros Ha.
  - destruct (Rle_or_lt t snapSlope) as [Hle | Hlt]; [assumption|].
    apply atan_increasing in Hlt. lra.
  - destruct Ha as [Ha | ->]; [|lra].
    apply atan_increasing in Ha. lra.
Qed.

Lemma div_le_iff (a b c : R) : 0 < b -> (a / b <= c <-> a <= c * b).
Proof.
  intros Hb. split; intros H.
  - apply Rmult_le_reg_r with (/ b); [now apply Rinv_0_lt_compat|].
    rewrite Rmult_assoc, Rinv_r by lra. fold (a / b). lra.
  - apply Rmult_le_reg_r with b; [assumption|].
    unfold Rdiv. rewrite Rmult_assoc, Rinv_l by lra. lra.
Qed.

Lemma directionOf_right (dy dx : R) :
  0 < dx ->
  (0 <= dy -> directionOf dy dx = atan (dy / dx) * (180 / PI))
  /\ (dy < 0 -> directionOf dy dx = atan (dy / dx) * (180 / PI) + 360).
Proof.
  intros Hx. unfold directionOf, atan2.
  rewrite (proj2 (Rltb_true 0 dx)) by assumption.
  destruct (atan_degrees (dy / dx)) as [Hb [H0 [_ [_ Hn]]]].
  assert (Hi : 0 < / dx) by now apply Rinv_0_lt_compat.
  split; intros Hy.
  - apply normalizeAngle_nonneg.
    assert (0 <= dy / dx) by (apply Rmult_le_pos; lra).
    specialize (H0 H). lra.
  - apply normalizeAngle_neg.
    assert (dy / dx < 0).
    { unfold Rdiv. replace 0 with (0 * / dx) by ring.
      apply Rmult_lt_compat_r; assumption. }
    specialize (Hn H). lra.
Qed.

Lemma atan_steep (a b : R) :
  0 < a -> 0 < b ->
  atan (b / a) * (180 / PI) = 90 - atan (a / b) * (180 / PI).
Proof.
  intros Ha Hb.
  assert (Hab : 0 < a / b)
    by (apply Rmult_lt_0_compat; [|apply Rinv_0_lt_compat]; assumption).
  replace (b / a) with (/ (a / b)) by (field; lra).
  rewrite (atan_inv _ Hab), Rmult_minus_distr_r, quarter_turn_degrees.
  reflexivity.
Qed.

Lemma slope_test_right (dy dx : R) :
  0 < dx ->
  (isNearHorizontal (directionOf dy dx) = true
   <-> Rabs dy <= snapSlope * dx)
  /\ (isNearVertical (directionOf dy dx) = true
      <-> dx <= snapSlope * Rabs dy).
Proof.
  intros Hx. pose proof snapSlope_positive as HT.
  destruct (directionOf_right dy dx Hx) as [Hp Hn].
  destruct (atan_degrees (dy / dx)) as [Hb _].
  rewrite isNearHorizontal_iff, isNearVertical_iff.
  destruct (Rtotal_order dy 0) as [Hy | [Hy | Hy]].
  - (* pointing up on the canvas: dy < 0 *)
    rewrite (Hn Hy), (Rabs_left dy Hy).
    assert (Eo : atan (dy / dx) = - atan (- dy / dx)).
    { rewrite <- atan_opp. f_equal. field. lra. }
    pose proof (atan_degrees_le_10 (- dy / dx)) as H10.
    rewrite (div_le_iff (- dy) dx snapSlope Hx) in H10.
    assert (Es : atan (- dy / dx) * (180 / PI)
                 = 90 - atan (dx / - dy) * (180 / PI))
      by (apply atan_steep; lra).
    pose proof (atan_degrees_le_10 (dx / - dy)) as V10.
    rewrite (div_le_iff dx (- dy) snapSlope) in V10 by lra.
    rewrite Eo in *.
    replace (- atan (- dy / dx) * (180 / PI))
      with (- (atan (- dy / dx) * (180 / PI))) in * by ring.
    split; split; intros H; lra.
  - (* level *)
    subst dy. rewrite (Hp (Rle_refl 0)), Rabs_R0.
    unfold Rdiv. rewrite Rmult_0_l, atan_0, Rmult_0_l.
    split; split; intros H; nra.
  - (* pointing down on the canvas: dy > 0 *)
    rewrite (Hp (Rlt_le _ _ Hy)), (Rabs_right dy) by lra.
    pose proof (atan_degrees_le_10 (dy / dx)) as H10.
    rewrite (div_le_iff dy dx snapSlope Hx) in H10.
    assert (Es : atan (dy / dx) * (180 / PI)
                 = 90 - atan (dx / dy) * (180 / PI))
      by (apply atan_steep; lra).
    pose proof (atan_degrees_le_10 (dx / dy)) as V10.
    rewrite (div_le_iff dx dy snapSlope Hy) in V10.
    destruct (atan_degrees (dy / dx)) as [_ [H0 _]].
    assert (0 <= dy / dx)
      by (apply Rmult_le_pos; [lra | left; now apply Rinv_0_lt_compat]).
    specialize (H0 H).
    split; split; intros H'; lra.
Qed.

Lemma slope_test (n1 n2 : Point) :
  (isNearHorizontal (edgeAngle n1 n2) = true
   <-> Rabs (y n2 - y n1) <= snapSlope * Rabs (x n2 - x n1))
  /\ (isNearVertical (edgeAngle n1 n2) = true
      <-> y n2 <> y n1
          /\ Rabs (x n2 - x n1) <= snapSlope * Rabs (y n2 - y n1)).
Proof.
  pose proof snapSlope_positive as HT.
  destruct (Rtotal_order (x n2 - x n1) 0) as [Hx | [Hx | Hx]].
  - (* the edge runs to the left: read it from its other end *)
    destruct (classification_reverse n1 n2) as [<- <-].
    rewrite (edgeAngle_direction n2 n1).
    assert (Hx' : 0 < x n1 - x n2) by lra.
    destruct (slope_test_right (y n1 - y n2) (x n1 - x n2) Hx') as [H V].
    rewrite H, V.
    rewrite (Rabs_left (x n2 - x n1)) by assumption.
    replace (Rabs (y n1 - y n2)) with (Rabs (y n2 - y n1))
      by (rewrite <- Rabs_Ropp; f_equal; ring).
    replace (- (x n2 - x n1)) with (x n1 - x n2) by ring.
    split; [tauto|]. split; [|tauto].
    intros Hv. split; [|assumption].
    intros E. rewrite E, Rminus_diag, Rabs_R0 in Hv. lra.
  - (* no run *)
    rewrite edgeAngle_direction, Hx, Rabs_R0, Rmult_0_r.
    destruct (Req_dec_T (y n2 - y n1) 0) as [Hy | Hy].
    + rewrite Hy, Rabs_R0.
      rewrite isNearHorizontal_iff, isNearVertical_iff.
      destruct (directionOf_level 0) as [-> | ->];
        (split; split; [lra | lra | lra | intros [Hne _]; lra]).
    + pose proof (Rabs_pos_lt _ Hy) as Hpos.
      rewrite isNearHorizontal_iff, isNearVertical_iff.
      destruct (directionOf_plumb _ Hy) as [-> | ->];
        (split; split; [lra | lra | intros _; split; nra | lra]).
  - (* the edge runs to the right *)
    rewrite edgeAngle_direction.
    destruct (slope_test_right (y n2 - y n1) (x n2 - x n1) Hx) as [H V].
    rewrite H, V, (Rabs_right (x n2 - x n1)) by lra.
    split; [tauto|]. split; [|tauto].
    intros Hv. split; [|assumption].
    intros E. rewrite E, Rminus_diag, Rabs_R0 in Hv. lra.
Qed.

(** The angle test of the rectification loop is a slope test: an edge counts
    as near-horizontal exactly when its rise is at most tan(10 degrees) times
    its run, and as near-vertical exactly when it has a rise and its run is
    at most tan(10 degrees) times the rise.  An edge between two nodes at the
    same place counts as horizontal. *)
Theorem snap_criterion_is_a_slope_test (n1 n2 : Point) :
  (isNearHorizontal (edgeAngle n1 n2) = true
   <-> Rabs (y n2 - y n1) <= tan (PI / 18) * Rabs (x n2 - x n1))
  /\ (isNearVertical (edgeAngle n1 n2) = true
      <-> y n2 <> y n1
          /\ Rabs (x n2 - x n1) <= tan (PI / 18) * Rabs (y n2 - y n1)).
Proof. exact (slope_test n1 n2). Qed.

(** One pass of the rectification loop over an edge with two different
    ends moves no other node.  A near-horizontal edge keeps the x of both
    ends and puts both at the mean of their y, so each end moves straight up
    or down by half their offset, which is at most tan(10 degrees) / 2 times
    the run of the edge.  An edge that is not near-horizontal but
    near-vertical keeps the y of both ends and puts both at the mean of
    their x, each end moving sideways by at most tan(10 degrees) / 2 times the
    rise.  Any other edge leaves both ends where they are. *)
Theorem rectifyEdge_moves_little (ns : list Point) (i j : nat)
    (n1 n2 : Point) :
  nth_error ns i = Some n1 ->
  nth_error ns j = Some n2 ->
  i <> j ->
  exists (ns' : list Point) (m1 m2 : Point),
    rectifyEdge ns (i, j) = Some ns'
    /\ nth_error ns' i = Some m1
    /\ nth_error ns' j = Some m2
    /\ (forall k, k <> i -> k <> j -> nth_error ns' k = nth_error ns k)
    /\ ((isNearHorizontal (edgeAngle n1 n2) = true
         /\ x m1 = x n1 /\ x m2 = x n2
         /\ y m1 = (y n1 + y n2) / 2 /\ y m2 = (y n1 + y n2) / 2
         /\ Rabs (y m1 - y n1) = Rabs (y n2 - y n1) / 2
         /\ Rabs (y m2 - y n2) = Rabs (y n2 - y n1) / 2
         /\ Rabs (y n2 - y n1) / 2
            <= tan (PI / 18) / 2 * Rabs (x n2 - x n1))
        \/ (isNearHorizontal (edgeAngle n1 n2) = false
            /\ isNearVertical (edgeAngle n1 n2) = true
            /\ y m1 = y n1 /\ y m2 = y n2
            /\ x m1 = (x n1 + x n2) / 2 /\ x m2 = (x n1 + x n2) / 2
            /\ Rabs (x m1 - x n1) = Rabs (x n2 - x n1) / 2
            /\ Rabs (x m2 - x n2) = Rabs (x n2 - x n1) / 2
            /\ Rabs (x n2 - x n1) / 2
               <= tan (PI / 18) / 2 * Rabs (y n2 - y n1))
        \/ (isNearHorizontal (edgeAngle n1 n2) = false
            /\ isNearVertical (edgeAngle n1 n2) = false
            /\ ns' = ns /\ m1 = n1 /\ m2 = n2)).
Proof.
  intros H1 H2 Hij.
  destruct (slope_test n1 n2) as [Hh Hv]. unfold snapSlope in Hh, Hv.
  assert (Hhalf : forall a b, Rabs ((a + b) / 2 - a) = Rabs (b - a) / 2).
  { intros a b. replace ((a + b) / 2 - a) with ((b - a) * / 2) by field.
    rewrite Rabs_mult, (Rabs_right (/ 2)) by lra. reflexivity. }
  assert (Hhalf' : forall a b, Rabs ((a + b) / 2 - b) = Rabs (b - a) / 2).
  { intros a b. replace ((a + b) / 2 - b) with (- ((b - a) * / 2)) by field.
    rewrite Rabs_Ropp, Rabs_mult, (Rabs_right (/ 2)) by lra. reflexivity. }
  assert (Ei : (i =? j)%nat = false) by now apply Nat.eqb_neq.
  assert (Ej : (j =? i)%nat = false) by (apply Nat.eqb_neq; congruence).
  unfold rectifyEdge. rewrite H1, H2.
  destruct (isNearHorizontal (edgeAngle n1 n2)) eqn:EH;
    [|destruct (isNearVertical (edgeAngle n1 n2)) eqn:EV]; cbv zeta.
  - pose proof (proj1 Hh eq_refl) as EH'.
    exists (modify j (setY ((y n1 + y n2) / 2))
              (modify i (setY ((y n1 + y n2) / 2)) ns)),
      (setY ((y n1 + y n2) / 2) n1), (setY ((y n1 + y n2) / 2) n2).
    split; [reflexivity|].
    rewrite !nth_error_modify, Ej, Ei, !Nat.eqb_refl, H1, H2.
    split; [reflexivity|]. split; [reflexivity|]. split.
    { intros k Hki Hkj. rewrite !nth_error_modify.
      destruct (Nat.eqb_spec j k); [congruence|].
      destruct (Nat.eqb_spec i k); [congruence | reflexivity]. }
    left. unfold setY; cbn [x y]. rewrite Hhalf, Hhalf'.
    split; [reflexivity|]. split; [reflexivity|]. split; [reflexivity|].
    split; [reflexivity|]. split; [reflexivity|]. split; [reflexivity|].
    split; [reflexivity|]. lra.
  - destruct (proj1 Hv eq_refl) as [_ EV'].
    exists (modify j (setX ((x n1 + x n2) / 2))
              (modify i (setX ((x n1 + x n2) / 2)) ns)),
      (setX ((x n1 + x n2) / 2) n1), (setX ((x n1 + x n2) / 2) n2).
    split; [reflexivity|].
    rewrite !nth_error_modify, Ej, Ei, !Nat.eqb_refl, H1, H2.
    split; [reflexivity|]. split; [reflexivity|]. split.
    { intros k Hki Hkj. rewrite !nth_error_modify.
      destruct (Nat.eqb_spec j k); [congruence|].
      destruct (Nat.eqb_spec i k); [congruence | reflexivity]. }
    right. left. unfold setX; cbn [x y]. rewrite Hhalf, Hhalf'.
    split; [reflexivity|]. split; [reflexivity|]. split; [reflexivity|].
    split; [reflexivity|]. split; [reflexivity|]. split; [reflexivity|].
    split; [reflexivity|]. split; [reflexivity|]. lra.
  - exists ns, n1, n2.
    split; [reflexivity|]. split; [assumption|]. split; [assumption|].
    split; [reflexivity|]. right. right. repeat split.
Qed.

(** A wall that rises 6 pixels over a run of 100. *)
Lemma rectifyEdge_moves_little_witness :
  exists (ns' : list Point) (m1 m2 : Point),
    rectifyEdge skewNodes (0, 1)%nat = Some ns'
    /\ nth_error ns' 0 = Some m1
    /\ nth_error ns' 1 = Some m2
    /\ (forall k, k <> 0%nat -> k <> 1%nat ->
          nth_error ns' k = nth_error skewNodes k)
    /\ ((isNearHorizontal (edgeAngle {| x := 0; y := 0 |}
                                     {| x := 100; y := 6 |}) = true
         /\ x m1 = 0 /\ x m2 = 100
         /\ y m1 = (0 + 6) / 2 /\ y m2 = (0 + 6) / 2
         /\ Rabs (y m1 - 0) = Rabs (6 - 0) / 2
         /\ Rabs (y m2 - 6) = Rabs (6 - 0) / 2
         /\ Rabs (6 - 0) / 2 <= tan (PI / 18) / 2 * Rabs (100 - 0))
        \/ (isNearHorizontal (edgeAngle {| x := 0; y := 0 |}
                                        {| x := 100; y := 6 |}) = false
            /\ isNearVertical (edgeAngle {| x := 0; y := 0 |}
                                         {| x := 100; y := 6 |}) = true
            /\ y m1 = 0 /\ y m2 = 6
            /\ x m1 = (0 + 100) / 2 /\ x m2 = (0 + 100) / 2
            /\ Rabs (x m1 - 0) = Rabs (100 - 0) / 2
            /\ Rabs (x m2 - 100) = Rabs (100 - 0) / 2
            /\ Rabs (100 - 0) / 2 <= tan (PI / 18) / 2 * Rabs (6 - 0))
        \/ (isNearHorizontal (edgeAngle {| x := 0; y := 0 |}
                                        {| x := 100; y := 6 |}) = false
            /\ isNearVertical (edgeAngle {| x := 0; y := 0 |}
                                         {| x := 100; y := 6 |}) = false
            /\ ns' = skewNodes /\ m1 = {| x := 0; y := 0 |}
            /\ m2 = {| x := 100; y := 6 |})).
Proof.
  apply (rectifyEdge_moves_little skewNodes 0 1
           {| x := 0; y := 0 |} {| x := 100; y := 6 |});
    [reflexivity | reflexivity | lia].
Defined.

(** ** DoorProjector: every door lands on the walls *)

Lemma addDoor_snapped (g : WallGraph) (doors doors' : list (Door R))
    (path : Path) :
  validEdges g ->
  Forall (doorSnapped g) doors ->
  addDoor g doors path = Some doors' ->
  Forall (doorSnapped g) doors'.
Proof.
  intros Hv Hd. unfold addDoor.
  destruct (segments path) as [segs|]; [|now intros [= <-]].
  destruct (length segs <? 2)%nat; [now intros [= <-]|].
  destruct (snapToNearestEdge_nearest g (nth 0 segs origin) Hv)
    as [s [-> Hs]].
  destruct (snapToNearestEdge_nearest g (nth (length segs - 1) segs origin) Hv)
    as [e [-> He]].
  intros [= <-]. apply Forall_app. split; [assumption|].
  constructor; [|constructor]. split; assumption.
Qed.

Lemma findDoorsFrom_snapped (g : WallGraph) (doorPaths : list Path) :
  validEdges g ->
  forall doors ds,
    Forall (doorSnapped g) doors ->
    findDoorsFrom g doors doorPaths = Some ds ->
    Forall (doorSnapped g) ds.
Proof.
  intros Hv.
  induction doorPaths as [|path rest IH]; intros doors ds Hd;
    cbn [findDoorsFrom].
  - now intros [= <-].
  - destruct (addDoor g doors path) as [doors'|] eqn:E; [|discriminate].
    apply IH. exact (addDoor_snapped g doors doors' path Hv Hd E).
Qed.

(** On a graph whose edges name existing nodes, findDoors returns one door
    for every door stroke of at least two points, in stroke order; the
    original of the door holds the first and last raw point of the stroke, and
    each of its two ends is the point of the walls nearest to the raw end: a
    point of an edge with two different ends such that no point of any such
    edge is nearer.  Only when no edge has two different ends do the raw ends
    come back as they are. *)
Theorem findDoors_snaps_to_nearest_wall (g : WallGraph)
    (doorPaths : list Path) :
  validEdges g ->
  exists ds : list (Door R),
    findDoors doorPaths g = Some ds
    /\ map original ds = rawEndpoints doorPaths
    /\ Forall (doorSnapped g) ds.
Proof.
  intros Hv. unfold findDoors.
  destruct (findDoorsFrom_total g Hv doorPaths []) as [ds E].
  exists ds. split; [assumption|]. split.
  - exact (findDoorsFrom_original g doorPaths [] ds E).
  - exact (findDoorsFrom_snapped g doorPaths Hv [] ds (Forall_nil _) E).
Qed.

(** A door stroke against a room of four walls. *)
Lemma findDoors_snaps_to_nearest_wall_witness :
  exists ds : list (Door R),
    findDoors [doorStroke] roomGraph = Some ds
    /\ map original ds = rawEndpoints [doorStroke]
    /\ Forall (doorSnapped roomGraph) ds.
Proof.
  apply (findDoors_snaps_to_nearest_wall roomGraph [doorStroke]).
  repeat constructor.
Defined.

(** ** The sketch parser *)

Section ParserFacts.

Import SvgParser.

Context {Canvas Blob : Type}.
Variable env : Env Canvas Blob.

Lemma orElse_truthy (v : JsVal) : truthy (orElse v (JArray [])) = true.
Proof. unfold orElse. destruct (truthy v) eqn:E; [exact E | reflexivity]. Qed.

Lemma getProp_field (v : JsVal) (k : string) (log : list Request) :
  v <> JNull -> v <> JUndefined ->
  getProp v k log = (Returned (field v k), log).
Proof. destruct v; intros H1 H2; try reflexivity; contradiction. Qed.

Lemma truthy_defined (v : JsVal) :
  truthy v = true -> v <> JNull /\ v <> JUndefined.
Proof. destruct v; cbn; intros H; split; discriminate. Qed.

(** The text of the first content block, when there is one. *)
Ltac read_answer :=
  repeat match goal with
    | |- context [match content ?r with _ => _ end] =>
        destruct (content r) as [[|? ?]|]
    | |- context [match text ?b with _ => _ end] => destruct (text b)
    | |- context [match parseJSON ?e ?s with _ => _ end] =>
        destruct (parseJSON e s) as [[]|]
    | |- context [match create ?e ?k ?r with _ => _ end] =>
        destruct (create e k r)
    end; cbn.

Lemma parseWallsOnly_log (svgContent apiKey : string) (log : list Request) :
  exists o : Outcome JsVal,
    parseWallsOnly env svgContent apiKey log
    = (o, log ++ (if newAnthropic env apiKey
                  then [WallsRequest svgContent] else [])).
Proof.
  unfold parseWallsOnly, bind, construct, request, tryCatch, jsonParse,
    getProp, ret, throw.
  destruct (newAnthropic env apiKey); [|rewrite app_nil_r; now eexists].
  read_answer; now eexists.
Qed.

Lemma parseDoorsOnly_log (svgContent apiKey : string) (log : list Request) :
  exists o : Outcome JsVal,
    parseDoorsOnly env svgContent apiKey log
    = (o, log ++ (if newAnthropic env apiKey
                  then [DoorsRequest svgContent] else []))
    /\ forall v, o = Returned v -> truthy v = true.
Proof.
  unfold parseDoorsOnly, bind, construct, request, tryCatch, jsonParse,
    getProp, ret, throw.
  destruct (newAnthropic env apiKey);
    [|rewrite app_nil_r; eexists; split; [reflexivity | discriminate]].
  read_answer;
    (eexists; split; [reflexivity|]);
    intros v [= <-]; try apply orElse_truthy; reflexivity.
Qed.

Lemma parseRoomsFromCanvas_log (canvas : Canvas) (apiKey : string)
    (log : list Request) :
  exists o : Outcome JsVal,
    parseRoomsFromCanvas env canvas apiKey log
    = (o, log ++ roomsAsked env (Some canvas) apiKey)
    /\ forall v, o = Returned v -> truthy v = true.
Proof.
  unfold parseRoomsFromCanvas, bind, construct, canvasToPngBlob,
    blobToBase64, request, tryCatch, jsonParse, getProp, ret, throw,
    roomsAsked.
  destruct (newAnthropic env apiKey);
    [|rewrite app_nil_r; eexists; split; [reflexivity | discriminate]].
  destruct (toBlob env canvas) as [blob|];
    [|rewrite app_nil_r; eexists; split; [reflexivity | discriminate]].
  destruct (readAsDataURL env blob) as [result|];
    [|rewrite app_nil_r; eexists; split; [reflexivity | discriminate]].
  read_answer;
    (eexists; split; [reflexivity|]);
    intros v [= <-]; try apply orElse_truthy; reflexivity.
Qed.

Lemma roomsAsked_shape (canvas : option Canvas) (apiKey : string) :
  roomsAsked env canvas apiKey = []
  \/ exists img, roomsAsked env canvas apiKey = [RoomsRequest img].
Proof.
  unfold roomsAsked. destruct canvas as [c|]; [|now left].
  destruct (newAnthropic env apiKey); [|now left].
  destruct (toBlob env c) as [blob|]; [|now left].
  destruct (readAsDataURL env blob); [right; now eexists | now left].
Qed.

(** A guarded call never throws, and gives the fallback or what the call
    returns. *)
Lemma guarded (m : M JsVal) (log : list Request) (o : Outcome JsVal)
    (log' : list Request) :
  m log = (o, log') ->
  exists v : JsVal,
    tryCatch m (fun _ => ret (JArray [])) log = (Returned v, log')
    /\ (v = JArray [] \/ o = Returned v).
Proof.
  intros E. unfold tryCatch. rewrite E. destruct o as [v|e].
  - exists v. split; [reflexivity | now right].
  - exists (JArray []). split; [reflexivity | now left].
Qed.

Lemma rooms_step (canvas : option Canvas) (apiKey : string)
    (log : list Request) :
  exists rooms : JsVal,
    match canvas with
    | Some c => tryCatch (parseRoomsFromCanvas env c apiKey)
                         (fun _ => ret (JArray []))
    | None => ret (JArray [])
    end log = (Returned rooms, log ++ roomsAsked env canvas apiKey)
    /\ truthy rooms = true
    /\ (canvas = None -> rooms = JArray []).
Proof.
  destruct canvas as [c|].
  - destruct (parseRoomsFromCanvas_log c apiKey log) as [o [E Ht]].
    destruct (guarded _ _ _ _ E) as [v [Ev Hv]].
    exists v. split; [exact Ev|]. split; [|discriminate].
    destruct Hv as [-> | Hv]; [reflexivity | now apply Ht].
  - exists (JArray []). cbn [roomsAsked]. rewrite app_nil_r. unfold ret.
    split; [reflexivity|]. split; reflexivity.
Qed.

Lemma wallsAndDoors_step (svgContent apiKey : string) (log : list Request) :
  exists walls doors : JsVal,
    (walls <- tryCatch
                (wallsData <- parseWallsOnly env svgContent apiKey ;;
                 walls <- getProp wallsData "walls" ;;
                 ret (orElse walls (JArray [])))
                (fun _ => ret (JArray [])) ;;
     doors <- tryCatch (parseDoorsOnly env svgContent apiKey)
                       (fun _ => ret (JArray [])) ;;
     ret (walls, doors)) log
    = (Returned (walls, doors),
       log ++ (if newAnthropic env apiKey
               then [WallsRequest svgContent; DoorsRequest svgContent]
               else []))
    /\ truthy walls = true /\ truthy doors = true.
Proof.
  destruct (parseWallsOnly_log svgContent apiKey log) as [ow Ew].
  set (logw := log ++ (if newAnthropic env apiKey
                       then [WallsRequest svgContent] else [])) in *.
  destruct (parseDoorsOnly_log svgContent apiKey logw) as [od [Ed Htd]].
  assert (Ewalls : exists walls,
             tryCatch
               (wallsData <- parseWallsOnly env svgContent apiKey ;;
                walls <- getProp wallsData "walls" ;;
                ret (orElse walls (JArray [])))
               (fun _ => ret (JArray [])) log = (Returned walls, logw)
             /\ truthy walls = true).
  { unfold tryCatch at 1. unfold bind at 1. rewrite Ew.
    destruct ow as [wallsData|e]; [|now exists (JArray [])].
    unfold bind, getProp, ret, throw.
    destruct wallsData; eexists; (split; [reflexivity|]);
      try reflexivity; apply orElse_truthy. }
  destruct Ewalls as [walls [Ewalls Htw]].
  destruct (guarded _ _ _ _ Ed) as [doors [Edoors Hd]].
  exists walls, doors. split; [|split; [exact Htw|]].
  - unfold bind at 1. rewrite Ewalls. unfold bind at 1. rewrite Edoors.
    unfold ret. f_equal. unfold logw.
    destruct (newAnthropic env apiKey); now rewrite <- app_assoc.
  - destruct Hd as [-> | Hd]; [reflexivity | now apply Htd].
Qed.

Lemma graphDataOf_spec (options : JsVal) (log : list Request) :
  options <> JNull -> options <> JUndefined ->
  exists g : JsVal,
    graphDataOf options log = (Returned g, log)
    /\ truthy g = usesGraphData options
    /\ (usesGraphData options = true -> g = field options "graphData").
Proof.
  intros H1 H2. unfold graphDataOf, bind, usesGraphData.
  rewrite (getProp_field options "useGraphData" log H1 H2).
  destruct (truthy (field options "useGraphData")) eqn:E.
  - rewrite (getProp_field options "graphData" log H1 H2).
    eexists. split; [reflexivity|]. split; [reflexivity | reflexivity].
  - eexists. split; [reflexivity|]. split; [exact E | discriminate].
Qed.

Lemma defaulted_options (options : JsVal) :
  options <> JNull ->
  let options' := match options with
                  | JUndefined => JObject []
                  | _ => options
                  end in
  options' <> JNull /\ options' <> JUndefined
  /\ usesGraphData options' = usesGraphData options
  /\ field options' "graphData" = field options "graphData".
Proof.
  destruct options; intros H; cbv zeta; repeat split;
    try discriminate; try assumption.
Qed.

Lemma sketch_parser_spec (svgContent : string) (canvas : option Canvas)
    (apiKey : string) (options : JsVal) (log : list Request) :
  options <> JNull ->
  exists sketch : Sketch,
    parseArchitecturalSketch env svgContent canvas apiKey options log
    = (Returned sketch,
       log ++ (if usesGraphData options then []
               else if newAnthropic env apiKey
                    then [WallsRequest svgContent; DoorsRequest svgContent]
                    else [])
           ++ roomsAsked env canvas apiKey)
    /\ truthy (walls sketch) = true
    /\ truthy (doors sketch) = true
    /\ truthy (rooms sketch) = true
    /\ (canvas = None -> rooms sketch = JArray [])
    /\ (usesGraphData options = true ->
        walls sketch
        = orElse (field (field options "graphData") "walls") (JArray [])
        /\ doors sketch
           = orElse (field (field options "graphData") "doors") (JArray [])).
Proof.
  intros Hnull. unfold parseArchitecturalSketch. cbv zeta.
  destruct (defaulted_options options Hnull) as [D1 [D2 [D3 D4]]].
  cbv zeta in D1, D2, D3, D4.
  set (options' := match options with
                   | JUndefined => JObject []
                   | _ => options
                   end) in *.
  destruct (graphDataOf_spec options' log D1 D2) as [g [Eg [Tg Fg]]].
  rewrite D3 in Tg, Fg. rewrite D4 in Fg.
  unfold bind at 1. rewrite Eg.
  destruct (usesGraphData options) eqn:U.
  - (* the graph of the front end *)
    rewrite (Fg eq_refl) in *. clear Fg.
    set (gd := field options "graphData") in *.
    destruct (truthy_defined gd Tg) as [G1 G2].
    unfold bind at 1. rewrite Tg.
    unfold bind at 1. rewrite (getProp_field gd "walls" log G1 G2).
    unfold bind at 1. rewrite (getProp_field gd "doors" log G1 G2).
    unfold ret at 1.
    destruct (rooms_step canvas apiKey log) as [r [Er [Tr Hc]]].
    unfold bind. rewrite Er. unfold ret. cbn [fst snd].
    exists {| walls := orElse (field gd "walls") (JArray []);
              doors := orElse (field gd "doors") (JArray []);
              rooms := r |}.
    cbn [app walls doors rooms].
    split; [reflexivity|].
    split; [apply orElse_truthy|]. split; [apply orElse_truthy|].
    split; [exact Tr|]. split; [exact Hc|].
    intros _. split; reflexivity.
  - (* the hosted model *)
    unfold bind at 1. rewrite Tg.
    destruct (wallsAndDoors_step svgContent apiKey log)
      as [w [d [Ewd [Tw Td]]]].
    rewrite Ewd.
    set (logwd := log ++ (if newAnthropic env apiKey
                          then [WallsRequest svgContent;
                                DoorsRequest svgContent]
                          else [])) in *.
    destruct (rooms_step canvas apiKey logwd) as [r [Er [Tr Hc]]].
    unfold bind. rewrite Er. unfold ret. cbn [fst snd].
    exists {| walls := w; doors := d; rooms := r |}.
    unfold logwd. rewrite <- app_assoc.
    cbn [walls doors rooms].
    split; [reflexivity|].
    split; [exact Tw|]. split; [exact Td|].
    split; [exact Tr|]. split; [exact Hc|].
    discriminate.
Qed.

Lemma jsSplit_no_separator (sep : ascii) (s : string) :
  occurs sep s = false -> jsSplit sep s = [s].
Proof.
  induction s as [|c s IH]; cbn [occurs jsSplit]; [reflexivity|].
  intros H. apply orb_false_iff in H as [Hc Hs].
  now rewrite Hc, (IH Hs).
Qed.

Lemma jsSplit_first_separator (sep : ascii) (prefix rest : string) :
  occurs sep prefix = false ->
  jsSplit sep (prefix ++ String sep rest)
  = prefix :: jsSplit sep rest.
Proof.
  induction prefix as [|c prefix IH]; cbn [occurs jsSplit String.append].
  - intros _. now rewrite Ascii.eqb_refl.
  - intros H. apply orb_false_iff in H as [Hc Hs].
    now rewrite Hc, (IH Hs).
Qed.

End ParserFacts.

(** parseArchitecturalSketch rejects in one case only: when the options
    argument is null, the read of options.useGraphData throws before any
    request is made.  For every other options value, and whatever the SDK,
    JSON.parse, the canvas and the FileReader do, it returns an object whose
    walls, doors and rooms are all truthy (never undefined or null). *)
Theorem sketch_parser_rejects_only_null_options {Canvas Blob : Type}
    (env : SvgParser.Env Canvas Blob) (svgContent : string)
    (canvas : option Canvas) (apiKey : string) (options : SvgParser.JsVal)
    (log : list SvgParser.Request) :
  SvgParser.parseArchitecturalSketch env svgContent canvas apiKey
    SvgParser.JNull log
  = (SvgParser.Thrown SvgParser.TypeError, log)
  /\ (options <> SvgParser.JNull ->
      exists (sketch : SvgParser.Sketch) (log' : list SvgParser.Request),
        SvgParser.parseArchitecturalSketch env svgContent canvas apiKey
          options log
        = (SvgParser.Returned sketch, log')
        /\ SvgParser.truthy (SvgParser.walls sketch) = true
        /\ SvgParser.truthy (SvgParser.doors sketch) = true
        /\ SvgParser.truthy (SvgParser.rooms sketch) = true).
Proof.
  split; [reflexivity|]. intros Hnull.
  destruct (sketch_parser_spec env svgContent canvas apiKey options log Hnull)
    as [sketch [E [Tw [Td [Tr _]]]]].
  exists sketch. eexists. split; [exact E|]. tauto.
Qed.

(** When options.useGraphData and options.graphData are both truthy, the
    walls and doors of the result are those of options.graphData (an empty
    array where one is missing or falsy), and no walls or doors request is
    made: at most the rooms request is, and none at all without a canvas. *)
Theorem graph_data_replaces_the_requests {Canvas Blob : Type}
    (env : SvgParser.Env Canvas Blob) (svgContent : string)
    (canvas : option Canvas) (apiKey : string) (options : SvgParser.JsVal)
    (log : list SvgParser.Request) :
  usesGraphData options = true ->
  exists (rooms : SvgParser.JsVal) (tail : list SvgParser.Request),
    SvgParser.parseArchitecturalSketch env svgContent canvas apiKey
      options log
    = (SvgParser.Returned
         {| SvgParser.walls :=
              SvgParser.orElse (field (field options "graphData") "walls")
                               (SvgParser.JArray []);
            SvgParser.doors :=
              SvgParser.orElse (field (field options "graphData") "doors")
                               (SvgParser.JArray []);
            SvgParser.rooms := rooms |},
       log ++ tail)
    /\ (tail = [] \/ exists img, tail = [SvgParser.RoomsRequest img])
    /\ (canvas = None -> tail = [] /\ rooms = SvgParser.JArray []).
Proof.
  intros U.
  assert (Hnull : options <> SvgParser.JNull) by (intros ->; discriminate U).
  destruct (sketch_parser_spec env svgContent canvas apiKey options log Hnull)
    as [sketch [E [_ [_ [_ [Hc Hg]]]]]].
  rewrite U in E, Hg. cbn [app] in E.
  destruct (Hg eq_refl) as [Hw Hd].
  exists (SvgParser.rooms sketch), (roomsAsked env canvas apiKey).
  rewrite <- Hw, <- Hd. destruct sketch. cbn [SvgParser.walls
    SvgParser.doors SvgParser.rooms] in *.
  split; [exact E|]. split; [apply roomsAsked_shape|].
  intros ->. split; [reflexivity | now apply Hc].
Qed.

Lemma graph_data_replaces_the_requests_witness :
  exists (rooms : SvgParser.JsVal) (tail : list SvgParser.Request),
    SvgParser.parseArchitecturalSketch offline "<svg/>" None "key"
      graphOptions []
    = (SvgParser.Returned
         {| SvgParser.walls :=
              SvgParser.orElse (field (field graphOptions "graphData") "walls")
                               (SvgParser.JArray []);
            SvgParser.doors :=
              SvgParser.orElse (field (field graphOptions "graphData") "doors")
                               (SvgParser.JArray []);
            SvgParser.rooms := rooms |},
       [] ++ tail)
    /\ (tail = [] \/ exists img, tail = [SvgParser.RoomsRequest img])
    /\ (@None unit = None -> tail = [] /\ rooms = SvgParser.JArray []).
Proof.
  apply (graph_data_replaces_the_requests offline "<svg/>" None "key"
           graphOptions []).
  reflexivity.
Defined.

(** Without graph data, and with options other than null, the parser asks
    the hosted model for the walls and then for the doors whenever the SDK
    client can be constructed, and then for the rooms: the rooms request is
    made exactly when there is a canvas, the client can be constructed and
    the canvas can be read as a data URL, and it carries what follows the
    first comma of that URL.  None of this depends on what the earlier
    requests come to: a walls or doors request that fails, or an answer that
    cannot be read, stops neither the doors request nor the rooms request. *)
Theorem hosted_model_is_asked_for_walls_then_doors {Canvas Blob : Type}
    (env : SvgParser.Env Canvas Blob) (svgContent : string)
    (canvas : option Canvas) (apiKey : string) (options : SvgParser.JsVal)
    (log : list SvgParser.Request) :
  options <> SvgParser.JNull ->
  usesGraphData options = false ->
  exists (sketch : SvgParser.Sketch) (tail : list SvgParser.Request),
    SvgParser.parseArchitecturalSketch env svgContent canvas apiKey
      options log
    = (SvgParser.Returned sketch,
       log ++ (if SvgParser.newAnthropic env apiKey
               then [SvgParser.WallsRequest svgContent;
                     SvgParser.DoorsRequest svgContent]
               else [])
           ++ tail)
    /\ (canvas = None ->
        tail = [] /\ SvgParser.rooms sketch = SvgParser.JArray [])
    /\ (SvgParser.newAnthropic env apiKey = false -> tail = [])
    /\ (forall c : Canvas,
          canvas = Some c -> SvgParser.toBlob env c = None -> tail = [])
    /\ (forall (c : Canvas) (blob : Blob),
          canvas = Some c -> SvgParser.toBlob env c = Some blob ->
          SvgParser.readAsDataURL env blob = None -> tail = [])
    /\ (forall (c : Canvas) (blob : Blob) (result : string),
          canvas = Some c ->
          SvgParser.newAnthropic env apiKey = true ->
          SvgParser.toBlob env c = Some blob ->
          SvgParser.readAsDataURL env blob = Some result ->
          tail = [SvgParser.RoomsRequest
                    (nth_error (SvgParser.jsSplit "," result) 1)]).
Proof.
  intros Hnull U.
  destruct (sketch_parser_spec env svgContent canvas apiKey options log Hnull)
    as [sketch [E [_ [_ [_ [Hc _]]]]]].
  rewrite U in E. exists sketch, (roomsAsked env canvas apiKey).
  split; [exact E|]. unfold roomsAsked.
  split; [intros ->; split; [reflexivity | now apply Hc]|].
  split.
  { intros N. destruct canvas; [now rewrite N | reflexivity]. }
  split.
  { intros c -> B. rewrite B.
    now destruct (SvgParser.newAnthropic env apiKey). }
  split.
  { intros c blob -> B R. rewrite B, R.
    now destruct (SvgParser.newAnthropic env apiKey). }
  intros c blob result -> N B R. now rewrite N, B, R.
Qed.

(** A browser in which every request fails while the canvas can be read:
    the walls, the doors and the rooms are all asked for, in this order. *)
Lemma hosted_model_is_asked_for_walls_then_doors_witness :
  exists sketch : SvgParser.Sketch,
    SvgParser.parseArchitecturalSketch reading "<svg/>" (Some tt) "key"
      SvgParser.JUndefined []
    = (SvgParser.Returned sketch,
       [ SvgParser.WallsRequest "<svg/>";
         SvgParser.DoorsRequest "<svg/>";
         SvgParser.RoomsRequest (Some "iVBORw0KGgo="%string) ]).
Proof.
  destruct (hosted_model_is_asked_for_walls_then_doors reading "<svg/>"
              (Some tt) "key" SvgParser.JUndefined [])
    as [sketch [tail [E [_ [_ [_ [_ H]]]]]]];
    [discriminate | reflexivity |].
  exists sketch. rewrite E.
  rewrite (H tt tt "data:image/png;base64,iVBORw0KGgo="%string
             eq_refl eq_refl eq_refl eq_refl).
  reflexivity.
Defined.

(** blobToBase64 on a data URL: when the reader's result is a media-type
    part without a comma, a comma, and a payload without a comma (base64 has
    none), the promise resolves to exactly the payload. *)
Theorem blobToBase64_takes_the_payload {Canvas Blob : Type}
    (env : SvgParser.Env Canvas Blob) (blob : Blob)
    (prefix payload : string) (log : list SvgParser.Request) :
  SvgParser.readAsDataURL env blob = Some (prefix ++ "," ++ payload)%string ->
  occurs "," prefix = false ->
  occurs "," payload = false ->
  SvgParser.blobToBase64 env blob log
  = (SvgParser.Returned (Some payload), log).
Proof.
  intros E Hp Hq. unfold SvgParser.blobToBase64. rewrite E.
  change ("," ++ payload)%string with (String "," payload).
  now rewrite (jsSplit_first_separator "," prefix payload Hp),
              (jsSplit_no_separator "," payload Hq).
Qed.

Lemma blobToBase64_takes_the_payload_witness :
  SvgParser.blobToBase64 reading tt []
  = (SvgParser.Returned (Some "iVBORw0KGgo="%string), []).
Proof.
  apply (blobToBase64_takes_the_payload reading tt
           "data:image/png;base64" "iVBORw0KGgo=" []);
    reflexivity.
Defined.

(** ** GraphBuilder: no short edges *)

Lemma distance_swap (a b : Point) : distance a b = distance b a.
Proof. unfold distance. f_equal. ring. Qed.

Lemma separated_edge (md : R) (g : WallGraph) (e : nat * nat) :
  builderInvariant g -> separated md (nodes g) -> In e (edges g) ->
  md <= edgeLength (nodes g) e.
Proof.
  intros [Hv Hl] Hs He. unfold validEdges in Hv.
  rewrite Forall_forall in Hv, Hl.
  destruct (Hv e He) as [H1 H2]. specialize (Hl e He).
  unfold noSelfLoop in Hl. unfold edgeLength.
  destruct (Nat.lt_ge_cases (fst e) (snd e)) as [Hlt | Hge].
  - apply Hs. lia.
  - rewrite distance_swap. apply Hs. lia.
Qed.

(** No short edge leaves the builder: every edge of the graph the first loop
    of createWallGraph builds is at least 40 pixels long, and every edge of
    the graph the sketch pad logs is at least 25 pixels long.  (In
    createWallGraph the rectification that follows moves the nodes, and can
    shorten an edge again.) *)
Theorem built_edges_are_long (paths : list Path) :
  (forall e, In e (edges (buildGraph paths)) ->
     mergeDistance <= edgeLength (nodes (buildGraph paths)) e)
  /\ (forall e, In e (edges (SketchPad.sendGraph paths)) ->
        SketchPad.mergeDistance
        <= edgeLength (nodes (SketchPad.sendGraph paths)) e).
Proof.
  split; intros e He.
  - rewrite buildGraph_within in *.
    assert (Hpos : 0 < mergeDistance) by (unfold mergeDistance; lra).
    destruct (buildGraphWithin_net mergeDistance Hpos paths)
      as [Hb [Hs _]].
    now apply separated_edge.
  - unfold SketchPad.sendGraph in *.
    assert (Hpos : 0 < SketchPad.mergeDistance)
      by (unfold SketchPad.mergeDistance; lra).
    destruct (buildGraphWithin_net SketchPad.mergeDistance Hpos paths)
      as [Hb [Hs _]].
    now apply separated_edge.
Qed.

(** ** DoorProjector: the zero-length edge *)









